(** * Necklace splitting by local search: a shallow embedding

    The development follows the Python sources file by file:

    - [Py]            the fragments of Python, [random] and NumPy that the
                      sources rely on (exceptions, indexing, slices, [range],
                      [sorted], [np.unique], [random.sample], ...);
    - [ListNecklace]  [src/necklace.py]   (the class the command line uses);
    - [NpNecklace]    [src/npnecklace.py] (the vectorised sibling);
    - [LocalSearch]   [src/localsearch.py], generic in the searched state;
    - [HeapNecklace]  [get_neighbors] once more, over an explicit object
                      store, to speak about aliasing and mutation;
    - [necklace_eq], [necklace_str], [file_io]
                      [__eq__], [__ne__], [__str__] and the script
                      [file_io.py].

    Conventions.  Python integers are [Z].  Scores are NumPy floats in the
    sources; they are modelled by exact rationals [Q], so a statement about
    a score is a statement about the number the floating point value
    approximates.  Fallible code returns [result]; a [for] loop that appends
    to a list is a monadic map.  Random sources and the wall clock are
    explicit arguments. *)

From Stdlib Require Import ZArith QArith Qabs List Lia String Ascii.
From Stdlib Require Import Permutation Sorted DecimalString.
From stdpp Require Import base list.
Import ListNotations.

Local Open Scope Z_scope.

(** ** Python, [random] and NumPy primitives *)

Module Py.

(** An exception is identified by the name of its class. *)
Inductive exn := PyExn (cls : string).

Definition ValueError : exn := PyExn "ValueError".
Definition TypeError : exn := PyExn "TypeError".
Definition IndexError : exn := PyExn "IndexError".

Inductive result (A : Type) : Type :=
| Ok (a : A)
| Raise (e : exn).
Arguments Ok {A} a.
Arguments Raise {A} e.

#[global] Instance result_ret : MRet result := fun _ a => Ok a.
#[global] Instance result_bind : MBind result := fun _ _ f m =>
  match m with
  | Ok a => f a
  | Raise e => Raise e
  end.
#[global] Instance result_fmap : FMap result := fun _ _ f m =>
  match m with
  | Ok a => Ok (f a)
  | Raise e => Raise e
  end.

(** [len(l)] *)
Definition len {A} (l : list A) : Z := Z.of_nat (length l).

(** [range(a, b)] *)
Definition range (a b : Z) : list Z :=
  map (fun k => a + Z.of_nat k) (seq 0 (Z.to_nat (b - a))).

(** [l[i]]: negative indices count from the end, anything outside raises. *)
Definition norm_index (n i : Z) : option nat :=
  let j := if i <? 0 then i + n else i in
  if (0 <=? j) && (j <? n) then Some (Z.to_nat j) else None.

Definition getitem {A} (l : list A) (i : Z) : result A :=
  match norm_index (len l) i with
  | Some j => match l !! j with Some x => Ok x | None => Raise IndexError end
  | None => Raise IndexError
  end.

(** [l[i] = x] *)
Definition setitem {A} (l : list A) (i : Z) (x : A) : result (list A) :=
  match norm_index (len l) i with
  | Some j => Ok (<[j := x]> l)
  | None => Raise IndexError
  end.

(** [l[a:b]]: bounds are clamped, never raise. *)
Definition slice_bound (n i : Z) : Z :=
  if i <? 0 then Z.max 0 (i + n) else Z.min i n.

Definition slice {A} (l : list A) (a b : Z) : list A :=
  let a' := slice_bound (len l) a in
  let b' := slice_bound (len l) b in
  take (Z.to_nat (b' - a')) (drop (Z.to_nat a') l).

(** [x in l] *)
Definition contains (x : Z) (l : list Z) : bool := existsb (Z.eqb x) l.

(** [sorted(l, key=key)]: Python's sort is stable; so is insertion from the
    right, where an element goes in front of the first element whose key is
    not smaller.  A stable sort has one possible output, so the two agree. *)
Section Sorted.
Context {A K : Type} (key : A -> K) (leb : K -> K -> bool).

Fixpoint insert_by (x : A) (l : list A) : list A :=
match l with
| [] => [x]
| y :: r => if leb (key x) (key y) then x :: l else y :: insert_by x r
end.

Definition sorted_by (l : list A) : list A := foldr insert_by [] l.
End Sorted.

Definition sorted (l : list Z) : list Z := sorted_by (fun x => x) Z.leb l.

(** [np.unique(l, return_counts=True)]: the distinct values in ascending
    order, each with the number of its occurrences. *)
Fixpoint tally (x : Z) (u : list (Z * Z)) : list (Z * Z) :=
  match u with
  | [] => [(x, 1)]
  | (y, c) :: r =>
      if x <? y then (x, 1) :: u
      else if x =? y then (y, c + 1) :: r
      else (y, c) :: tally x r
  end.

Definition unique_table (l : list Z) : list (Z * Z) := foldr tally [] l.
Definition np_unique (l : list Z) : list Z := (unique_table l).*1.
Definition np_unique_counts (l : list Z) : list Z * list Z :=
  ((unique_table l).*1, (unique_table l).*2).

(** [np.where(a == x)[0][0]]: the first index holding [x]. *)
Definition where_first (a : list Z) (x : Z) : result Z :=
  match list_find (fun y => y = x) a with
  | Some (i, _) => Ok (Z.of_nat i)
  | None => Raise IndexError
  end.

(** A random generator: an endless supply of raw draws and a cursor. *)
Record RNG := mkRNG { draws : nat -> N; cursor : nat }.

Definition next_raw (g : RNG) : N * RNG :=
  (draws g (cursor g), mkRNG (draws g) (S (cursor g))).

(** [randbelow(n)], for [n > 0] *)
Definition randbelow (n : nat) (g : RNG) : nat * RNG :=
  let (r, g') := next_raw g in (N.to_nat (r mod N.of_nat n), g').

(** [random_sample()]: a double in [[0, 1)], 53 random bits over [2^53]. *)
Definition random_sample_float (g : RNG) : Q * RNG :=
  let (r, g') := next_raw g in
  (Z.of_N (r mod 2 ^ 53) # 2 ^ 53, g').

(** [random.choice(seq)] *)
Definition random_choice (l : list Z) (g : RNG) : result (Z * RNG) :=
  match l with
  | [] => Raise IndexError
  | _ => let (j, g') := randbelow (length l) g in
         match l !! j with Some x => Ok (x, g') | None => Raise IndexError end
  end.

(** [random.sample(population, k)]: [k] picks without replacement; the
    picked slot is refilled with the last element still in the pool. *)
Fixpoint sample_pool (k : nat) (pool : list Z) (g : RNG) : list Z * RNG :=
  match k with
  | O => ([], g)
  | S k' =>
      let (j, g1) := randbelow (length pool) g in
      let x := default 0 (pool !! j) in
      let pool' := removelast (<[j := List.last pool 0]> pool) in
      let (r, g2) := sample_pool k' pool' g1 in
      (x :: r, g2)
  end.

Definition random_sample (population : list Z) (k : Z) (g : RNG)
  : result (list Z * RNG) :=
  if (0 <=? k) && (k <=? len population)
  then Ok (sample_pool (Z.to_nat k) population g)
  else Raise ValueError.

(** [np.random.choice(n, k)]: [k] independent picks from [range(n)], with
    replacement. *)
Fixpoint randint_list (k n : nat) (g : RNG) : list Z * RNG :=
  match k with
  | O => ([], g)
  | S k' =>
      let (j, g1) := randbelow n g in
      let (r, g2) := randint_list k' n g1 in
      (Z.of_nat j :: r, g2)
  end.

Definition np_random_choice_int (n k : Z) (g : RNG) : result (list Z * RNG) :=
  if k <? 0 then Raise ValueError
  else if (n <=? 0) && negb (k =? 0) then Raise ValueError
  else Ok (randint_list (Z.to_nat k) (Z.to_nat n) g).

(** [np.random.choice(a, 1, p=p)[0]]: the arguments are checked, then a
    uniform sample is located in the cumulated distribution. *)
Definition Qsum (p : list Q) : Q := foldr Qplus 0%Q p.

Fixpoint cumsum_from (acc : Q) (p : list Q) : list Q :=
  match p with
  | [] => []
  | x :: r => (acc + x)%Q :: cumsum_from (acc + x)%Q r
  end.

Definition cumsum (p : list Q) : list Q := cumsum_from 0%Q p.

(** [a.searchsorted(v, side='right')] on an ascending array. *)
Fixpoint searchsorted_right (a : list Q) (v : Q) : nat :=
  match a with
  | [] => O
  | c :: r => if Qle_bool c v then S (searchsorted_right r v) else O
  end.

Definition Qlt_bool (x y : Q) : bool := negb (Qle_bool y x).

Definition choice_index (p : list Q) (u : Q) : nat :=
  let cdf := cumsum p in
  let cdf := map (fun c => c / List.last cdf 0)%Q cdf in
  searchsorted_right cdf u.

Definition np_random_choice {A} (a : list A) (p : list Q) (np_g : RNG)
  : result (A * RNG) :=
  match a with
  | [] => Raise ValueError
  | _ =>
      if negb (length p =? length a)%nat then Raise ValueError
      else if existsb (fun x => Qlt_bool x 0) p then Raise ValueError
      else if negb (Qeq_bool (Qsum p) 1) then Raise ValueError
      else
        let (u, np_g') := random_sample_float np_g in
        match a !! choice_index p u with
        | Some x => Ok (x, np_g')
        | None => Raise IndexError
        end
  end.

End Py.

Import Py.

(** ** The attributes of a [Necklace] object *)

(** The [beads] argument: a list of Python integers, or a string (what the
    command line passes), whose characters are the tokens. *)
Inductive beads_arg :=
| IntBeads (l : list Z)
| StrBeads (s : string).

(** The [assignments] argument is stored as it comes; the code then treats
    it as a NumPy array. *)
Inductive seq_kind := KList | KTuple | KNdArray.
Record pyseq := mkSeq { kind : seq_kind; elems : list Z }.

Definition np_array (l : list Z) : pyseq := mkSeq KNdArray l.

Record Necklace := mkNecklace {
  beads : list Z;
  num_beads : Z;
  bead_types : Z;
  num_thieves : Z;
  max_move : Z;
  num_cuts : Z;
  cuts : list Z;
  assignments : pyseq;
  score : Q
}.

Definition set_cuts (s : Necklace) (c : list Z) : Necklace :=
  mkNecklace (beads s) (num_beads s) (bead_types s) (num_thieves s)
    (max_move s) (num_cuts s) c (assignments s) (score s).

Definition set_assignments (s : Necklace) (a : pyseq) : Necklace :=
  mkNecklace (beads s) (num_beads s) (bead_types s) (num_thieves s)
    (max_move s) (num_cuts s) (cuts s) a (score s).

Definition set_score (s : Necklace) (q : Q) : Necklace :=
  mkNecklace (beads s) (num_beads s) (bead_types s) (num_thieves s)
    (max_move s) (num_cuts s) (cuts s) (assignments s) q.

(** [l'] is [l] with exactly one entry replaced by a different value. *)
Definition one_changed (l l' : list Z) : Prop :=
  exists (i : nat) (x y : Z), l !! i = Some x /\ x <> y /\ l' = <[i := y]> l.

(** [list(beads)], tokens written as integers: a character is its code. *)
Definition tokens (b : beads_arg) : list Z :=
  match b with
  | IntBeads l => l
  | StrBeads s => map (fun c => Z.of_N (N_of_ascii c)) (list_ascii_of_string s)
  end.

(** [int_beads]: integers are kept as they are; other tokens are replaced
    by their rank among the sorted distinct tokens. *)
Definition int_beads (b : beads_arg) (unique : list Z) : list Z :=
  match b with
  | IntBeads l => l
  | StrBeads _ =>
      map (fun t => match list_find (fun y => y = t) unique with
                    | Some (i, _) => Z.of_nat i
                    | None => 0
                    end) (tokens b)
  end.

(** [gen_assignments], the same in both files. *)
Fixpoint gen_assignments_loop (k : nat) (all possible : list Z) (g : RNG)
  : result (list Z * RNG) :=
  match k with
  | O => Ok ([], g)
  | S k' =>
      '(a, g1) ← random_choice possible g;
      '(r, g2) ← gen_assignments_loop k' all
                   (filter (fun b => a ≠ b) all) g1;
      Ok (a :: r, g2)
  end.

Definition gen_assignments (num_thieves num_cuts : Z) (g : RNG)
  : result (pyseq * RNG) :=
  if num_cuts + 1 <? 0 then Raise ValueError
  else if num_cuts + 1 =? 0 then Ok (np_array [], g)
  else
    '(r, g') ← gen_assignments_loop (Z.to_nat num_cuts)
                 (range 0 num_thieves) (range 1 num_thieves) g;
    Ok (np_array (0 :: r), g').

(** [self.assignments == thief]: element-wise on an array; a list or tuple
    is simply not equal to a number. *)
Inductive eq_result := EqArray (m : list bool) | EqFalse.

Definition assignments_eq (a : pyseq) (thief : Z) : eq_result :=
  match kind a with
  | KNdArray => EqArray (map (Z.eqb thief) (elems a))
  | _ => EqFalse
  end.

(** Accumulating [for] loop over rational summands. *)
Fixpoint sum_loop {A} (f : A -> result Q) (l : list A) (acc : Q) : result Q :=
  match l with
  | [] => Ok acc
  | x :: r => t ← f x; sum_loop f r (acc + t)%Q
  end.

(** *** [get_neighbors], the same text in both files

    Each file calls its own constructor and its own [gen_score]. *)

Section Neighbors.
Variable construct : beads_arg -> Z -> Z -> list Z -> pyseq -> result Necklace.
Variable gen_score : Necklace -> result (Q * Necklace).

(** The copy every neighbour starts from:
[Necklace(self.beads, self.num_thieves, self.max_move,
      cuts=np.array(self.cuts),
      assignments=np.array(self.assignments))]. *)
Definition copy_of (s : Necklace) : result Necklace :=
construct (IntBeads (beads s)) (num_thieves s) (max_move s)
(cuts s) (np_array (elems (assignments s))).

Definition cut_neighbor (s : Necklace) (i pos : Z) : result Necklace :=
nb ← copy_of s;
c ← setitem (cuts nb) i pos;
'(_, nb') ← gen_score (set_cuts nb c);
Ok nb'.

Definition cut_candidates (s : Necklace) (pos : Z) : list Z :=
let right := pos - max_move s in
let right := if right >? 0 then right else 0 in
let left := pos + max_move s in
let left := if left <? num_beads s then left else num_beads s in
filter (fun pos => contains pos (cuts s) = false) (range right left).

Definition cut_moves_at (s : Necklace) (i : Z) : result (list Necklace) :=
pos ← getitem (cuts s) i;
mapM (cut_neighbor s i) (cut_candidates s pos).

Definition assignment_neighbor (s : Necklace) (i thief : Z)
: result Necklace :=
nb ← copy_of s;
a ← setitem (elems (assignments nb)) i thief;
'(_, nb') ← gen_score
        (set_assignments nb (mkSeq (kind (assignments nb)) a));
Ok nb'.

Definition cannot_assign (s : Necklace) (i : Z) : list Z :=
let prev := if i >? 0 then i else 0 in
slice (elems (assignments s)) prev (prev + 3).

Definition assignment_candidates (s : Necklace) (i : Z) : list Z :=
filter (fun thief => contains thief (cannot_assign s i) = false)
(range 0 (num_thieves s)).

Definition assignment_moves_at (s : Necklace) (i : Z)
: result (list Necklace) :=
mapM (assignment_neighbor s i) (assignment_candidates s i).

Definition cut_moves (s : Necklace) : result (list Necklace) :=
@concat Necklace <$> mapM (cut_moves_at s) (range 0 (num_cuts s)).

Definition assignment_moves (s : Necklace) : result (list Necklace) :=
@concat Necklace <$> mapM (assignment_moves_at s)
       (range 0 (len (elems (assignments s)))).

Definition get_neighbors_with (s : Necklace) : result (list Necklace) :=
cs ← cut_moves s;
asg ← assignment_moves s;
Ok (cs ++ asg).
End Neighbors.

(** *** [src/necklace.py] *)

Module ListNecklace.

Definition gen_cuts (num_beads num_cuts : Z) (g : RNG)
  : result (list Z * RNG) :=
  '(c, g') ← random_sample (range 0 num_beads) num_cuts g;
  Ok (sorted c, g').

Definition intervals (s : Necklace) : list Z :=
  [0] ++ cuts s ++ [num_beads s].

Fixpoint thief_beads_loop (s : Necklace) (mask : eq_result)
    (intervals : list Z) (idxs : list Z) (thief_beads : list Z)
  : result (list Z) :=
  match idxs with
  | [] => Ok thief_beads
  | i :: r =>
      b ← match mask with
          | EqArray m => getitem m i
          | EqFalse => Raise TypeError
          end;
      if (b : bool) then
        lo ← getitem intervals i;
        hi ← getitem intervals (i + 1);
        thief_beads_loop s mask intervals r (thief_beads ++ slice (beads s) lo hi)
      else thief_beads_loop s mask intervals r thief_beads
  end.

Definition get_thief_beads (s : Necklace) (thief : Z) : result (list Z) :=
  let thief_assignments := assignments_eq (assignments s) thief in
  let intervals := intervals s in
  thief_beads_loop s thief_assignments intervals
    (range 0 (len intervals - 1)) [].

Definition score_term (perfect_bead_split : list Q)
    (thief_unique thief_counts : list Z) (i : Z) : result Q :=
  if negb (contains i thief_unique) then Ok 2%Q
  else
    where_ ← where_first thief_unique i;
    p ← getitem perfect_bead_split i;
    c ← getitem thief_counts where_;
    Ok (Qabs (p - inject_Z c)).

Definition thief_score (s : Necklace) (unique : list Z)
    (perfect_bead_split : list Q) (thief : Z) : result Q :=
  thief_beads ← get_thief_beads s thief;
  let '(thief_unique, thief_counts) := np_unique_counts thief_beads in
  sum_loop (score_term perfect_bead_split thief_unique thief_counts)
    (range 0 (len unique)) 0%Q.

(** [gen_score] returns the score and stores it in [self.score]. *)
Definition gen_score (s : Necklace) : result (Q * Necklace) :=
  let '(unique, counts) := np_unique_counts (beads s) in
  let perfect_bead_split :=
    map (fun c => inject_Z c / inject_Z (num_thieves s))%Q counts in
  sc ← sum_loop (thief_score s unique perfect_bead_split)
         (range 0 (num_thieves s)) 0%Q;
  Ok (sc, set_score s sc).

(** [__init__] once [cuts] and [assignments] are known. *)
Definition construct (b : beads_arg) (num_thieves max_move : Z)
    (cuts : list Z) (assignments : pyseq) : result Necklace :=
  let num_beads := len (tokens b) in
  let unique := np_unique (tokens b) in
  let bead_types := len unique in
  let beads := int_beads b unique in
  let num_cuts := (num_thieves - 1) * bead_types in
  '(_, s) ← gen_score (mkNecklace beads num_beads bead_types num_thieves
                         max_move num_cuts cuts assignments 0%Q);
  Ok s.

(** [__init__]; the missing arguments are drawn from [random]. *)
Definition init (g : RNG) (b : beads_arg) (num_thieves max_move : Z)
    (cuts : option (list Z)) (assignments : option pyseq)
  : result (Necklace * RNG) :=
  let num_beads := len (tokens b) in
  let bead_types := len (np_unique (tokens b)) in
  let num_cuts := (num_thieves - 1) * bead_types in
  '(c, g1) ← match cuts with
             | Some c => Ok (c, g)
             | None => gen_cuts num_beads num_cuts g
             end;
  '(a, g2) ← match assignments with
             | Some a => Ok (a, g1)
             | None => gen_assignments num_thieves num_cuts g1
             end;
  s ← construct b num_thieves max_move c a;
  Ok (s, g2).

Definition get_neighbors : Necklace -> result (list Necklace) :=
  get_neighbors_with construct gen_score.

End ListNecklace.

(** *** [src/npnecklace.py] *)

Module NpNecklace.

Definition gen_cuts (num_beads num_cuts : Z) (np_g : RNG)
  : result (list Z * RNG) :=
  '(c, np_g') ← np_random_choice_int num_beads num_cuts np_g;
  Ok (sorted c, np_g').

(** The rows of [np.stack((intervals[:-1], intervals[1:]), axis=1)]. *)
Definition intervals (s : Necklace) : list (Z * Z) :=
  let intervals := [0] ++ cuts s ++ [num_beads s] in
  zip (removelast intervals) (tail intervals).

(** [intervals[mask]]: a mask of the wrong length is refused; the scalar
    [False] selects nothing. *)
Definition mask_select {A} (rows : list A) (mask : eq_result)
  : result (list A) :=
  match mask with
  | EqArray m =>
      if len m =? len rows
      then Ok (omap (fun '(b, r) => if (b : bool) then Some r else None)
                 (zip m rows))
      else Raise IndexError
  | EqFalse => Ok []
  end.

(** [np.concatenate] refuses an empty list of arrays. *)
Definition np_concatenate (parts : list (list Z)) : result (list Z) :=
  match parts with
  | [] => Raise ValueError
  | _ => Ok (concat parts)
  end.

Definition get_thief_beads (s : Necklace) (thief : Z) : result (list Z) :=
  rows ← mask_select (intervals s) (assignments_eq (assignments s) thief);
  np_concatenate (map (fun '(start, end_) => slice (beads s) start end_) rows).

(** One row of [thief_counts]: for every type in [arange(0, bead_types)],
    how many of the thief's beads equal it. *)
Definition count_row (bead_types : Z) (beads : list Z) : list Z :=
  map (fun t => len (filter (fun b => b = t) beads)) (range 0 bead_types).

(** [row - perfect_bead_split] under NumPy broadcasting. *)
Definition broadcast_sub (row : list Z) (perfect : list Q)
  : result (list Q) :=
  if len row =? len perfect
  then Ok (zip_with (fun c p => inject_Z c - p)%Q row perfect)
  else match perfect, row with
       | [p], _ => Ok (map (fun c => inject_Z c - p)%Q row)
       | _, [c] => Ok (map (fun p => inject_Z c - p)%Q perfect)
       | _, _ => Raise ValueError
       end.

Definition row_score (perfect : list Q) (row : list Z) : result Q :=
  d ← broadcast_sub row perfect;
  Ok (foldr Qplus 0%Q (map Qabs d)).

(** [gen_score] stores the score in [self.score] and returns [0]. *)
Definition gen_score (s : Necklace) : result (Q * Necklace) :=
  let score := 0%Q in
  let '(unique, counts) := np_unique_counts (beads s) in
  let perfect_bead_split :=
    map (fun c => inject_Z c / inject_Z (num_thieves s))%Q counts in
  thief_beads ← mapM (get_thief_beads s) (range 0 (num_thieves s));
  let thief_counts := map (count_row (bead_types s)) thief_beads in
  sc ← match thief_counts with
       | [] => _ ← broadcast_sub [] perfect_bead_split; Ok 0%Q
       | _ => sum_loop (row_score perfect_bead_split) thief_counts 0%Q
       end;
  Ok (score, set_score s sc).

Definition construct (b : beads_arg) (num_thieves max_move : Z)
    (cuts : list Z) (assignments : pyseq) : result Necklace :=
  let num_beads := len (tokens b) in
  let unique := np_unique (tokens b) in
  let bead_types := len unique in
  let beads := int_beads b unique in
  let num_cuts := (num_thieves - 1) * bead_types in
  '(_, s) ← gen_score (mkNecklace beads num_beads bead_types num_thieves
                         max_move num_cuts cuts assignments 0%Q);
  Ok s.

(** [__init__]; missing cuts come from [np.random], missing assignments
    from [random]. *)
Definition init (np_g g : RNG) (b : beads_arg) (num_thieves max_move : Z)
    (cuts : option (list Z)) (assignments : option pyseq)
  : result (Necklace * RNG * RNG) :=
  let num_beads := len (tokens b) in
  let bead_types := len (np_unique (tokens b)) in
  let num_cuts := (num_thieves - 1) * bead_types in
  '(c, np_g1) ← match cuts with
                | Some c => Ok (c, np_g)
                | None => gen_cuts num_beads num_cuts np_g
                end;
  '(a, g1) ← match assignments with
             | Some a => Ok (a, g)
             | None => gen_assignments num_thieves num_cuts g
             end;
  s ← construct b num_thieves max_move c a;
  Ok (s, np_g1, g1).

Definition get_neighbors : Necklace -> result (list Necklace) :=
  get_neighbors_with construct gen_score.

End NpNecklace.

(** ** [src/localsearch.py] *)

Module LocalSearch.

(** [src/searchable.py]: what the engine needs of a searched object. *)
Class LocalSearcheable (State : Type) := {
  get_neighbors : State -> result (list State);
  score_of : State -> Q
}.

(** How a run with a fuel bound can end. *)
Inductive outcome (A : Type) : Type :=
| Returned (a : A)
| Raised (e : exn)
| OutOfFuel.
Arguments Returned {A} a.
Arguments Raised {A} e.
Arguments OutOfFuel {A}.

Section Engine.
Context {State : Type} `{LocalSearcheable State}.

(** [clock k] is what the [k]-th call of [time.time()] returns. *)
Variable clock : nat -> Q.

(** [p = np.array([(1 / i) ** 2 for i in range(1, n + 1)]); p / p.sum()] *)
Definition raw_weights (n : Z) : list Q :=
map (fun i => (1 / inject_Z i) ^ 2)%Q (range 1 (n + 1)).

Definition choice_weights (n : Z) : list Q :=
let p := raw_weights n in
map (fun w => w / Qsum p)%Q p.

(** The body of the [while] loop up to the assignment of [self.obj]. *)
Definition ranked_neighbors (obj : State) : result (list State) :=
neighbors ← get_neighbors obj;
Ok (sorted_by score_of Qle_bool neighbors).

Definition iteration (obj : State) (np_g : RNG) : result (State * RNG) :=
neighbors ← ranked_neighbors obj;
let p := choice_weights (len neighbors) in
np_random_choice neighbors p np_g.

(** The [while] loop.  [tick] counts the readings of the clock; [visited]
is not in the source: it records every value [self.obj] takes. *)
Fixpoint search_loop (fuel : nat) (t_end : Q) (tick : nat) (np_g : RNG)
(obj best_solution : State) (best_score : Q) (visited : list State)
: outcome (State * list State) :=
if Qlt_bool (clock tick) t_end then
match fuel with
| O => OutOfFuel
| S fuel' =>
match iteration obj np_g with
| Raise e => Raised e
| Ok (obj', np_g') =>
    if Qlt_bool (score_of obj') best_score
    then search_loop fuel' t_end (S tick) np_g' obj' obj'
           (score_of obj') (visited ++ [obj'])
    else search_loop fuel' t_end (S tick) np_g' obj' best_solution
           best_score (visited ++ [obj'])
end
end
else Returned (best_solution, visited).

(** What the loop maintains: [best_solution] is a state seen so far, of
least score among them, and [best_score] is its score. *)
Definition best_so_far (init : State) (visited : list State)
(best_solution : State) (best_score : Q) : Prop :=
best_score = score_of best_solution /\
best_solution ∈ init :: visited /\
forall s, s ∈ init :: visited -> (score_of best_solution <= score_of s)%Q.

Definition search_run (fuel : nat) (np_g : RNG) (obj : State) (stop : Q)
: outcome (State * list State) :=
let t_end := (clock 0 + stop)%Q in
let best_solution := obj in
let best_score := score_of best_solution in
search_loop fuel t_end 1 np_g obj best_solution best_score [].

Definition search (fuel : nat) (np_g : RNG) (obj : State) (stop : Q)
: outcome State :=
match search_run fuel np_g obj stop with
| Returned (best, _) => Returned best
| Raised e => Raised e
| OutOfFuel => OutOfFuel
end.
End Engine.

End LocalSearch.

#[global] Instance list_necklace_searcheable
  : LocalSearch.LocalSearcheable Necklace :=
  {| LocalSearch.get_neighbors := ListNecklace.get_neighbors;
     LocalSearch.score_of := score |}.

(** ** [__hash__], the same text in both files *)

(** The values found in the attribute dictionary of a [Necklace]. *)
Inductive pyval :=
| VInt (z : Z)
| VFloat (q : Q)
| VSeq (s : pyseq).

Section Hash.
(** The hashes of the hashable built-in objects are left open. *)
Variable hash_int : Z -> Z.
Variable hash_float : Q -> Z.
Variable hash_str : string -> Z.
Variable hash_tuple : list Z -> Z.

(** The container [self.cuts] is: a list in [necklace.py], an array in
[npnecklace.py]. *)
Variable cuts_kind : seq_kind.

(** [hash(v)]: lists and arrays are unhashable. *)
Definition hash_val (v : pyval) : result Z :=
match v with
| VInt z => Ok (hash_int z)
| VFloat q => Ok (hash_float q)
| VSeq s =>
match kind s with
| KTuple => Ok (hash_tuple (map hash_int (elems s)))
| KList | KNdArray => Raise TypeError
end
end.

Definition hash_item (kv : string * pyval) : result Z :=
hv ← hash_val (snd kv);
Ok (hash_tuple [hash_str (fst kv); hv]).

(** [self.__dict__.items()], in the order [__init__] sets the attributes. *)
Definition dict_items (s : Necklace) : list (string * pyval) :=
[ ("beads"%string, VSeq (mkSeq KList (beads s)));
("num_beads"%string, VInt (num_beads s));
("bead_types"%string, VInt (bead_types s));
("num_thieves"%string, VInt (num_thieves s));
("max_move"%string, VInt (max_move s));
("num_cuts"%string, VInt (num_cuts s));
("cuts"%string, VSeq (mkSeq cuts_kind (cuts s)));
("assignments"%string, VSeq (assignments s));
("score"%string, VFloat (score s)) ].

(** [hash(tuple(sorted(self.__dict__.items())))].  The keys differ, so
the comparison of two items is the comparison of their keys. *)
Definition necklace_hash (s : Necklace) : result Z :=
hs ← mapM hash_item (sorted_by fst String.leb (dict_items s));
Ok (hash_tuple hs).
End Hash.

(** ** [get_neighbors] over an object store

    Lists, arrays and [Necklace] instances live in a store and are named by
    their addresses, so that copying, sharing and in-place assignment are
    what they are in Python. *)

Module HeapNecklace.

(** Addresses. *)
Abbreviation loc := nat.

Record object := mkObject {
  o_beads : loc;
  o_num_beads : Z;
  o_bead_types : Z;
  o_num_thieves : Z;
  o_max_move : Z;
  o_num_cuts : Z;
  o_cuts : loc;
  o_assignments : loc;
  o_score : Q
}.

Definition set_o_score (o : object) (q : Q) : object :=
  mkObject (o_beads o) (o_num_beads o) (o_bead_types o) (o_num_thieves o)
    (o_max_move o) (o_num_cuts o) (o_cuts o) (o_assignments o) q.

Inductive cell :=
| Seq (k : seq_kind) (xs : list Z)
| Obj (o : object).

Abbreviation heap := (list cell).

(** A new object takes the next free address. *)
Definition alloc (c : cell) (h : heap) : loc * heap := (length h, h ++ [c]).

Definition get_seq (l : loc) (h : heap) : result (seq_kind * list Z) :=
  match h !! l with
  | Some (Seq k xs) => Ok (k, xs)
  | _ => Raise TypeError
  end.

Definition get_obj (l : loc) (h : heap) : result object :=
  match h !! l with
  | Some (Obj o) => Ok o
  | _ => Raise TypeError
  end.

(** The values an object's attributes currently denote. *)
Definition snapshot (o : object) (h : heap) : result Necklace :=
  '(_, b) ← get_seq (o_beads o) h;
  '(_, c) ← get_seq (o_cuts o) h;
  '(k, a) ← get_seq (o_assignments o) h;
  Ok (mkNecklace b (o_num_beads o) (o_bead_types o) (o_num_thieves o)
        (o_max_move o) (o_num_cuts o) c (mkSeq k a) (o_score o)).

(** A loop that appends to [neighbors] while the store evolves. *)
Fixpoint for_each {A B} (f : A -> heap -> result (list B * heap))
    (l : list A) (h : heap) : result (list B * heap) :=
  match l with
  | [] => Ok ([], h)
  | x :: r =>
      '(ys, h1) ← f x h;
      '(zs, h2) ← for_each f r h1;
      Ok (ys ++ zs, h2)
  end.

(** [self.assignments[prev:prev + 3]]: a view into an array, a copy of a
    list or tuple. *)
Inductive window :=
| View (l : loc) (a b : Z)
| Copy (xs : list Z).

Definition window_contains (x : Z) (w : window) (h : heap) : result bool :=
  match w with
  | View l a b => '(_, xs) ← get_seq l h; Ok (contains x (slice xs a b))
  | Copy xs => Ok (contains x xs)
  end.

Section Heap.
(** What [__init__] makes of its [cuts] argument: [list(cuts)] or
[np.array(cuts)]. *)
Variable cuts_kind : seq_kind.
(** The file's [gen_score]; it reads the attributes and builds only
temporaries. *)
Variable gen_score : Necklace -> result (Q * Necklace).

Definition gen_score_h (self : loc) (h : heap) : result (Q * heap) :=
o ← get_obj self h;
s ← snapshot o h;
'(r, s') ← gen_score s;
Ok (r, <[self := Obj (set_o_score o (score s'))]> h).

(** [__init__] on integer beads with [cuts] and [assignments] given. *)
Definition init_h (beads : loc) (num_thieves max_move : Z)
(cuts assignments : loc) (h : heap) : result (loc * heap) :=
'(_, b) ← get_seq beads h;
let (beads', h1) := alloc (Seq KList b) h in
let num_beads := len b in
let bead_types := len (np_unique b) in
let num_cuts := (num_thieves - 1) * bead_types in
'(_, c) ← get_seq cuts h1;
let (cuts', h2) := alloc (Seq cuts_kind c) h1 in
let (self, h3) :=
alloc (Obj (mkObject beads' num_beads bead_types num_thieves max_move
          num_cuts cuts' assignments 0%Q)) h2 in
'(_, h4) ← gen_score_h self h3;
Ok (self, h4).

(** [np.array(x)]: a new array with the elements of [x]. *)
Definition np_array_h (l : loc) (h : heap) : result (loc * heap) :=
'(_, xs) ← get_seq l h;
Ok (alloc (Seq KNdArray xs) h).

Definition new_neighbor_h (self : loc) (h : heap) : result (loc * heap) :=
o ← get_obj self h;
'(c, h1) ← np_array_h (o_cuts o) h;
'(a, h2) ← np_array_h (o_assignments o) h1;
init_h (o_beads o) (o_num_thieves o) (o_max_move o) c a h2.

(** [neighbors[-1].cuts[i] = pos; neighbors[-1].gen_score()] *)
Definition cut_neighbor_h (self : loc) (i pos : Z) (h : heap)
: result (loc * heap) :=
'(nb, h1) ← new_neighbor_h self h;
o ← get_obj nb h1;
'(k, xs) ← get_seq (o_cuts o) h1;
xs' ← setitem xs i pos;
'(_, h3) ← gen_score_h nb (<[o_cuts o := Seq k xs']> h1);
Ok (nb, h3).

Definition assignment_neighbor_h (self : loc) (i thief : Z) (h : heap)
: result (loc * heap) :=
'(nb, h1) ← new_neighbor_h self h;
o ← get_obj nb h1;
'(k, xs) ← get_seq (o_assignments o) h1;
xs' ← setitem xs i thief;
'(_, h3) ← gen_score_h nb (<[o_assignments o := Seq k xs']> h1);
Ok (nb, h3).

Definition cut_moves_at_h (self : loc) (i : Z) (h : heap)
: result (list loc * heap) :=
o ← get_obj self h;
'(_, cs) ← get_seq (o_cuts o) h;
pos ← getitem cs i;
let right := pos - o_max_move o in
let right := if right >? 0 then right else 0 in
let left := pos + o_max_move o in
let left := if left <? o_num_beads o then left else o_num_beads o in
for_each (fun pos h =>
      o ← get_obj self h;
      '(_, cs) ← get_seq (o_cuts o) h;
      if contains pos cs then Ok ([], h)
      else '(nb, h') ← cut_neighbor_h self i pos h; Ok ([nb], h'))
(range right left) h.

Definition assignment_moves_at_h (self : loc) (i : Z) (h : heap)
: result (list loc * heap) :=
o ← get_obj self h;
'(k, xs) ← get_seq (o_assignments o) h;
let prev := if i >? 0 then i else 0 in
let cannot_assign :=
match k with
| KNdArray => View (o_assignments o) prev (prev + 3)
| _ => Copy (slice xs prev (prev + 3))
end in
for_each (fun thief h =>
      b ← window_contains thief cannot_assign h;
      if (b : bool) then Ok ([], h)
      else '(nb, h') ← assignment_neighbor_h self i thief h;
           Ok ([nb], h'))
(range 0 (o_num_thieves o)) h.

Definition get_neighbors_h (self : loc) (h : heap)
: result (list loc * heap) :=
o ← get_obj self h;
'(cs, h1) ← for_each (cut_moves_at_h self) (range 0 (o_num_cuts o)) h;
o ← get_obj self h1;
'(_, xs) ← get_seq (o_assignments o) h1;
'(asg, h2) ← for_each (assignment_moves_at_h self) (range 0 (len xs)) h1;
Ok (cs ++ asg, h2).
(** *** What a finished neighbour looks like in the store *)

(** The five cells a neighbour adds from address [base] on: the two arrays
copied for the call (the second is kept as the neighbour's
assignments), the neighbour's beads, its cuts, and the neighbour. *)
Definition neighbor_block (base : loc) (o : object) (b c c' a' : list Z)
(q : Q) : list cell :=
[ Seq KNdArray c; Seq KNdArray a'; Seq KList b; Seq cuts_kind c';
Obj (mkObject (base + 2)%nat (len b) (len (np_unique b))
     (o_num_thieves o) (o_max_move o)
     ((o_num_thieves o - 1) * len (np_unique b))
     (base + 3)%nat (base + 1)%nat q) ].

(** The attributes of the neighbour in such a block. *)
Definition neighbor_state (o : object) (b c' a' : list Z) (q : Q) : Necklace :=
mkNecklace b (len b) (len (np_unique b)) (o_num_thieves o) (o_max_move o)
((o_num_thieves o - 1) * len (np_unique b)) c' (np_array a') q.

(** The stores reached from [h0] while neighbours of the object [o], with
beads [b], cuts [c] and assignments [a], are being built: each
neighbour differs from the base in one cut or in one assignment, and
its score is the one [gen_score] computes from its own attributes. *)
Inductive built (h0 : heap) (o : object) (b c a : list Z)
: heap -> list loc -> Prop :=
| built_nil : built h0 o b c a h0 []
| built_snoc (h : heap) (nbs : list loc) (c' a' : list Z) (q : Q) :
built h0 o b c a h nbs ->
(a' = a /\ one_changed c c') \/ (c' = c /\ one_changed a a') ->
(exists q0 r s',
   gen_score (neighbor_state o b c' a' q0) = Ok (r, s') /\
   q = score s') ->
built h0 o b c a (h ++ neighbor_block (length h) o b c c' a' q)
  (nbs ++ [(length h + 4)%nat]).
End Heap.

End HeapNecklace.

(** ** Vocabulary of the specification *)

(** The failures the specification names; no source file defines such
    classes. *)
Definition SearchExhaustedError : exn := PyExn "SearchExhaustedError".

#[global] Instance Qeq_decision : RelDecision Qeq := Qeq_dec.

(** How many beads of type [t] a list holds. *)
Definition occurrences (t : Z) (l : list Z) : Z :=
  len (filter (fun b => b = t) l).

(** The ideal share [count[t] / num_thieves] of a bead type. *)
Definition ideal (s : Necklace) (t : Z) : Q :=
  (inject_Z (occurrences t (beads s)) / inject_Z (num_thieves s))%Q.

(** [| ideal[t] - observed count of t |] for one thief's beads. *)
Definition deviation (s : Necklace) (thief_beads : list Z) (t : Z) : Q :=
  Qabs (ideal s t - inject_Z (occurrences t thief_beads)).

(** The same, but a type the thief does not hold at all costs [2]. *)
Definition penalised_deviation (s : Necklace) (thief_beads : list Z) (t : Z)
  : Q :=
  if occurrences t thief_beads =? 0 then 2%Q else deviation s thief_beads t.

(** The sum over all thieves (given by their bead lists) and all types. *)
Definition total_over (term : list Z -> Z -> Q) (types : list Z)
    (per_thief : list (list Z)) : Q :=
  Qsum (map (fun thief_beads => Qsum (map (term thief_beads) types)) per_thief).

(** Beads are canonical when the distinct values are [0 .. bead_types-1],
    as [int_beads] makes them for tokens that are not integers. *)
Definition canonical (l : list Z) : Prop :=
  np_unique l = range 0 (len (np_unique l)).

(** The count a table gives to a value (0 when the value has no row). *)
Fixpoint table_count (u : list (Z * Z)) (v : Z) : Z :=
  match u with
  | [] => 0
  | (y, c) :: r => (if y =? v then c else 0) + table_count r v
  end.


(** ** Concrete inputs used below *)

Definition rng0 : RNG := mkRNG (fun i => N.of_nat i * 1234567891234567 + 3)%N 0.

(** A generator that always draws [1]. *)
Definition rng_ones : RNG := mkRNG (fun _ => 1%N) 0.

(** A clock that advances one second per reading. *)
Definition clock0 (k : nat) : Q := inject_Z (Z.of_nat k).

(** [Necklace("0", 1)]: one bead, one thief, no cut. *)
Definition lone_thief : Necklace :=
  mkNecklace [0] 1 1 1 20 0 [] (np_array [0]) 0.

(** [Necklace("0101", 2, 4, cuts=[1, 2], assignments=np.array([0, 1, 0]))] *)
Definition necklace_0101 : Necklace :=
  mkNecklace [0; 1; 0; 1] 4 2 2 4 2 [1; 2] (np_array [0; 1; 0]) (24 # 8).

(** [Necklace("000", 3, 4, cuts=[1, 2], assignments=np.array([1, 0, 2]))] *)
Definition necklace_000 : Necklace :=
  mkNecklace [0; 0; 0] 3 1 3 4 2 [1; 2] (np_array [1; 0; 2]) (0 # 27).

(** The state [Necklace("000", 3, 4, cuts=[1, 2],
    assignments=np.array([0, 1, 0]))] of [npnecklace.py] before its score
    is computed: thief [2] owns no partition. *)
Definition necklace_000_idle_thief : Necklace :=
  mkNecklace [0; 0; 0] 3 1 3 4 2 [1; 2] (np_array [0; 1; 0]) 0.

(** [Necklace("0101", 2, 4, cuts=[1, 3], assignments=np.array([0, 1, 0]))]
    before its score is computed: each thief holds one bead of each
    type. *)
Definition necklace_fair : Necklace :=
  mkNecklace [0; 1; 0; 1] 4 2 2 4 2 [1; 3] (np_array [0; 1; 0]) 0.

(** A store holding [necklace_0101] at address [3], after its beads, cuts
    and assignments. *)
Definition store_0101 : list HeapNecklace.cell :=
  [ HeapNecklace.Seq KList [0; 1; 0; 1];
    HeapNecklace.Seq KList [1; 2];
    HeapNecklace.Seq KNdArray [0; 1; 0];
    HeapNecklace.Obj (HeapNecklace.mkObject 0 4 2 2 4 2 1 2 (24 # 8)) ].

(** The attribute values of the objects at the given addresses. *)
Definition snapshots (nbs : list nat) (h : list HeapNecklace.cell)
  : result (list Necklace) :=
  mapM (fun nb => o ← HeapNecklace.get_obj nb h; HeapNecklace.snapshot o h)
    nbs.

(** ** Well-formed states *)

(** The invariants the data model asks of a state. *)
Definition valid_state (s : Necklace) : Prop :=
  num_beads s = len (beads s) /\
  StronglySorted Z.lt (cuts s) /\
  Forall (fun c => 0 <= c < num_beads s) (cuts s) /\
  kind (assignments s) = KNdArray /\
  len (elems (assignments s)) = len (cuts s) + 1 /\
  Forall (fun t => 0 <= t < num_thieves s) (elems (assignments s)).

(** The same state with every bead replaced by its index. *)
Definition label_beads (s : Necklace) : Necklace :=
  mkNecklace (range 0 (num_beads s)) (num_beads s) (bead_types s)
    (num_thieves s) (max_move s) (num_cuts s) (cuts s) (assignments s)
    (score s).

Definition bead_at (s : Necklace) (i : Z) : Z :=
  default 0 (beads s !! Z.to_nat i).

(** The partitions as pairs of bounds, and the beads of those a thief
    owns. *)
Definition bounds (s : Necklace) : list (Z * Z) :=
  zip (0 :: cuts s) (cuts s ++ [num_beads s]).

Definition owned (beads : list Z) (thief : Z) (p : Z * (Z * Z)) : list Z :=
  if thief =? p.1 then slice beads p.2.1 p.2.2 else [].


(** ** [__eq__] and [__ne__], the same text in both files *)

(** The two classes called [Necklace]. *)
Inductive necklace_class := NecklacePy | NpNecklacePy.

Definition class_eqb (c d : necklace_class) : bool :=
  match c, d with
  | NecklacePy, NecklacePy | NpNecklacePy, NpNecklacePy => true
  | _, _ => false
  end.

(** [self.cuts] is a list in [necklace.py], an array in [npnecklace.py]. *)
Definition cuts_kind_of (c : necklace_class) : seq_kind :=
  match c with
  | NecklacePy => KList
  | NpNecklacePy => KNdArray
  end.

(** What [__eq__] may be handed: an instance of one of the two classes,
    or an object of any other type. *)
Inductive pyobj :=
| Instance (cls : necklace_class) (s : Necklace)
| OtherObject.

Definition KeyError : exn := PyExn "KeyError".

(** [d[k]] on an attribute dictionary. *)
Fixpoint dict_get (d : list (string * pyval)) (k : string) : result pyval :=
  match d with
  | [] => Raise KeyError
  | (k', v) :: r => if String.eqb k k' then Ok v else dict_get r k
  end.

(** [np.array_equal(v, w)]: both operands are turned into arrays, so the
    container they came in is forgotten; the shapes must agree (a number
    has no axis, a sequence has one) and so must every pair of entries.
    Entries are compared as the integers they are: the fixed width of
    NumPy's integer types is not modelled. *)
Definition array_equal (v w : pyval) : bool :=
  match v, w with
  | VInt x, VInt y => x =? y
  | VInt x, VFloat q => Qeq_bool (inject_Z x) q
  | VFloat p, VInt y => Qeq_bool p (inject_Z y)
  | VFloat p, VFloat q => Qeq_bool p q
  | VSeq s, VSeq t =>
      (length (elems s) =? length (elems t))%nat
      && forallb (fun xy => fst xy =? snd xy) (zip (elems s) (elems t))
  | _, _ => false
  end.

(** The answers of a rich comparison. *)
Inductive eq_answer :=
| PyBool (b : bool)
| NotImplemented.

(** [for k in self.__dict__: if not np.array_equal(...): return False] *)
Fixpoint eq_loop (items other : list (string * pyval)) : result bool :=
  match items with
  | [] => Ok true
  | (k, v) :: r =>
      w ← dict_get other k;
      if negb (array_equal v w) then Ok false else eq_loop r other
  end.

Definition necklace_eq (cls : necklace_class) (self : Necklace) (other : pyobj)
  : result eq_answer :=
  match other with
  | Instance cls' o =>
      if class_eqb cls' cls then
        b ← eq_loop (dict_items (cuts_kind_of cls) self)
              (dict_items (cuts_kind_of cls') o);
        Ok (PyBool b)
      else Ok NotImplemented
  | OtherObject => Ok NotImplemented
  end.



(** Two states agree on every attribute, the container of the assignments
    apart. *)
Definition same_attributes (s o : Necklace) : Prop :=
  beads s = beads o /\
  num_beads s = num_beads o /\
  bead_types s = bead_types o /\
  num_thieves s = num_thieves o /\
  max_move s = max_move o /\
  num_cuts s = num_cuts o /\
  cuts s = cuts o /\
  elems (assignments s) = elems (assignments o) /\
  (score s == score o)%Q.

(** ** [__str__] of [necklace.py] and [file_io.py] *)




Section Str.
(** How the cuts (whose entries may be NumPy integers), the array of
assignments and the score are printed depends on the NumPy at hand;
these renderings are left open.  They do not raise. *)
Variable str_cuts : list Z -> string.
Variable str_assignments : pyseq -> string.
Variable str_score : Q -> string.



End Str.

(** ** More vocabulary for the statements below *)

(** No two consecutive entries are equal. *)
Definition adjacent_differ (l : list Z) : Prop :=
  forall (i : nat) (x y : Z), l !! i = Some x -> l !! S i = Some y -> x <> y.

(** A thief's beads are a fair share: of every type, one
    [num_thieves]-th of the necklace's beads. *)
Definition fair_share (s : Necklace) (thief_beads : list Z) : Prop :=
  forall t, 0 <= t < bead_types s ->
    num_thieves s * occurrences t thief_beads = occurrences t (beads s).

(** The shape of the states the code builds itself: the assignments are
    an array, there are [num_cuts] cuts and one assignment more, and the
    counters are the ones [__init__] derives from the beads. *)
Definition shaped (s : Necklace) : Prop :=
  kind (assignments s) = KNdArray /\
  len (cuts s) = num_cuts s /\
  len (elems (assignments s)) = num_cuts s + 1 /\
  num_beads s = len (beads s) /\
  bead_types s = len (np_unique (beads s)) /\
  num_cuts s = (num_thieves s - 1) * bead_types s.



(** The states of [l] are reached one from the other by single moves:
    the first is a neighbour of [x], every other one a neighbour of the
    state before it. *)
Fixpoint trajectory {State : Type} `{LocalSearch.LocalSearcheable State}
    (x : State) (l : list State) : Prop :=
  match l with
  | [] => True
  | y :: r =>
      (exists ns, LocalSearch.get_neighbors x = Ok ns /\ y ∈ ns) /\
      trajectory y r
  end.

(** * Proofs *)

(** ** The result monad and the primitives *)

Lemma bind_of_Ok {A B} (a : A) (f : A -> result B) : Ok a ≫= f = f a.
Proof. reflexivity. Qed.

Lemma bind_of_Raise {A B} (e : exn) (f : A -> result B) :
  Raise e ≫= f = Raise e.
Proof. reflexivity. Qed.

Lemma bind_Ok {A B} (m : result A) (f : A -> result B) (b : B) :
  m ≫= f = Ok b -> exists a, m = Ok a /\ f a = Ok b.
Proof. destruct m as [a|e]; simpl; [eauto | discriminate]. Qed.

Lemma bind_Raise {A B} (m : result A) (f : A -> result B) (e : exn) :
  m ≫= f = Raise e -> m = Raise e \/ exists a, m = Ok a /\ f a = Raise e.
Proof. destruct m as [a|e']; simpl; [eauto | intros [= ->]; auto]. Qed.

Lemma fmap_Ok {A B} (m : result A) (f : A -> B) (b : B) :
  f <$> m = Ok b -> exists a, m = Ok a /\ b = f a.
Proof. destruct m as [a|e]; simpl; [intros [= <-]; eauto | discriminate]. Qed.

(** Inverts every hypothesis that says a monadic computation succeeded. *)
Ltac inv_ok :=
  repeat match goal with
  | H : Ok _ = Ok _ |- _ => injection H as H; subst
  | H : Raise _ = Ok _ |- _ => discriminate H
  | H : mret _ = Ok _ |- _ => injection H as H; subst
  | H : (_ ≫= _) = Ok _ |- _ =>
      let a := fresh "a" in
      let Ha := fresh "Ha" in
      apply bind_Ok in H; destruct H as (a & Ha & H)
  | H : (_ <$> _) = Ok _ |- _ =>
      let a := fresh "a" in
      let Ha := fresh "Ha" in
      apply fmap_Ok in H; destruct H as (a & Ha & H)
  | H : (let '(_, _) := ?p in _) = Ok _ |- _ => destruct p
  | H : (_, _) = (_, _) |- _ => injection H as ? ?; subst
  end.


Lemma mapM_Ok_Forall2 {A B} (f : A -> result B) (l : list A) (r : list B) :
  mapM f l = Ok r -> Forall2 (fun x y => f x = Ok y) l r.
Proof.
  revert r; induction l as [|x l IH]; intros r Hm; simpl in Hm.
  - injection Hm as <-. constructor.
  - inv_ok. constructor; eauto.
Qed.

Lemma Forall2_mapM_Ok {A B} (f : A -> result B) (l : list A) (r : list B) :
  Forall2 (fun x y => f x = Ok y) l r -> mapM f l = Ok r.
Proof.
  induction 1 as [|x y l r Hxy _ IH]; simpl; [reflexivity|].
  rewrite Hxy. simpl. rewrite IH. reflexivity.
Qed.

Lemma mapM_ext {A B} (f g : A -> result B) (l : list A) :
  (forall x, f x = g x) -> mapM f l = mapM g l.
Proof.
  intros Hfg. induction l as [|x l IH]; simpl; [done|].
  by rewrite Hfg, IH.
Qed.


Lemma length_range a b : length (range a b) = Z.to_nat (b - a).
Proof. unfold range. rewrite length_map, length_seq. reflexivity. Qed.

Lemma elem_of_range x a b : x ∈ range a b <-> a <= x < b.
Proof.
  unfold range. rewrite list_elem_of_fmap. split.
  - intros (k & -> & Hk). apply elem_of_seq in Hk. lia.
  - intros Hx. exists (Z.to_nat (x - a)). split; [lia|].
    apply elem_of_seq. lia.
Qed.

Lemma range_lookup a b (k : nat) :
  (k < Z.to_nat (b - a))%nat -> range a b !! k = Some (a + Z.of_nat k).
Proof.
  intros Hk. unfold range. rewrite list_lookup_fmap, lookup_seq_lt by lia.
  reflexivity.
Qed.

Lemma range_empty a b : b <= a -> range a b = [].
Proof.
  intros Hab. unfold range. replace (Z.to_nat (b - a)) with O by lia.
  reflexivity.
Qed.

Lemma range_cons a b : a < b -> range a b = a :: range (a + 1) b.
Proof.
  intros Hab. unfold range.
  replace (Z.to_nat (b - a)) with (S (Z.to_nat (b - (a + 1)))) by lia.
  simpl. f_equal; [lia|].
  rewrite <- seq_shift, map_map. apply map_ext. intros k. lia.
Qed.

Lemma range_snoc a b : a <= b -> range a (b + 1) = range a b ++ [b].
Proof.
  intros Hab. unfold range.
  replace (Z.to_nat (b + 1 - a)) with (Z.to_nat (b - a) + 1)%nat by lia.
  rewrite seq_app, map_app. simpl. do 2 f_equal. lia.
Qed.

Lemma NoDup_range a b : NoDup (range a b).
Proof.
  unfold range. apply NoDup_fmap_2; [|apply NoDup_seq].
  intros x y Hxy. lia.
Qed.

Lemma contains_true x l : contains x l = true <-> x ∈ l.
Proof.
  unfold contains. rewrite existsb_exists. split.
  - intros (y & Hy & Heq). apply Z.eqb_eq in Heq. subst.
    by apply list_elem_of_In.
  - intros Hx. exists x. split; [by apply list_elem_of_In | apply Z.eqb_refl].
Qed.

Lemma contains_false x l : contains x l = false <-> x ∉ l.
Proof.
  rewrite <- contains_true. destruct (contains x l); split; congruence.
Qed.

Lemma getitem_Ok {A} (l : list A) (i : Z) (x : A) :
  0 <= i -> getitem l i = Ok x <-> l !! Z.to_nat i = Some x.
Proof.
  intros Hi. unfold getitem, norm_index, len.
  destruct (Z.ltb_spec i 0); [lia|].
  destruct (Z.leb_spec 0 i); [|lia]. simpl.
  destruct (Z.ltb_spec i (Z.of_nat (length l))) as [Hlt|Hge].
  - destruct (l !! Z.to_nat i) eqn:E; split; congruence.
  - split; [discriminate|]. intros Hl. apply lookup_lt_Some in Hl. lia.
Qed.


Lemma setitem_Ok {A} (l : list A) (i : Z) (x : A) (l' : list A) :
  0 <= i -> setitem l i x = Ok l' ->
  i < len l /\ l' = <[Z.to_nat i := x]> l.
Proof.
  intros Hi. unfold setitem, norm_index.
  destruct (Z.ltb_spec i 0); [lia|].
  destruct (Z.leb_spec 0 i); [|lia]. simpl.
  destruct (Z.ltb_spec i (len l)); [|discriminate].
  intros [= <-]. auto.
Qed.


Lemma slice_nonneg {A} (l : list A) (a b : Z) :
  0 <= a -> 0 <= b ->
  slice l a b = take (Z.to_nat b - Z.to_nat a) (drop (Z.to_nat a) l).
Proof.
  intros Ha Hb. unfold slice, slice_bound, len.
  destruct (Z.ltb_spec a 0); [lia|]. destruct (Z.ltb_spec b 0); [lia|].
  destruct (Z.le_gt_cases a (Z.of_nat (length l))) as [Hal|Hal].
  - rewrite (Z.min_l a) by lia.
    destruct (Z.le_gt_cases b (Z.of_nat (length l))) as [Hbl|Hbl].
    + rewrite Z.min_l by lia. f_equal. lia.
    + rewrite Z.min_r by lia.
      rewrite !take_ge; [done | rewrite length_drop; lia..].
  - rewrite (Z.min_r a) by lia. rewrite !drop_ge by lia.
    by rewrite !take_nil.
Qed.

(** ** [sorted]: a permutation, ascending, stable *)

Section SortedFacts.
Context {A K : Type} (key : A -> K) (leb : K -> K -> bool).

Lemma insert_by_perm (x : A) (l : list A) : insert_by key leb x l ≡ₚ x :: l.
Proof.
  induction l as [|y l IH]; simpl; [done|].
  destruct (leb (key x) (key y)); [done|].
  rewrite IH. apply perm_swap.
Qed.

Lemma sorted_by_perm (l : list A) : sorted_by key leb l ≡ₚ l.
Proof.
  induction l as [|x l IH]; simpl; [done|].
  rewrite insert_by_perm. by constructor.
Qed.

Lemma sorted_by_length (l : list A) : length (sorted_by key leb l) = length l.
Proof. apply Permutation_length, sorted_by_perm. Qed.

(** Stability: the elements selected by a predicate whose members are
    pairwise [leb]-related (for instance, those of one given key) come
    out in the order they went in. *)
Lemma insert_by_filter (P : A -> Prop) `{forall x, Decision (P x)}
    (x : A) (l : list A) :
  (forall a b, P a -> P b -> leb (key a) (key b) = true) ->
  filter P (insert_by key leb x l) = filter P (x :: l).
Proof.
  intros Hcls. induction l as [|y l IH]; simpl; [done|].
  destruct (leb (key x) (key y)) eqn:Hxy; [done|].
  rewrite !filter_cons in *.
  destruct (decide (P y)) as [Py|Py], (decide (P x)) as [Px|Px];
    try (rewrite IH; done).
  rewrite (Hcls x y Px Py) in Hxy. discriminate.
Qed.

Lemma sorted_by_stable (P : A -> Prop) `{forall x, Decision (P x)}
    (l : list A) :
  (forall a b, P a -> P b -> leb (key a) (key b) = true) ->
  filter P (sorted_by key leb l) = filter P l.
Proof.
  intros Hcls. induction l as [|x l IH]; simpl; [done|].
  rewrite insert_by_filter by done. rewrite !filter_cons, IH. done.
Qed.

Hypothesis leb_total : forall a b, leb a b = true \/ leb b a = true.
Hypothesis leb_trans :
  forall a b c, leb a b = true -> leb b c = true -> leb a c = true.

Lemma insert_by_sorted (x : A) (l : list A) :
  StronglySorted (fun a b => leb (key a) (key b) = true) l ->
  StronglySorted (fun a b => leb (key a) (key b) = true)
    (insert_by key leb x l).
Proof.
  induction 1 as [|y l Hs IH Hy]; simpl.
  - repeat constructor.
  - destruct (leb (key x) (key y)) eqn:Hxy.
    + constructor; [by constructor|].
      constructor; [done|].
      eapply Forall_impl; [exact Hy|]. simpl. intros z Hz. eauto.
    + constructor; [done|].
      assert (Hyx : leb (key y) (key x) = true)
        by (destruct (leb_total (key x) (key y)); congruence).
      rewrite (insert_by_perm x l). by constructor.
Qed.

Lemma sorted_by_sorted (l : list A) :
  StronglySorted (fun a b => leb (key a) (key b) = true) (sorted_by key leb l).
Proof.
  induction l as [|x l IH]; simpl; [constructor|].
  by apply insert_by_sorted.
Qed.
End SortedFacts.

Lemma Qle_bool_total (a b : Q) : Qle_bool a b = true \/ Qle_bool b a = true.
Proof.
  rewrite !Qle_bool_iff. destruct (Qlt_le_dec a b) as [Hlt|Hle]; [|auto].
  left. by apply Qlt_le_weak.
Qed.

Lemma Qle_bool_trans (a b c : Q) :
  Qle_bool a b = true -> Qle_bool b c = true -> Qle_bool a c = true.
Proof. rewrite !Qle_bool_iff. apply Qle_trans. Qed.

Lemma Qlt_bool_iff (a b : Q) : Qlt_bool a b = true <-> (a < b)%Q.
Proof.
  unfold Qlt_bool. rewrite negb_true_iff. split.
  - intros Hn. apply Qnot_le_lt. intros Hle.
    apply Qle_bool_iff in Hle. congruence.
  - intros Hlt. destruct (Qle_bool b a) eqn:E; [|done].
    apply Qle_bool_iff in E. exfalso. eapply Qlt_not_le; eauto.
Qed.

Lemma Qlt_bool_false (a b : Q) : Qlt_bool a b = false <-> (b <= a)%Q.
Proof.
  unfold Qlt_bool. rewrite negb_false_iff. apply Qle_bool_iff.
Qed.

Lemma StronglySorted_weaken {A} (R S : A -> A -> Prop) (l : list A) :
  (forall a b, R a b -> S a b) -> StronglySorted R l -> StronglySorted S l.
Proof.
  intros HRS. induction 1 as [|x l _ IH Hx]; constructor; [done|].
  eapply Forall_impl; [exact Hx | auto].
Qed.

Lemma sorted_Z_sorted (l : list Z) : StronglySorted Z.le (sorted l).
Proof.
  unfold sorted.
  eapply StronglySorted_weaken;
    [|apply (sorted_by_sorted (fun x : Z => x) Z.leb)].
  - intros a b. apply Z.leb_le.
  - intros a b. destruct (Z.leb_spec a b), (Z.leb_spec b a); auto; lia.
  - intros a b c. rewrite !Z.leb_le. lia.
Qed.

Lemma sorted_Z_perm (l : list Z) : sorted l ≡ₚ l.
Proof. apply sorted_by_perm. Qed.

(** ** [__hash__] *)

Lemma sorted_dict_items (cuts_kind : seq_kind) (s : Necklace) :
  sorted_by fst String.leb (dict_items cuts_kind s) =
  [ ("assignments"%string, VSeq (assignments s));
    ("bead_types"%string, VInt (bead_types s));
    ("beads"%string, VSeq (mkSeq KList (beads s)));
    ("cuts"%string, VSeq (mkSeq cuts_kind (cuts s)));
    ("max_move"%string, VInt (max_move s));
    ("num_beads"%string, VInt (num_beads s));
    ("num_cuts"%string, VInt (num_cuts s));
    ("num_thieves"%string, VInt (num_thieves s));
    ("score"%string, VFloat (score s)) ].
Proof. vm_compute. reflexivity. Qed.

(** C10.  In both files, hashing a [Necklace] raises [TypeError], whatever
    its attributes hold: the hashed tuple of attribute items always
    contains the list [beads] (and, before it, [assignments], which is an
    array in every state the code builds). *)
Theorem necklace_hash_raises_TypeError
    (hash_int : Z -> Z) (hash_float : Q -> Z) (hash_str : string -> Z)
    (hash_tuple : list Z -> Z) (cuts_kind : seq_kind) (s : Necklace) :
  necklace_hash hash_int hash_float hash_str hash_tuple cuts_kind s
  = Raise TypeError.
Proof.
  unfold necklace_hash. rewrite sorted_dict_items.
  unfold hash_item. simpl.
  destruct (kind (assignments s)); reflexivity.
Qed.

(** ** Sampling with given probabilities *)

Lemma random_sample_float_range (g : RNG) :
  (0 <= (random_sample_float g).1 < 1)%Q.
Proof.
  unfold random_sample_float, next_raw. simpl.
  set (r := draws g (cursor g)).
  assert (Hr : (r mod 2 ^ 53 < 2 ^ 53)%N) by (apply N.mod_lt; discriminate).
  revert Hr. generalize (r mod 2 ^ 53)%N. intros m Hm.
  unfold Qle, Qlt. simpl Qnum. simpl Qden.
  change (Z.pos (2 ^ 53)) with (Z.of_N (2 ^ 53)).
  revert Hm. generalize (2 ^ 53)%N. intros b Hm. lia.
Qed.

Lemma Qsum_app (p q : list Q) : (Qsum (p ++ q) == Qsum p + Qsum q)%Q.
Proof.
  induction p as [|x p IH]; simpl.
  - ring.
  - rewrite IH. ring.
Qed.

Lemma Qsum_nonneg (p : list Q) :
  Forall (fun x => 0 <= x)%Q p -> (0 <= Qsum p)%Q.
Proof.
  induction 1 as [|x p Hx _ IH]; simpl; [apply Qle_refl|].
  replace 0%Q with (0 + 0)%Q by reflexivity. by apply Qplus_le_compat.
Qed.

Lemma Qsum_take_mono (p : list Q) (i j : nat) :
  Forall (fun x => 0 <= x)%Q p -> (i <= j)%nat ->
  (Qsum (take i p) <= Qsum (take j p))%Q.
Proof.
  intros Hp Hij.
  replace j with (i + (j - i))%nat by lia.
  rewrite <- take_take_drop. rewrite Qsum_app.
  rewrite <- (Qplus_0_r (Qsum (take i p))) at 1.
  apply Qplus_le_compat; [apply Qle_refl|].
  apply Qsum_nonneg. apply Forall_take. by apply Forall_drop.
Qed.

Lemma Qsum_take_S (p : list Q) (r : nat) (x : Q) :
  p !! r = Some x -> (Qsum (take (S r) p) == Qsum (take r p) + x)%Q.
Proof.
  intros Hr. rewrite (take_S_r _ _ _ Hr), Qsum_app. simpl. ring.
Qed.

Lemma Qsum_map_div (p : list Q) (d : Q) :
  (Qsum (map (fun w => w / d) p) == Qsum p / d)%Q.
Proof.
  induction p as [|x p IH]; simpl.
  - unfold Qdiv. ring.
  - rewrite IH. unfold Qdiv. ring.
Qed.

Lemma last_cumsum_from (acc : Q) (p : list Q) (d : Q) :
  p <> [] -> (List.last (cumsum_from acc p) d == acc + Qsum p)%Q.
Proof.
  revert acc. induction p as [|x p IH]; intros acc Hp; [done|].
  destruct p as [|y p].
  - simpl. ring.
  - change (List.last (cumsum_from acc (x :: y :: p)) d)
      with (List.last (cumsum_from (acc + x) (y :: p)) d).
    rewrite IH by done. simpl. ring.
Qed.

Lemma Qdiv_one (x : Q) : (x / 1 == x)%Q.
Proof. unfold Qdiv. change (/ 1)%Q with 1%Q. apply Qmult_1_r. Qed.

(** Where the scan of the cumulated, rescaled distribution stops. *)
Lemma searchsorted_cumsum (d u : Q) (p : list Q) (acc : Q) :
  (acc / d <= u)%Q -> (u < (acc + Qsum p) / d)%Q ->
  let r := searchsorted_right (map (fun c => c / d)%Q (cumsum_from acc p)) u in
  (r < length p)%nat /\
  ((acc + Qsum (take r p)) / d <= u)%Q /\
  (u < (acc + Qsum (take (S r) p)) / d)%Q.
Proof.
  revert acc. induction p as [|x p IH]; intros acc Hlo Hhi; simpl in *.
  - exfalso. apply (Qlt_irrefl u). eapply Qlt_le_trans; [exact Hhi|].
    rewrite Qplus_0_r. done.
  - destruct (Qle_bool ((acc + x) / d) u) eqn:Hc.
    + apply Qle_bool_iff in Hc.
      rewrite Qplus_assoc in Hhi.
      destruct (IH (acc + x)%Q Hc Hhi) as (Hr & Hl & Hu).
      split; [lia|]. simpl. rewrite !Qplus_assoc. by split.
    + split; [lia|]. simpl. split.
      * rewrite Qplus_0_r. done.
      * rewrite Qplus_0_r.
        apply Qlt_bool_iff. unfold Qlt_bool. by rewrite Hc.
Qed.

(** The index [np.random.choice] picks for the uniform sample [u]: the
    rank whose slice of [[0, 1)] holds [u].  The slice of rank [r] starts
    at [p_0 + ... + p_(r-1)] and has length [p_r]. *)
Lemma choice_index_interval (p : list Q) (u : Q) :
  (Qsum p == 1)%Q -> (0 <= u < 1)%Q ->
  let r := choice_index p u in
  (r < length p)%nat /\
  (Qsum (take r p) <= u < Qsum (take (S r) p))%Q.
Proof.
  intros Hp [Hu0 Hu1].
  assert (Hne : p <> []).
  { intros ->. simpl in Hp. discriminate Hp. }
  unfold choice_index, cumsum.
  set (d := List.last (cumsum_from 0 p) 0%Q).
  assert (Hd : (d == 1)%Q).
  { unfold d. rewrite last_cumsum_from by done. rewrite Hp. reflexivity. }
  destruct (searchsorted_cumsum d u p 0%Q) as (Hr & Hl & Hh).
  - rewrite Hd, Qdiv_one. exact Hu0.
  - rewrite Hd, Hp, Qdiv_one. exact Hu1.
  - split; [exact Hr|].
    rewrite Hd in Hl, Hh.
    rewrite Qdiv_one, Qplus_0_l in Hl, Hh. by split.
Qed.

Lemma choice_index_unique (p : list Q) (u : Q) (r : nat) :
  (Qsum p == 1)%Q -> (0 <= u < 1)%Q ->
  Forall (fun x => 0 <= x)%Q p ->
  (Qsum (take r p) <= u < Qsum (take (S r) p))%Q ->
  choice_index p u = r.
Proof.
  intros Hp Hu Hpos [Hl Hh].
  destruct (choice_index_interval p u Hp Hu) as (_ & Hl' & Hh').
  set (r' := choice_index p u) in *.
  destruct (Nat.lt_trichotomy r r') as [Hlt|[Heq|Hgt]]; [|done|]; exfalso.
  - apply (Qlt_irrefl u). eapply Qlt_le_trans; [exact Hh|].
    eapply Qle_trans; [|exact Hl']. apply Qsum_take_mono; [done|lia].
  - apply (Qlt_irrefl u). eapply Qlt_le_trans; [exact Hh'|].
    eapply Qle_trans; [|exact Hl]. apply Qsum_take_mono; [done|lia].
Qed.

(** ** The weights [(1/r)^2 / sum] *)

Lemma raw_weights_length (n : Z) :
  length (LocalSearch.raw_weights n) = Z.to_nat n.
Proof.
  unfold LocalSearch.raw_weights. rewrite length_map, length_range. lia.
Qed.

Lemma raw_weights_lookup (n : Z) (r : nat) :
  (r < Z.to_nat n)%nat ->
  LocalSearch.raw_weights n !! r
  = Some ((1 / inject_Z (Z.of_nat r + 1)) ^ 2)%Q.
Proof.
  intros Hr. unfold LocalSearch.raw_weights.
  rewrite list_lookup_fmap, range_lookup by lia.
  replace (1 + Z.of_nat r) with (Z.of_nat r + 1) by lia. reflexivity.
Qed.

Lemma raw_weight_pos (i : Z) : 1 <= i -> (0 < (1 / inject_Z i) ^ 2)%Q.
Proof.
  intros Hi. assert (H0 : (0 < 1 / inject_Z i)%Q).
  { apply Qlt_shift_div_l.
    - replace 0%Q with (inject_Z 0) by reflexivity. rewrite <- Zlt_Qlt. lia.
    - rewrite Qmult_0_l. reflexivity. }
  simpl. apply Qmult_lt_0_compat; done.
Qed.

Lemma raw_weights_pos (n : Z) :
  Forall (fun x => 0 < x)%Q (LocalSearch.raw_weights n).
Proof.
  unfold LocalSearch.raw_weights. apply Forall_forall. intros x Hx.
  apply list_elem_of_fmap in Hx as (i & -> & Hi).
  apply elem_of_range in Hi. apply raw_weight_pos. lia.
Qed.

Lemma Qsum_pos (p : list Q) :
  p <> [] -> Forall (fun x => 0 < x)%Q p -> (0 < Qsum p)%Q.
Proof.
  intros Hne Hp. destruct Hp as [|x p Hx Hp]; [done|]. simpl.
  apply Qlt_le_trans with (x + 0)%Q.
  - rewrite Qplus_0_r. done.
  - apply Qplus_le_compat; [apply Qle_refl|].
    apply Qsum_nonneg. eapply Forall_impl; [exact Hp|].
    intros y. apply Qlt_le_weak.
Qed.

Lemma raw_weights_sum_pos (n : Z) :
  1 <= n -> (0 < Qsum (LocalSearch.raw_weights n))%Q.
Proof.
  intros Hn. apply Qsum_pos; [|apply raw_weights_pos].
  intros Hnil. apply (f_equal length) in Hnil.
  rewrite raw_weights_length in Hnil. simpl in Hnil. lia.
Qed.

Lemma choice_weights_length (n : Z) :
  length (LocalSearch.choice_weights n) = Z.to_nat n.
Proof.
  unfold LocalSearch.choice_weights. rewrite length_map.
  apply raw_weights_length.
Qed.

Lemma choice_weights_lookup (n : Z) (r : nat) :
  (r < Z.to_nat n)%nat ->
  LocalSearch.choice_weights n !! r
  = Some ((1 / inject_Z (Z.of_nat r + 1)) ^ 2
          / Qsum (LocalSearch.raw_weights n))%Q.
Proof.
  intros Hr. unfold LocalSearch.choice_weights.
  rewrite list_lookup_fmap, raw_weights_lookup by done. reflexivity.
Qed.

Lemma choice_weights_sum (n : Z) :
  1 <= n -> (Qsum (LocalSearch.choice_weights n) == 1)%Q.
Proof.
  intros Hn. unfold LocalSearch.choice_weights. rewrite Qsum_map_div.
  field. intros H0. pose proof (raw_weights_sum_pos n Hn) as Hpos.
  rewrite H0 in Hpos. by apply Qlt_irrefl in Hpos.
Qed.

Lemma choice_weights_pos (n : Z) :
  1 <= n -> Forall (fun x => 0 < x)%Q (LocalSearch.choice_weights n).
Proof.
  intros Hn. unfold LocalSearch.choice_weights. apply Forall_fmap.
  eapply Forall_impl; [apply raw_weights_pos|]. simpl. intros x Hx.
  apply Qlt_shift_div_l; [by apply raw_weights_sum_pos|].
  rewrite Qmult_0_l. done.
Qed.

(** [np.random.choice] accepts the engine's weights and returns the
    element at the index of the uniform sample. *)
Lemma np_random_choice_weights {A} (a : list A) (np_g : RNG) :
  a <> [] ->
  exists x,
    a !! choice_index (LocalSearch.choice_weights (len a))
           (random_sample_float np_g).1 = Some x /\
    np_random_choice a (LocalSearch.choice_weights (len a)) np_g
    = Ok (x, (random_sample_float np_g).2).
Proof.
  intros Hne.
  assert (Hlen : 1 <= len a).
  { unfold len. destruct a; [done|]. simpl. lia. }
  set (p := LocalSearch.choice_weights (len a)).
  pose proof (choice_weights_sum _ Hlen) as Hsum.
  pose proof (choice_weights_pos _ Hlen) as Hpos.
  pose proof (choice_weights_length (len a)) as Hpl.
  fold p in Hsum, Hpos, Hpl.
  pose proof (random_sample_float_range np_g) as Hu.
  destruct (choice_index_interval p _ Hsum Hu) as (Hr & _).
  destruct (lookup_lt_is_Some_2 a (choice_index p (random_sample_float np_g).1))
    as [x Hx].
  { rewrite Hpl in Hr. unfold len in Hr. lia. }
  exists x. split; [exact Hx|].
  unfold np_random_choice. destruct a as [|a0 a']; [done|].
  fold p.
  assert (Hl : (length p =? length (a0 :: a'))%nat = true).
  { apply Nat.eqb_eq. rewrite Hpl. unfold len. lia. }
  rewrite Hl. simpl negb.
  assert (Hneg : existsb (fun x => Qlt_bool x 0) p = false).
  { apply not_true_is_false. intros Hex.
    apply existsb_exists in Hex as (y & Hy & Hlt).
    apply Qlt_bool_iff in Hlt.
    apply list_elem_of_In in Hy.
    rewrite Forall_forall in Hpos. specialize (Hpos y Hy).
    apply (Qlt_irrefl 0). by eapply Qlt_trans. }
  rewrite Hneg.
  assert (Hone : Qeq_bool (Qsum p) 1 = true) by by apply Qeq_bool_iff.
  rewrite Hone. simpl negb. cbv iota.
  destruct (random_sample_float np_g) as [u g'] eqn:E. simpl in *.
  rewrite Hx. reflexivity.
Qed.

(** ** The search engine *)

Section EngineFacts.
Import LocalSearch.
Context {State : Type} `{LocalSearcheable State}.
Variable clock : nat -> Q.

Lemma ranked_neighbors_Ok (obj : State) (ns : list State) :
  get_neighbors obj = Ok ns ->
  ranked_neighbors obj = Ok (sorted_by score_of Qle_bool ns).
Proof. intros Hn. unfold ranked_neighbors. rewrite Hn. reflexivity. Qed.

(** On an empty neighbour list the sampling call refuses its first
    argument. *)
Lemma iteration_empty (obj : State) (np_g : RNG) :
  get_neighbors obj = Ok [] -> iteration obj np_g = Raise ValueError.
Proof.
  intros Hn. unfold iteration. rewrite (ranked_neighbors_Ok _ _ Hn).
  reflexivity.
Qed.

Lemma iteration_nonempty (obj : State) (ns : list State) (np_g : RNG) :
  get_neighbors obj = Ok ns -> ns <> [] ->
  exists x,
    sorted_by score_of Qle_bool ns
      !! choice_index (choice_weights (len ns)) (random_sample_float np_g).1
    = Some x /\
    iteration obj np_g = Ok (x, (random_sample_float np_g).2).
Proof.
  intros Hn Hne. unfold iteration. rewrite (ranked_neighbors_Ok _ _ Hn).
  unfold mbind, result_bind. cbv beta iota.
  assert (Hne' : sorted_by score_of Qle_bool ns <> []).
  { intros Hnil. apply (f_equal length) in Hnil.
    rewrite sorted_by_length in Hnil. by destruct ns. }
  destruct (np_random_choice_weights _ np_g Hne') as (x & Hx & Hc).
  assert (Hlen : len (sorted_by score_of Qle_bool ns) = len ns).
  { unfold len. by rewrite sorted_by_length. }
  rewrite Hlen in *. eauto.
Qed.

Lemma iteration_Raise (obj : State) (np_g : RNG) (e : exn) :
  iteration obj np_g = Raise e ->
  get_neighbors obj = Raise e \/
  (get_neighbors obj = Ok [] /\ e = ValueError).
Proof.
  intros Hit. destruct (get_neighbors obj) as [ns|e'] eqn:Hn.
  - right. destruct ns as [|n ns].
    + rewrite (iteration_empty _ _ Hn) in Hit. by injection Hit as <-.
    + destruct (iteration_nonempty obj (n :: ns) np_g Hn) as (x & _ & Hx);
        [done|]. congruence.
  - left. unfold iteration, ranked_neighbors in Hit. rewrite Hn in Hit.
    simpl in Hit. congruence.
Qed.

(** One turn of the loop: the sampled neighbour becomes the current
    state whatever its score; only [best_solution] is guarded. *)
Lemma search_loop_step (fuel : nat) (t_end : Q) (tick : nat) (np_g np_g' : RNG)
    (obj obj' best_solution : State) (best_score : Q) (visited : list State) :
  Qlt_bool (clock tick) t_end = true ->
  iteration obj np_g = Ok (obj', np_g') ->
  search_loop clock (S fuel) t_end tick np_g obj best_solution best_score
    visited
  = search_loop clock fuel t_end (S tick) np_g' obj'
      (if Qlt_bool (score_of obj') best_score then obj' else best_solution)
      (if Qlt_bool (score_of obj') best_score then score_of obj'
       else best_score)
      (visited ++ [obj']).
Proof.
  intros Ht Hit. simpl. rewrite Ht, Hit.
  destruct (Qlt_bool (score_of obj') best_score); reflexivity.
Qed.

Lemma search_loop_deadline (fuel : nat) (t_end : Q) (tick : nat) (np_g : RNG)
    (obj best_solution : State) (best_score : Q) (visited : list State) :
  Qlt_bool (clock tick) t_end = false ->
  search_loop clock fuel t_end tick np_g obj best_solution best_score visited
  = Returned (best_solution, visited).
Proof. intros Ht. destruct fuel; simpl; rewrite Ht; reflexivity. Qed.

Lemma best_so_far_step (init : State) (visited : list State)
    (best_solution obj' : State) (best_score : Q) :
  best_so_far init visited best_solution best_score ->
  best_so_far init (visited ++ [obj'])
    (if Qlt_bool (score_of obj') best_score then obj' else best_solution)
    (if Qlt_bool (score_of obj') best_score then score_of obj'
     else best_score).
Proof.
  intros (Hbs & Hin & Hmin). subst best_score.
  destruct (Qlt_bool (score_of obj') (score_of best_solution)) eqn:Hlt.
  - apply Qlt_bool_iff in Hlt. split; [done|]. split.
    + rewrite app_comm_cons. apply elem_of_app. right. by left.
    + intros s Hs. rewrite app_comm_cons in Hs.
      apply elem_of_app in Hs as [Hs|Hs].
      * apply Qlt_le_weak. eapply Qlt_le_trans; [exact Hlt|]. by apply Hmin.
      * apply list_elem_of_singleton in Hs as ->. apply Qle_refl.
  - apply Qlt_bool_false in Hlt. split; [done|]. split.
    + rewrite app_comm_cons. apply elem_of_app. by left.
    + intros s Hs. rewrite app_comm_cons in Hs.
      apply elem_of_app in Hs as [Hs|Hs]; [by apply Hmin|].
      by apply list_elem_of_singleton in Hs as ->.
Qed.

Lemma search_loop_spec (init : State) (t_end : Q) (fuel : nat) :
  forall (tick : nat) (np_g : RNG) (obj best_solution : State)
         (best_score : Q) (visited : list State),
  best_so_far init visited best_solution best_score ->
  match search_loop clock fuel t_end tick np_g obj best_solution best_score
          visited with
  | Returned (best, visited') =>
      best ∈ init :: visited' /\
      (forall s, s ∈ init :: visited' -> (score_of best <= score_of s)%Q) /\
      (exists new, visited' = visited ++ new /\
         (length new <= fuel)%nat /\
         (t_end <= clock (tick + length new)%nat)%Q /\
         forall j, (j < length new)%nat -> (clock (tick + j)%nat < t_end)%Q)
  | Raised e =>
      exists cur, get_neighbors cur = Raise e \/
                  (get_neighbors cur = Ok [] /\ e = ValueError)
  | OutOfFuel =>
      forall j, (j <= fuel)%nat -> (clock (tick + j)%nat < t_end)%Q
  end.
Proof.
  induction fuel as [|fuel IH]; intros tick np_g obj best bs visited Hinv.
  - simpl. destruct (Qlt_bool (clock tick) t_end) eqn:Ht.
    + intros j Hj. replace j with O by lia. rewrite Nat.add_0_r.
      by apply Qlt_bool_iff.
    + destruct Hinv as (_ & Hin & Hmin). split; [done|]. split; [done|].
      exists []. rewrite app_nil_r. simpl. rewrite Nat.add_0_r.
      split; [done|]. split; [lia|]. split; [by apply Qlt_bool_false|].
      intros j Hj. lia.
  - destruct (Qlt_bool (clock tick) t_end) eqn:Ht.
    + destruct (iteration obj np_g) as [[obj' np_g']|e] eqn:Hit.
      * rewrite (search_loop_step _ _ _ _ _ _ _ _ _ _ Ht Hit).
        specialize (IH (S tick) np_g' obj' _ _ _
                      (best_so_far_step init visited best obj' bs Hinv)).
        destruct (search_loop clock fuel t_end (S tick) np_g' obj' _ _ _)
          as [[b v]|e|]; [|exact IH|].
        -- destruct IH as (Hb & Hm & new & -> & Hlen & Hdl & Hbefore).
           split; [done|]. split; [done|].
           exists (obj' :: new). rewrite <- app_assoc. simpl.
           split; [done|]. split; [lia|]. split.
           ++ by rewrite <- Nat.add_succ_comm.
           ++ intros [|j] Hj.
              ** rewrite Nat.add_0_r. by apply Qlt_bool_iff.
              ** rewrite <- Nat.add_succ_comm. apply Hbefore. lia.
        -- intros [|j] Hj.
           ++ rewrite Nat.add_0_r. by apply Qlt_bool_iff.
           ++ rewrite <- Nat.add_succ_comm. apply IH. lia.
      * simpl. rewrite Ht, Hit. exists obj. by apply iteration_Raise in Hit.
    + rewrite search_loop_deadline by done.
      destruct Hinv as (_ & Hin & Hmin). split; [done|]. split; [done|].
      exists []. rewrite app_nil_r. simpl. rewrite Nat.add_0_r.
      split; [done|]. split; [lia|]. split; [by apply Qlt_bool_false|].
      intros j Hj. lia.
Qed.



(** C4, as the code has it.  When the current state has no neighbour at
    the top of an iteration, the search neither hangs nor carries on: it
    ends at once with the [ValueError] of the sampling call, which no
    handler intercepts. *)
Theorem empty_neighbors_raise_ValueError
    (fuel : nat) (t_end : Q) (tick : nat) (np_g : RNG)
    (obj best_solution : State) (best_score : Q) (visited : list State) :
  get_neighbors obj = Ok [] ->
  Qlt_bool (clock tick) t_end = true ->
  search_loop clock (S fuel) t_end tick np_g obj best_solution best_score
    visited = Raised ValueError.
Proof.
  intros Hn Ht. simpl. rewrite Ht, (iteration_empty _ _ Hn). reflexivity.
Qed.

(** C7.  One iteration on a state with [k > 0] neighbours: the list is
    sorted by ascending score, stably (the neighbours of any one score
    keep their generation order); the weight of rank [r] is
    [(1/r)^2 / sum_j (1/j)^2]; the uniform sample in [[0, 1)] selects
    rank [r] exactly when it falls in a half-open interval of that
    length, the intervals being laid end to end from [0]; and the
    neighbour selected becomes the current state without any comparison
    with the score of the state it replaces. *)
Theorem iteration_samples_by_rank
    (obj : State) (ns : list State) (np_g : RNG) :
  get_neighbors obj = Ok ns -> ns <> [] ->
  let ranked := sorted_by score_of Qle_bool ns in
  let p := choice_weights (len ns) in
  (ranked_neighbors obj = Ok ranked /\
   ranked ≡ₚ ns /\
   StronglySorted (fun a b => (score_of a <= score_of b)%Q) ranked /\
   forall q : Q, filter (fun x => (score_of x == q)%Q) ranked
                 = filter (fun x => (score_of x == q)%Q) ns) /\
  (length p = length ns /\
   forall r : nat, (r < length ns)%nat ->
     p !! r = Some ((1 / inject_Z (Z.of_nat r + 1)) ^ 2
                    / Qsum (map (fun j => (1 / inject_Z j) ^ 2)
                              (range 1 (len ns + 1))))%Q) /\
  (forall (u : Q) (r : nat) (w : Q),
     (0 <= u < 1)%Q -> p !! r = Some w ->
     (choice_index p u = r <->
      (Qsum (take r p) <= u < Qsum (take r p) + w)%Q)) /\
  (0 <= (random_sample_float np_g).1 < 1)%Q /\
  exists x : State,
    ranked !! choice_index p (random_sample_float np_g).1 = Some x /\
    iteration obj np_g = Ok (x, (random_sample_float np_g).2) /\
    forall fuel t_end tick best_solution best_score visited,
      Qlt_bool (clock tick) t_end = true ->
      search_loop clock (S fuel) t_end tick np_g obj best_solution
        best_score visited
      = search_loop clock fuel t_end (S tick) (random_sample_float np_g).2 x
          (if Qlt_bool (score_of x) best_score then x else best_solution)
          (if Qlt_bool (score_of x) best_score then score_of x
           else best_score)
          (visited ++ [x]).
Proof.
  intros Hn Hne ranked p.
  assert (Hlen : 1 <= len ns).
  { unfold len. destruct ns; [done|]. simpl. lia. }
  pose proof (choice_weights_sum _ Hlen) as Hsum.
  pose proof (choice_weights_pos _ Hlen) as Hpos.
  assert (Hnn : Forall (fun x => 0 <= x)%Q p).
  { eapply Forall_impl; [exact Hpos|]. intros y. apply Qlt_le_weak. }
  split; [|split; [|split; [|split]]].
  - split; [by apply ranked_neighbors_Ok|].
    split; [apply sorted_by_perm|]. split.
    + eapply StronglySorted_weaken;
        [|apply (sorted_by_sorted score_of Qle_bool)].
      * intros a b. apply Qle_bool_iff.
      * apply Qle_bool_total.
      * apply Qle_bool_trans.
    + intros q. apply sorted_by_stable. intros a b Ha Hb.
      apply Qle_bool_iff. rewrite Ha, Hb. apply Qle_refl.
  - split.
    + unfold p. rewrite choice_weights_length. unfold len. lia.
    + intros r Hr. unfold p. apply choice_weights_lookup.
      unfold len. lia.
  - intros u r w Hu Hw. fold p in Hsum.
    rewrite <- (Qsum_take_S p r w Hw). split.
    + intros <-. by apply choice_index_interval.
    + intros Hin. by apply choice_index_unique.
  - apply random_sample_float_range.
  - destruct (iteration_nonempty obj ns np_g Hn Hne) as (x & Hx & Hit).
    exists x. split; [exact Hx|]. split; [exact Hit|].
    intros. by apply search_loop_step.
Qed.
End EngineFacts.

(** ** [np.unique] *)

Lemma occurrences_nil t : occurrences t [] = 0.
Proof. reflexivity. Qed.

Lemma occurrences_cons t x l :
  occurrences t (x :: l) = (if x =? t then 1 else 0) + occurrences t l.
Proof.
  unfold occurrences, len. rewrite filter_cons.
  destruct (Z.eqb_spec x t); destruct (decide (x = t)); try done; simpl; lia.
Qed.

Lemma occurrences_app t l k :
  occurrences t (l ++ k) = occurrences t l + occurrences t k.
Proof.
  unfold occurrences, len. rewrite filter_app, length_app. lia.
Qed.

Lemma occurrences_nonneg t l : 0 <= occurrences t l.
Proof. unfold occurrences, len. lia. Qed.

Lemma occurrences_pos t l : 0 < occurrences t l <-> t ∈ l.
Proof.
  induction l as [|x l IH].
  - rewrite occurrences_nil. split; [lia|]. by intros ?%elem_of_nil.
  - rewrite occurrences_cons, elem_of_cons. pose proof (occurrences_nonneg t l).
    destruct (Z.eqb_spec x t); split; auto; try lia.
    + intros Hp. right. apply IH. lia.
    + intros [->|Hin]; [done|]. apply IH in Hin. lia.
Qed.

Lemma table_count_tally x u v :
  table_count (tally x u) v = (if x =? v then 1 else 0) + table_count u v.
Proof.
  induction u as [|[y c] r IH]; simpl; [lia|].
  destruct (Z.ltb_spec x y); simpl; [lia|].
  destruct (Z.eqb_spec x y); simpl.
  - subst. destruct (Z.eqb_spec y v); lia.
  - rewrite IH. lia.
Qed.

Lemma table_count_unique_table l v :
  table_count (unique_table l) v = occurrences v l.
Proof.
  induction l as [|x l IH]; simpl; [done|].
  rewrite table_count_tally, occurrences_cons, IH. done.
Qed.

Lemma tally_keys x u y : y ∈ (tally x u).*1 -> y = x \/ y ∈ u.*1.
Proof.
  induction u as [|[z c] r IH]; simpl.
  - intros ->%list_elem_of_singleton. auto.
  - destruct (Z.ltb_spec x z); simpl.
    + intros [->|Hy]%elem_of_cons; auto.
    + destruct (Z.eqb_spec x z); simpl.
      * intros [->|Hy]%elem_of_cons; right; [left|by right].
      * intros [->|Hy]%elem_of_cons; [right; left|].
        destruct (IH Hy); [auto|right; by right].
Qed.

Lemma tally_sorted x u :
  StronglySorted Z.lt u.*1 -> StronglySorted Z.lt (tally x u).*1.
Proof.
  induction u as [|[z c] r IH]; simpl; intros Hs.
  - repeat constructor.
  - apply StronglySorted_inv in Hs as [Hr Hz].
    destruct (Z.ltb_spec x z); simpl.
    + constructor; [by constructor|].
      constructor; [done|]. eapply Forall_impl; [exact Hz|]. simpl. lia.
    + destruct (Z.eqb_spec x z); simpl; [by constructor|].
      constructor; [auto|].
      apply Forall_forall. intros y Hy%tally_keys.
      destruct Hy as [->|Hy]; [lia|].
      rewrite Forall_forall in Hz. by apply Hz.
Qed.

Lemma tally_positive x u :
  Forall (fun c => 0 < c) u.*2 -> Forall (fun c => 0 < c) (tally x u).*2.
Proof.
  induction u as [|[z c] r IH]; simpl; intros Hp.
  - repeat constructor.
  - apply Forall_cons in Hp as [Hc Hr].
    destruct (Z.ltb_spec x z); simpl.
    + repeat constructor; done.
    + destruct (Z.eqb_spec x z); simpl; constructor; auto; lia.
Qed.

Lemma unique_table_sorted l : StronglySorted Z.lt (np_unique l).
Proof.
  unfold np_unique. induction l as [|x l IH]; simpl; [constructor|].
  by apply tally_sorted.
Qed.

Lemma unique_table_positive l : Forall (fun c => 0 < c) (unique_table l).*2.
Proof.
  induction l as [|x l IH]; simpl; [constructor|]. by apply tally_positive.
Qed.

Lemma table_count_absent u v : v ∉ u.*1 -> table_count u v = 0.
Proof.
  induction u as [|[y c] r IH]; simpl; [done|].
  intros Hv. apply not_elem_of_cons in Hv as [Hne Hv].
  rewrite IH by done. destruct (Z.eqb_spec y v); [congruence|lia].
Qed.

Lemma table_count_lookup u (i : nat) v c :
  StronglySorted Z.lt u.*1 -> u !! i = Some (v, c) -> table_count u v = c.
Proof.
  revert i. induction u as [|[y d] r IH]; intros i Hs Hi; [done|].
  simpl in Hs. apply StronglySorted_inv in Hs as [Hr Hy]. simpl.
  destruct i as [|i]; simpl in Hi.
  - injection Hi as -> ->. rewrite Z.eqb_refl.
    rewrite table_count_absent; [lia|].
    intros Hin. rewrite Forall_forall in Hy. specialize (Hy _ Hin). lia.
  - rewrite (IH i) by done.
    assert (Hin : v ∈ r.*1).
    { apply list_elem_of_fmap. exists (v, c). split; [done|].
      by eapply list_elem_of_lookup_2. }
    rewrite Forall_forall in Hy. specialize (Hy _ Hin).
    destruct (Z.eqb_spec y v); lia.
Qed.

(** Row [i] of the table: the [i]-th distinct value and its count. *)
Lemma unique_table_lookup l (i : nat) v c :
  unique_table l !! i = Some (v, c) -> c = occurrences v l.
Proof.
  intros Hi. rewrite <- table_count_unique_table.
  symmetry. eapply table_count_lookup; [apply unique_table_sorted|done].
Qed.

Lemma elem_of_np_unique l v : v ∈ np_unique l <-> v ∈ l.
Proof.
  rewrite <- (occurrences_pos v l), <- (table_count_unique_table l v).
  unfold np_unique. split.
  - intros Hin. apply list_elem_of_fmap in Hin as ([y c] & -> & Hin).
    apply list_elem_of_lookup in Hin as [i Hi]. simpl.
    rewrite (table_count_lookup _ i y c (unique_table_sorted l) Hi).
    pose proof (unique_table_positive l) as Hp.
    rewrite Forall_forall in Hp. apply Hp.
    apply list_elem_of_fmap. exists (y, c). split; [done|].
    by eapply list_elem_of_lookup_2.
  - intros Hpos. destruct (decide (v ∈ (unique_table l).*1)); [done|].
    rewrite table_count_absent in Hpos by done. lia.
Qed.

Lemma np_unique_nil_inv l : np_unique l = [] -> l = [].
Proof.
  intros Hu. destruct l as [|x l]; [done|].
  assert (Hx : x ∈ np_unique (x :: l)) by (apply elem_of_np_unique; left).
  rewrite Hu in Hx. by apply elem_of_nil in Hx.
Qed.

Lemma np_unique_counts_lookup l (i : nat) v :
  np_unique l !! i = Some v ->
  (np_unique_counts l).1 !! i = Some v /\
  (np_unique_counts l).2 !! i = Some (occurrences v l).
Proof.
  unfold np_unique, np_unique_counts. simpl. intros Hi. split; [done|].
  rewrite list_lookup_fmap in Hi. rewrite list_lookup_fmap.
  destruct (unique_table l !! i) as [[y c]|] eqn:E; [|done].
  simpl in *. injection Hi as ->. f_equal. by eapply unique_table_lookup.
Qed.

Lemma np_unique_NoDup l : NoDup (np_unique l).
Proof.
  pose proof (unique_table_sorted l) as Hs.
  induction Hs as [|x u Hu IH Hx]; constructor; [|done].
  intros Hin. rewrite Forall_forall in Hx. specialize (Hx _ Hin). lia.
Qed.

(** Strictly ascending lists with the same elements are equal. *)
Lemma sorted_lt_ext (l k : list Z) :
  StronglySorted Z.lt l -> StronglySorted Z.lt k ->
  (forall x, x ∈ l <-> x ∈ k) -> l = k.
Proof.
  intros Hl. revert k. induction Hl as [|x l Hl IH Hx]; intros k Hk Heq.
  - destruct k as [|y k]; [done|].
    exfalso. eapply elem_of_nil. apply Heq. left.
  - destruct Hk as [|y k Hk Hy].
    + exfalso. eapply elem_of_nil. apply Heq. left.
    + rewrite Forall_forall in Hx, Hy.
      assert (x = y).
      { assert (Hxk : x ∈ y :: k) by (apply Heq; left).
        assert (Hyl : y ∈ x :: l) by (apply Heq; left).
        apply elem_of_cons in Hxk as [?|Hxk]; [done|].
        apply elem_of_cons in Hyl as [?|Hyl]; [done|].
        specialize (Hx _ Hyl). specialize (Hy _ Hxk). lia. }
      subst y. f_equal. apply IH; [done|].
      intros z. split; intros Hz.
      * assert (Hz' : z ∈ x :: k) by (apply Heq; by right).
        apply elem_of_cons in Hz' as [->|?]; [|done].
        specialize (Hx _ Hz). lia.
      * assert (Hz' : z ∈ x :: l) by (apply Heq; by right).
        apply elem_of_cons in Hz' as [->|?]; [|done].
        specialize (Hy _ Hz). lia.
Qed.

Lemma range_sorted a b : StronglySorted Z.lt (range a b).
Proof.
  destruct (Z.le_gt_cases b a) as [Hle|Hgt].
  - rewrite range_empty by done. constructor.
  - remember (Z.to_nat (b - a)) as n eqn:Hn.
    revert a Hn Hgt. induction n as [|n IH]; intros a Hn Hgt; [lia|].
    rewrite range_cons by done. constructor.
    + destruct (Z.le_gt_cases b (a + 1)).
      * rewrite range_empty by done. constructor.
      * apply IH; lia.
    + apply Forall_forall. intros x Hx%elem_of_range. lia.
Qed.

(** ** The score *)

Lemma sum_loop_total {A} (f : A -> result Q) (h : A -> Q) (l : list A) :
  (forall x, x ∈ l -> f x = Ok (h x)) ->
  forall acc, exists q,
    sum_loop f l acc = Ok q /\ (q == acc + Qsum (map h l))%Q.
Proof.
  induction l as [|x l IH]; intros Hf acc; simpl.
  - exists acc. split; [done|]. ring.
  - rewrite (Hf x) by left. simpl.
    destruct (IH (fun y Hy => Hf y (list_elem_of_further _ _ _ Hy))
                (acc + h x)%Q) as (q & Hq & Heq).
    exists q. split; [done|]. rewrite Heq. ring.
Qed.

Lemma sum_loop_bind {A B} (f : A -> result B) (g : B -> result Q)
    (h : B -> Q) (l : list A) :
  (forall b t, g b = Ok t -> (t == h b)%Q) ->
  forall acc q,
    sum_loop (fun x => f x ≫= g) l acc = Ok q ->
    exists bs, mapM f l = Ok bs /\ (q == acc + Qsum (map h bs))%Q.
Proof.
  intros Hg. induction l as [|x l IH]; intros acc q Hs; simpl in Hs.
  - injection Hs as <-. exists []. split; [done|]. simpl. ring.
  - apply bind_Ok in Hs as (t & Ht & Hs).
    apply bind_Ok in Ht as (b & Hb & Ht).
    destruct (IH _ _ Hs) as (bs & Hbs & Heq).
    exists (b :: bs). simpl. rewrite Hb. simpl. rewrite Hbs. simpl.
    split; [done|]. rewrite Heq, (Hg _ _ Ht). ring.
Qed.

Lemma Qsum_ext {A} (f g : A -> Q) (l : list A) :
  (forall x, x ∈ l -> (f x == g x)%Q) ->
  (Qsum (map f l) == Qsum (map g l))%Q.
Proof.
  induction l as [|x l IH]; intros Hfg; simpl; [reflexivity|].
  rewrite (Hfg x) by left. rewrite IH; [reflexivity|].
  intros y Hy. apply Hfg. by right.
Qed.

Lemma where_first_spec (a : list Z) (x : Z) :
  x ∈ a -> exists i : nat, where_first a x = Ok (Z.of_nat i) /\ a !! i = Some x.
Proof.
  intros Hx. unfold where_first.
  destruct (list_find (fun y => y = x) a) as [[i y]|] eqn:E.
  - apply list_find_Some in E as (Hi & -> & _). eauto.
  - apply list_find_None in E. rewrite Forall_forall in E.
    by specialize (E x Hx).
Qed.

Lemma canonical_lookup (l : list Z) (i : Z) :
  canonical l -> 0 <= i < len (np_unique l) ->
  np_unique l !! Z.to_nat i = Some i.
Proof.
  intros Hc Hi. rewrite Hc. rewrite range_lookup by (unfold len in *; lia).
  f_equal. lia.
Qed.

(** *** [necklace.py] *)

Lemma list_score_term (s : Necklace) (thief_beads : list Z) (i : Z) :
  canonical (beads s) -> 0 <= i < len (np_unique (beads s)) ->
  ListNecklace.score_term
    (map (fun c => inject_Z c / inject_Z (num_thieves s))%Q
       (np_unique_counts (beads s)).2)
    (np_unique_counts thief_beads).1 (np_unique_counts thief_beads).2 i
  = Ok (penalised_deviation s thief_beads i).
Proof.
  intros Hc Hi. unfold ListNecklace.score_term, penalised_deviation.
  change (np_unique_counts thief_beads).1 with (np_unique thief_beads).
  pose proof (occurrences_nonneg i thief_beads) as Hnn.
  destruct (contains i (np_unique thief_beads)) eqn:Hin; cbn [negb].
  - apply contains_true in Hin.
    assert (Hpos : 0 < occurrences i thief_beads)
      by (apply occurrences_pos; by apply elem_of_np_unique).
    destruct (Z.eqb_spec (occurrences i thief_beads) 0); [lia|].
    destruct (where_first_spec _ _ Hin) as (w & -> & Hw).
    rewrite bind_of_Ok.
    destruct (np_unique_counts_lookup _ _ _ (canonical_lookup _ _ Hc Hi))
      as [_ Hci].
    assert (Hp : getitem
              (map (fun c => inject_Z c / inject_Z (num_thieves s))%Q
                 (np_unique_counts (beads s)).2) i
            = Ok (ideal s i)).
    { apply getitem_Ok; [lia|]. rewrite list_lookup_fmap, Hci. done. }
    rewrite Hp, bind_of_Ok.
    destruct (np_unique_counts_lookup _ _ _ Hw) as [_ Hcw].
    assert (Hg : getitem (np_unique_counts thief_beads).2 (Z.of_nat w)
                 = Ok (occurrences i thief_beads)).
    { apply getitem_Ok; [lia|]. by rewrite Nat2Z.id. }
    rewrite Hg. reflexivity.
  - apply contains_false in Hin.
    destruct (Z.eqb_spec (occurrences i thief_beads) 0); [done|].
    exfalso. apply Hin, elem_of_np_unique, occurrences_pos. lia.
Qed.

Lemma list_gen_score_spec (s0 s : Necklace) (r : Q) :
  canonical (beads s0) ->
  ListNecklace.gen_score s0 = Ok (r, s) ->
  s = set_score s0 r /\
  exists per_thief,
    mapM (ListNecklace.get_thief_beads s0) (range 0 (num_thieves s0))
    = Ok per_thief /\
    (r == total_over (penalised_deviation s0)
            (range 0 (len (np_unique (beads s0)))) per_thief)%Q.
Proof.
  intros Hc Hg. unfold ListNecklace.gen_score in Hg.
  destruct (np_unique_counts (beads s0)) as [unique counts] eqn:Hu.
  apply bind_Ok in Hg as (sc & Hsum & Hg). injection Hg as <- <-.
  split; [done|].
  assert (Hun : unique = np_unique (beads s0))
    by (unfold np_unique_counts in Hu; by injection Hu as <- _).
  assert (Hco : counts = (np_unique_counts (beads s0)).2) by by rewrite Hu.
  subst unique counts.
  unfold ListNecklace.thief_score in Hsum.
  eapply (sum_loop_bind _ _
            (fun tb => Qsum (map (penalised_deviation s0 tb)
                               (range 0 (len (np_unique (beads s0)))))))
    in Hsum.
  - destruct Hsum as (bs & Hbs & Heq). exists bs. split; [done|].
    rewrite Heq. unfold total_over. ring.
  - intros tb t Ht.
    destruct (np_unique_counts tb) as [tu tc] eqn:Htb.
    destruct (sum_loop_total
                (ListNecklace.score_term
                   (map (fun c => inject_Z c / inject_Z (num_thieves s0))%Q
                      (np_unique_counts (beads s0)).2) tu tc)
                (penalised_deviation s0 tb)
                (range 0 (len (np_unique (beads s0))))) with (acc := 0%Q)
      as (q & Hq & Heq).
    + intros x Hx%elem_of_range.
      replace tu with (np_unique_counts tb).1 by by rewrite Htb.
      replace tc with (np_unique_counts tb).2 by by rewrite Htb.
      by apply list_score_term.
    + rewrite Hq in Ht. injection Ht as <-. rewrite Heq. ring.
Qed.

Lemma thief_beads_loop_set_score (s : Necklace) (q : Q) mask iv idx acc :
  ListNecklace.thief_beads_loop (set_score s q) mask iv idx acc
  = ListNecklace.thief_beads_loop s mask iv idx acc.
Proof.
  revert acc. induction idx as [|i idx IH]; intros acc; simpl; [done|].
  destruct (match mask with
            | EqArray m => getitem m i
            | EqFalse => Raise TypeError
            end) as [[]|]; simpl; [|by rewrite IH|done].
  destruct (getitem iv i); simpl; [|done].
  destruct (getitem iv (i + 1)); simpl; [|done]. by rewrite IH.
Qed.

Lemma list_get_thief_beads_set_score (s : Necklace) (q : Q) (thief : Z) :
  ListNecklace.get_thief_beads (set_score s q) thief
  = ListNecklace.get_thief_beads s thief.
Proof.
  unfold ListNecklace.get_thief_beads. apply thief_beads_loop_set_score.
Qed.

(** *** [npnecklace.py] *)

Lemma perfect_bead_split_canonical (s : Necklace) :
  canonical (beads s) ->
  map (fun c => inject_Z c / inject_Z (num_thieves s))%Q
    (np_unique_counts (beads s)).2
  = map (ideal s) (range 0 (len (np_unique (beads s)))).
Proof.
  intros Hc. apply list_eq. intros i.
  rewrite !list_lookup_fmap.
  destruct (decide (i < length (np_unique (beads s)))%nat) as [Hi|Hi].
  - rewrite range_lookup by (unfold len; lia).
    assert (Hl : np_unique (beads s) !! i = Some (Z.of_nat i)).
    { rewrite <- (Nat2Z.id i) at 1. apply canonical_lookup; [done|].
      unfold len. lia. }
    destruct (np_unique_counts_lookup _ _ _ Hl) as [_ ->]. reflexivity.
  - rewrite (lookup_ge_None_2 (range _ _)) by (rewrite length_range; unfold len; lia).
    rewrite lookup_ge_None_2; [done|].
    unfold np_unique_counts, np_unique in *. simpl.
    rewrite length_fmap in *. lia.
Qed.

Lemma zip_with_map_map {A B C D} (f : B -> C -> D) (g : A -> B) (h : A -> C)
    (l : list A) :
  zip_with f (map g l) (map h l) = map (fun x => f (g x) (h x)) l.
Proof. induction l as [|x l IH]; simpl; [done|]. by rewrite IH. Qed.

Lemma np_row_score (s : Necklace) (thief_beads : list Z) (t : Q) :
  canonical (beads s) -> bead_types s = len (np_unique (beads s)) ->
  NpNecklace.row_score
    (map (fun c => inject_Z c / inject_Z (num_thieves s))%Q
       (np_unique_counts (beads s)).2)
    (NpNecklace.count_row (bead_types s) thief_beads) = Ok t ->
  (t == Qsum (map (deviation s thief_beads) (range 0 (bead_types s))))%Q.
Proof.
  intros Hc Hbt. rewrite perfect_bead_split_canonical by done.
  rewrite <- Hbt. unfold NpNecklace.row_score, NpNecklace.broadcast_sub.
  unfold NpNecklace.count_row.
  assert (Hlen : len (map (fun t => len (filter (fun b => b = t) thief_beads))
                        (range 0 (bead_types s)))
                 = len (map (ideal s) (range 0 (bead_types s)))).
  { unfold len. by rewrite !length_map. }
  rewrite Hlen, Z.eqb_refl, bind_of_Ok. intros [= <-].
  rewrite zip_with_map_map, map_map. apply Qsum_ext.
  intros x _. unfold deviation, occurrences. rewrite Qabs_Qminus.
  reflexivity.
Qed.

Lemma np_rows_score (s : Necklace) (per_thief : list (list Z)) :
  canonical (beads s) -> bead_types s = len (np_unique (beads s)) ->
  forall acc sc,
    sum_loop (NpNecklace.row_score
                (map (fun c => inject_Z c / inject_Z (num_thieves s))%Q
                   (np_unique_counts (beads s)).2))
      (map (NpNecklace.count_row (bead_types s)) per_thief) acc = Ok sc ->
    (sc == acc + total_over (deviation s) (range 0 (bead_types s))
                   per_thief)%Q.
Proof.
  intros Hc Hbt. unfold total_over.
  induction per_thief as [|x l IH]; intros acc sc Hs; simpl in Hs.
  - injection Hs as <-. simpl. ring.
  - apply bind_Ok in Hs as (t & Ht & Hs).
    apply np_row_score in Ht; [|done..].
    rewrite (IH _ _ Hs). simpl. rewrite Ht. ring.
Qed.

Lemma np_gen_score_spec (s0 s : Necklace) (r : Q) :
  canonical (beads s0) -> bead_types s0 = len (np_unique (beads s0)) ->
  NpNecklace.gen_score s0 = Ok (r, s) ->
  exists per_thief,
    mapM (NpNecklace.get_thief_beads s0) (range 0 (num_thieves s0))
    = Ok per_thief /\
    s = set_score s0 (score s) /\
    (score s == total_over (deviation s0) (range 0 (bead_types s0))
                  per_thief)%Q.
Proof.
  intros Hc Hbt Hg. unfold NpNecklace.gen_score in Hg.
  destruct (np_unique_counts (beads s0)) as [unique counts] eqn:Hu.
  assert (Hco : counts = (np_unique_counts (beads s0)).2) by by rewrite Hu.
  subst counts.
  apply bind_Ok in Hg as (per_thief & Hpt & Hg).
  apply bind_Ok in Hg as (sc & Hsc & Hg). injection Hg as <- <-.
  exists per_thief. split; [done|]. split; [done|]. simpl.
  destruct per_thief as [|tb per_thief].
  - simpl in Hsc. apply bind_Ok in Hsc as (_ & _ & [= <-]). reflexivity.
  - simpl map in Hsc. cbv iota in Hsc.
    rewrite (np_rows_score s0 (tb :: per_thief) Hc Hbt _ _ Hsc). ring.
Qed.

Lemma np_get_thief_beads_set_score (s : Necklace) (q : Q) (thief : Z) :
  NpNecklace.get_thief_beads (set_score s q) thief
  = NpNecklace.get_thief_beads s thief.
Proof. reflexivity. Qed.

(** *** [int_beads] makes the beads canonical *)

Lemma len_range (k : Z) : 0 <= k -> len (range 0 k) = k.
Proof. intros Hk. unfold len. rewrite length_range. lia. Qed.

Lemma len_nonneg {A} (l : list A) : 0 <= len l.
Proof. unfold len. lia. Qed.

Lemma int_beads_unique (s : string) :
  np_unique (int_beads (StrBeads s) (np_unique (tokens (StrBeads s))))
  = range 0 (len (np_unique (tokens (StrBeads s)))).
Proof.
  set (tk := tokens (StrBeads s)). set (u := np_unique tk).
  apply sorted_lt_ext; [apply unique_table_sorted | apply range_sorted |].
  intros x. rewrite elem_of_np_unique, elem_of_range.
  unfold int_beads. fold tk. rewrite list_elem_of_fmap. split.
  - intros (t & -> & Ht).
    assert (Htu : t ∈ u) by by apply elem_of_np_unique.
    destruct (list_find (fun y => y = t) u) as [[i y]|] eqn:E.
    + apply list_find_Some in E as (Hi & _ & _).
      apply lookup_lt_Some in Hi. unfold len. lia.
    + apply list_find_None in E. rewrite Forall_forall in E.
      by specialize (E t Htu).
  - intros Hx. unfold len in Hx.
    destruct (lookup_lt_is_Some_2 u (Z.to_nat x)) as [t Ht]; [lia|].
    exists t. split.
    + destruct (list_find (fun y => y = t) u) as [[i y]|] eqn:E.
      * apply list_find_Some in E as (Hi & -> & _).
        pose proof (NoDup_lookup _ _ _ _ (np_unique_NoDup tk) Hi Ht). lia.
      * apply list_find_None in E. rewrite Forall_forall in E.
        exfalso. apply (E t); [|done]. by eapply list_elem_of_lookup_2.
    + apply elem_of_np_unique. by eapply list_elem_of_lookup_2.
Qed.

Lemma int_beads_canonical (s : string) :
  canonical (int_beads (StrBeads s) (np_unique (tokens (StrBeads s)))).
Proof.
  unfold canonical. rewrite int_beads_unique at 1.
  rewrite int_beads_unique, len_range; [done | apply len_nonneg].
Qed.

(** The constructor's [bead_types] is the number of distinct beads it
    stores. *)
Lemma bead_types_consistent (b : beads_arg) :
  len (np_unique (tokens b))
  = len (np_unique (int_beads b (np_unique (tokens b)))).
Proof.
  destruct b as [l|s]; [done|].
  rewrite int_beads_unique, len_range; [done | apply len_nonneg].
Qed.

(** C1, as the code has it.  In [necklace.py] the cached score of a
    constructed state adds, over every thief and every bead type,
    [|ideal[t] - observed|] when the thief holds a bead of the type and the
    constant [2] when it holds none; in [npnecklace.py] it is the plain sum
    of [|ideal[t] - observed|], a missing type counting as observed [0]. *)
Theorem constructed_score_is_deviation_sum
    (b : beads_arg) (n mm : Z) (c : list Z) (a : pyseq) (s : Necklace) :
  (ListNecklace.construct b n mm c a = Ok s ->
   canonical (beads s) ->
   exists per_thief,
     mapM (ListNecklace.get_thief_beads s) (range 0 (num_thieves s))
     = Ok per_thief /\
     (score s == total_over (penalised_deviation s)
                   (range 0 (bead_types s)) per_thief)%Q) /\
  (NpNecklace.construct b n mm c a = Ok s ->
   canonical (beads s) ->
   exists per_thief,
     mapM (NpNecklace.get_thief_beads s) (range 0 (num_thieves s))
     = Ok per_thief /\
     (score s == total_over (deviation s)
                   (range 0 (bead_types s)) per_thief)%Q).
Proof.
  split.
  - unfold ListNecklace.construct.
    set (s0 := mkNecklace _ _ _ _ _ _ _ _ _). intros Hc Hcan.
    apply bind_Ok in Hc as ([r s'] & Hg & [= ->]).
    assert (Hcan0 : canonical (beads s0)).
    { unfold ListNecklace.gen_score in Hg.
      destruct (np_unique_counts _) in Hg.
      apply bind_Ok in Hg as (? & _ & [= _ <-]). exact Hcan. }
    apply list_gen_score_spec in Hg as (-> & per_thief & Hpt & Heq);
      [|exact Hcan0].
    exists per_thief. split.
    + rewrite <- Hpt. apply mapM_ext. intros x.
      apply list_get_thief_beads_set_score.
    + change (bead_types (set_score s0 r))
        with (len (np_unique (tokens b))).
      rewrite (bead_types_consistent b). exact Heq.
  - unfold NpNecklace.construct.
    set (s0 := mkNecklace _ _ _ _ _ _ _ _ _). intros Hc Hcan.
    apply bind_Ok in Hc as ([r s'] & Hg & [= ->]).
    assert (Hs0 : exists q, s = set_score s0 q).
    { unfold NpNecklace.gen_score in Hg.
      destruct (np_unique_counts _) in Hg.
      apply bind_Ok in Hg as (? & _ & Hg).
      apply bind_Ok in Hg as (q & _ & [= _ <-]). by exists q. }
    destruct Hs0 as [q Hq].
    assert (Hcan0 : canonical (beads s0)) by (by rewrite Hq in Hcan).
    apply np_gen_score_spec in Hg as (per_thief & Hpt & _ & Heq);
      [|exact Hcan0|apply bead_types_consistent].
    exists per_thief. rewrite Hq in *. split; [exact Hpt|exact Heq].
Qed.

Lemma constructed_score_witness :
  (exists s,
     ListNecklace.construct (StrBeads "0101") 2 4 [1; 2] (np_array [0; 1; 0])
     = Ok s /\
     canonical (beads s) /\
     exists per_thief,
       mapM (ListNecklace.get_thief_beads s) (range 0 (num_thieves s))
       = Ok per_thief /\
       (score s == total_over (penalised_deviation s)
                     (range 0 (bead_types s)) per_thief)%Q) /\
  (exists s,
     NpNecklace.construct (StrBeads "0101") 2 4 [1; 2] (np_array [0; 1; 0])
     = Ok s /\
     canonical (beads s) /\
     exists per_thief,
       mapM (NpNecklace.get_thief_beads s) (range 0 (num_thieves s))
       = Ok per_thief /\
       (score s == total_over (deviation s)
                     (range 0 (bead_types s)) per_thief)%Q).
Proof.
  split.
  - eexists. split; [vm_compute; reflexivity|].
    split; [vm_compute; reflexivity|].
    apply (proj1 (constructed_score_is_deviation_sum
                    (StrBeads "0101") 2 4 [1; 2] (np_array [0; 1; 0]) _));
      vm_compute; reflexivity.
  - eexists. split; [vm_compute; reflexivity|].
    split; [vm_compute; reflexivity|].
    apply (proj2 (constructed_score_is_deviation_sum
                    (StrBeads "0101") 2 4 [1; 2] (np_array [0; 1; 0]) _));
      vm_compute; reflexivity.
Defined.

(** The claim of C1 fails for [necklace.py]: two beads of one type, two
    thieves, the first holding nothing.  The plain sum is [1 + 1]; the
    cached score is [2 + 1]. *)
Lemma plain_sum_counterexample :
  exists s per_thief,
    ListNecklace.construct (StrBeads "00") 2 20 [0] (np_array [0; 1]) = Ok s /\
    mapM (ListNecklace.get_thief_beads s) (range 0 (num_thieves s))
    = Ok per_thief /\
    (score s == 3)%Q /\
    (total_over (deviation s) (range 0 (bead_types s)) per_thief == 2)%Q /\
    ~ (score s == total_over (deviation s) (range 0 (bead_types s))
                    per_thief)%Q.
Proof.
  eexists. eexists. split; [vm_compute; reflexivity|].
  split; [vm_compute; reflexivity|].
  split; [vm_compute; reflexivity|].
  split; [vm_compute; reflexivity|].
  vm_compute. discriminate.
Qed.

(** ** The engine on concrete necklaces *)

Example lone_thief_constructed :
  fst <$> ListNecklace.init rng0 (StrBeads "0") 1 20 None None
  = Ok lone_thief.
Proof. vm_compute. reflexivity. Qed.

Example necklace_0101_constructed :
  ListNecklace.construct (StrBeads "0101") 2 4 [1; 2] (np_array [0; 1; 0])
  = Ok necklace_0101.
Proof. vm_compute. reflexivity. Qed.

Example necklace_000_constructed :
  ListNecklace.construct (StrBeads "000") 3 4 [1; 2] (np_array [1; 0; 2])
  = Ok necklace_000.
Proof. vm_compute. reflexivity. Qed.

Example lone_thief_has_no_neighbors :
  ListNecklace.get_neighbors lone_thief = Ok [].
Proof. vm_compute. reflexivity. Qed.


Example search_two_iterations :
  exists best first second,
    LocalSearch.search_run clock0 10 rng0 necklace_0101 3
    = LocalSearch.Returned (best, [first; second]) /\
    cuts best = [0; 2] /\ (score best == 0)%Q /\
    best = first /\ (score second == 3)%Q.
Proof.
  do 3 eexists. split; [vm_compute; reflexivity|].
  repeat split.
Qed.

Lemma empty_neighbors_witness :
  LocalSearch.get_neighbors lone_thief = Ok [] /\
  Qlt_bool (clock0 1) 2 = true /\
  LocalSearch.search_loop clock0 1 2 1 rng0 lone_thief lone_thief 0 []
  = LocalSearch.Raised ValueError.
Proof.
  assert (Hn : LocalSearch.get_neighbors lone_thief = Ok [])
    by (vm_compute; reflexivity).
  assert (Ht : Qlt_bool (clock0 1) 2 = true) by (vm_compute; reflexivity).
  split; [exact Hn|]. split; [exact Ht|].
  exact (empty_neighbors_raise_ValueError clock0 0 2 1 rng0 lone_thief
           lone_thief 0 [] Hn Ht).
Defined.

(** The claim of C4 fails: one thief, one bead; the only state has no
    neighbour, and a search with a positive budget ends with the
    [ValueError] of [np.random.choice]. *)
Lemma search_exhausted_counterexample :
  LocalSearch.get_neighbors lone_thief = Ok [] /\
  Qlt_bool (clock0 1) (clock0 0 + 2) = true /\
  LocalSearch.search clock0 1 rng0 lone_thief 2
  = LocalSearch.Raised ValueError /\
  LocalSearch.search clock0 1 rng0 lone_thief 2
  <> LocalSearch.Raised SearchExhaustedError.
Proof.
  split; [vm_compute; reflexivity|].
  split; [vm_compute; reflexivity|].
  split; [vm_compute; reflexivity|].
  vm_compute. discriminate.
Qed.

Lemma iteration_witness :
  exists ns x,
    LocalSearch.get_neighbors necklace_0101 = Ok ns /\
    ns <> [] /\
    LocalSearch.iteration necklace_0101 rng0
    = Ok (x, (random_sample_float rng0).2).
Proof.
  destruct (LocalSearch.get_neighbors necklace_0101) as [ns|e] eqn:Hn;
    [|vm_compute in Hn; discriminate Hn].
  assert (Hne : ns <> []).
  { intros ->. vm_compute in Hn. discriminate Hn. }
  destruct (iteration_samples_by_rank clock0 necklace_0101 ns rng0 Hn Hne)
    as (_ & _ & _ & _ & x & _ & Hit & _).
  exists ns, x. split; [reflexivity|]. split; [exact Hne|exact Hit].
Defined.

(** ** The constructor of [necklace.py] with random cuts and assignments *)

Lemma randbelow_lt (n : nat) (g : RNG) : (0 < n)%nat -> ((randbelow n g).1 < n)%nat.
Proof.
  intros Hn. unfold randbelow, next_raw. simpl.
  assert (draws g (cursor g) mod N.of_nat n < N.of_nat n)%N
    by (apply N.mod_lt; lia).
  lia.
Qed.

Lemma random_choice_Ok (l : list Z) (g : RNG) :
  l <> [] -> exists x g', random_choice l g = Ok (x, g') /\ x ∈ l.
Proof.
  intros Hne. unfold random_choice. destruct l as [|y l]; [done|].
  pose proof (randbelow_lt (length (y :: l)) g ltac:(simpl; lia)) as Hlt.
  destruct (randbelow (length (y :: l)) g) as [j g'] eqn:E. simpl in Hlt.
  destruct (lookup_lt_is_Some_2 (y :: l) j Hlt) as [x Hx].
  rewrite Hx. exists x, g'. split; [done|]. by eapply list_elem_of_lookup_2.
Qed.

Lemma sample_pool_length (k : nat) (pool : list Z) (g : RNG) :
  length (sample_pool k pool g).1 = k.
Proof.
  revert pool g. induction k as [|k IH]; intros pool g; [done|].
  cbn [sample_pool].
  destruct (randbelow (length pool) g) as [j g1].
  specialize (IH (removelast (<[j:=List.last pool 0]> pool)) g1).
  destruct (sample_pool k _ g1) as [r g2]. simpl in *. by f_equal.
Qed.



Lemma gen_assignments_loop_Ok (k : nat) (all possible : list Z) (g : RNG) :
  possible <> [] -> (forall a, filter (fun b => a ≠ b) all <> []) ->
  exists r g', gen_assignments_loop k all possible g = Ok (r, g') /\
               length r = k.
Proof.
  intros Hp Hall. revert possible g Hp.
  induction k as [|k IH]; intros possible g Hp; simpl.
  - by exists [], g.
  - destruct (random_choice_Ok possible g Hp) as (a & g1 & -> & _).
    rewrite bind_of_Ok.
    destruct (IH (filter (fun b => a ≠ b) all) g1 (Hall a))
      as (r & g2 & -> & Hr).
    rewrite bind_of_Ok. exists (a :: r), g2. split; [done|]. simpl. lia.
Qed.

Lemma gen_assignments_Ok (num_thieves num_cuts : Z) (g : RNG) :
  0 <= num_cuts -> (1 <= num_cuts -> 2 <= num_thieves) ->
  exists a g', gen_assignments num_thieves num_cuts g = Ok (np_array a, g') /\
               len a = num_cuts + 1.
Proof.
  intros Hk Hn. unfold gen_assignments.
  destruct (Z.ltb_spec (num_cuts + 1) 0); [lia|].
  destruct (Z.eqb_spec (num_cuts + 1) 0); [lia|].
  destruct (Z.eq_dec num_cuts 0) as [->|Hpos].
  - simpl. exists [0], g. done.
  - assert (H2 : 2 <= num_thieves) by (apply Hn; lia).
    destruct (gen_assignments_loop_Ok (Z.to_nat num_cuts)
                (range 0 num_thieves) (range 1 num_thieves) g)
      as (r & g' & -> & Hr).
    + rewrite range_cons by lia. done.
    + intros a Hnil.
      assert (H0 : 0 ∈ range 0 num_thieves) by (apply elem_of_range; lia).
      assert (H1' : 1 ∈ range 0 num_thieves) by (apply elem_of_range; lia).
      destruct (decide (a = 0)) as [->|Ha].
      * assert (Hin : 1 ∈ filter (fun b => 0 ≠ b) (range 0 num_thieves))
          by (apply list_elem_of_filter; split; [lia|done]).
        rewrite Hnil in Hin. by apply elem_of_nil in Hin.
      * assert (Hin : 0 ∈ filter (fun b => a ≠ b) (range 0 num_thieves))
          by (apply list_elem_of_filter; split; [done|done]).
        rewrite Hnil in Hin. by apply elem_of_nil in Hin.
    + rewrite bind_of_Ok. exists (0 :: r), g'. split; [done|].
      unfold len. simpl. lia.
Qed.








(** ** Neighbour generation: where the code leaves the specification *)

(** The window of forbidden thieves starts at the changed index, not one
    before it. *)
Lemma cannot_assign_window (s : Necklace) (i : Z) :
  0 <= i -> cannot_assign s i = slice (elems (assignments s)) i (i + 3).
Proof.
  intros Hi. unfold cannot_assign.
  destruct (Z.gtb_spec i 0); [done|]. by replace i with 0 by lia.
Qed.

(** C2, at a failing input.  Three beads, three thieves, assignments
    [[1; 0; 2]]: for partition [1] the code forbids the thieves of
    partitions [1] and [2] only, so thief [1], who owns partition [0] on
    the left, is offered and the neighbour [[1; 1; 2]] is emitted. *)
Theorem assignment_move_repeats_left_neighbor :
  cannot_assign necklace_000 1 = [0; 2] /\
  assignment_candidates necklace_000 1 = [1] /\
  exists nbs nb,
    ListNecklace.get_neighbors necklace_000 = Ok nbs /\
    nb ∈ nbs /\
    cuts nb = cuts necklace_000 /\
    elems (assignments nb) = [1; 1; 2] /\
    elems (assignments nb) !! 1%nat = elems (assignments nb) !! 0%nat.
Proof.
  split; [reflexivity|]. split; [reflexivity|].
  eexists. eexists. split; [vm_compute; reflexivity|].
  split.
  { do 2 apply list_elem_of_further. apply list_elem_of_here. }
  repeat split.
Qed.

(** C3, at two failing inputs.  A cut moved by [get_neighbors] may jump
    over another cut and the list is not sorted again: from cuts [[1; 2]]
    on four beads, moving the first cut to [3] gives [[3; 2]].  And the
    random cuts of [npnecklace.py] are drawn with replacement: a generator
    that repeats itself gives [[1; 1]]. *)
Theorem cuts_not_always_sorted_distinct :
  (exists nbs nb,
     ListNecklace.get_neighbors necklace_0101 = Ok nbs /\
     nb ∈ nbs /\ cuts nb = [3; 2]) /\
  (exists nbs nb,
     NpNecklace.get_neighbors necklace_0101 = Ok nbs /\
     nb ∈ nbs /\ cuts nb = [3; 2]) /\
  fst <$> NpNecklace.gen_cuts 4 2 rng_ones = Ok [1; 1].
Proof.
  split; [|split].
  - eexists. eexists. split; [vm_compute; reflexivity|]. split.
    { apply list_elem_of_further. apply list_elem_of_here. }
    reflexivity.
  - eexists. eexists. split; [vm_compute; reflexivity|]. split.
    { apply list_elem_of_further. apply list_elem_of_here. }
    reflexivity.
  - vm_compute. reflexivity.
Qed.

(** C8, at a failing input.  In [npnecklace.py] the beads of a thief who
    owns no partition are not the empty sequence: [np.concatenate] is
    handed an empty list and raises, and so does the constructor, which
    scores every thief.  [necklace.py] returns [[]] on the same state. *)
Theorem np_get_thief_beads_raises_for_idle_thief :
  NpNecklace.get_thief_beads necklace_000_idle_thief 2 = Raise ValueError /\
  NpNecklace.construct (StrBeads "000") 3 4 [1; 2] (np_array [0; 1; 0])
  = Raise ValueError /\
  ListNecklace.get_thief_beads necklace_000_idle_thief 2 = Ok [].
Proof. repeat split; vm_compute; reflexivity. Qed.

(** ** [get_neighbors] over the object store *)

Section HeapFacts.
Import HeapNecklace.
Variable cuts_kind : seq_kind.
Variable gen_score : Necklace -> result (Q * Necklace).

(** Reading an old address after the store has grown. *)
Lemma get_seq_old (h ext : heap) (l : loc) :
(l < length h)%nat -> get_seq l (h ++ ext) = get_seq l h.
Proof. intros Hl. unfold get_seq. by rewrite lookup_app_l. Qed.

Lemma get_obj_old (h ext : heap) (l : loc) :
(l < length h)%nat -> get_obj l (h ++ ext) = get_obj l h.
Proof. intros Hl. unfold get_obj. by rewrite lookup_app_l. Qed.

(** Reading and writing the cells added since. *)
Lemma get_seq_new (h ext : heap) (k : nat) (kd : seq_kind) (xs : list Z) :
ext !! k = Some (Seq kd xs) ->
get_seq (length h + k) (h ++ ext) = Ok (kd, xs).
Proof.
intros Hk. unfold get_seq.
rewrite lookup_app_r by lia.
replace (length h + k - length h)%nat with k by lia. by rewrite Hk.
Qed.

Lemma get_obj_new (h ext : heap) (k : nat) (o : object) :
ext !! k = Some (Obj o) -> get_obj (length h + k) (h ++ ext) = Ok o.
Proof.
intros Hk. unfold get_obj.
rewrite lookup_app_r by lia.
replace (length h + k - length h)%nat with k by lia. by rewrite Hk.
Qed.

Lemma insert_new (h ext : heap) (k : nat) (x : cell) :
<[(length h + k)%nat := x]> (h ++ ext) = h ++ <[k := x]> ext.
Proof. by rewrite insert_app_r. Qed.

Lemma alloc_new (h ext : heap) (x : cell) :
alloc x (h ++ ext) = ((length h + length ext)%nat, h ++ (ext ++ [x])).
Proof. unfold alloc. by rewrite length_app, app_assoc. Qed.

Lemma alloc_first (h : heap) (x : cell) :
alloc x h = ((length h + 0)%nat, h ++ [x]).
Proof. unfold alloc. by rewrite Nat.add_0_r. Qed.

(** The base object and what it refers to, at the start. *)
Variable h0 : heap.
Variable self : loc.
Variable o : object.
Variables kb kc ka : seq_kind.
Variables b c a : list Z.
Hypothesis Hself : h0 !! self = Some (Obj o).
Hypothesis Hbeads : h0 !! o_beads o = Some (Seq kb b).
Hypothesis Hcuts : h0 !! o_cuts o = Some (Seq kc c).
Hypothesis Hassignments : h0 !! o_assignments o = Some (Seq ka a).

Lemma built_extends (h : heap) (nbs : list loc) :
built cuts_kind gen_score h0 o b c a h nbs -> exists ext, h = h0 ++ ext.
Proof.
induction 1 as [|h nbs c' a' q _ [ext ->] _].
- exists []. by rewrite app_nil_r.
- eexists. by rewrite <- app_assoc.
Qed.

(** The base object is where it was in every later store. *)
Lemma base_obj (h ext : heap) :
(exists e, h = h0 ++ e) -> get_obj self (h ++ ext) = Ok o.
Proof.
intros [e ->]. rewrite <- app_assoc.
rewrite get_obj_old by (by eapply lookup_lt_Some).
unfold get_obj. by rewrite Hself.
Qed.

Lemma base_beads (h ext : heap) :
(exists e, h = h0 ++ e) -> get_seq (o_beads o) (h ++ ext) = Ok (kb, b).
Proof.
intros [e ->]. rewrite <- app_assoc.
rewrite get_seq_old by (by eapply lookup_lt_Some).
unfold get_seq. by rewrite Hbeads.
Qed.

Lemma base_cuts (h ext : heap) :
(exists e, h = h0 ++ e) -> get_seq (o_cuts o) (h ++ ext) = Ok (kc, c).
Proof.
intros [e ->]. rewrite <- app_assoc.
rewrite get_seq_old by (by eapply lookup_lt_Some).
unfold get_seq. by rewrite Hcuts.
Qed.

Lemma base_assignments (h ext : heap) :
(exists e, h = h0 ++ e) ->
get_seq (o_assignments o) (h ++ ext) = Ok (ka, a).
Proof.
intros [e ->]. rewrite <- app_assoc.
rewrite get_seq_old by (by eapply lookup_lt_Some).
unfold get_seq. by rewrite Hassignments.
Qed.

(** The copy a neighbour starts from: five new cells, nothing else. *)
Lemma new_neighbor_h_spec (h : heap) (nb : loc) (h1 : heap) :
(exists e, h = h0 ++ e) ->
new_neighbor_h cuts_kind gen_score self h = Ok (nb, h1) ->
exists q,
  nb = (length h + 4)%nat /\
  h1 = h ++ neighbor_block cuts_kind (length h) o b c c a q.
Proof.
intros He.
unfold new_neighbor_h, np_array_h, init_h.
pose proof (base_obj h [] He) as Ho. rewrite app_nil_r in Ho.
pose proof (base_cuts h [] He) as Hc. rewrite app_nil_r in Hc.
rewrite Ho, bind_of_Ok, Hc, !bind_of_Ok.
rewrite alloc_first.
rewrite (base_assignments h _ He), !bind_of_Ok.
rewrite alloc_new. simpl length. simpl app.
rewrite (base_beads h _ He), !bind_of_Ok.
rewrite alloc_new. simpl length. simpl app.
rewrite (get_seq_new h _ 0 KNdArray c) by done.
rewrite bind_of_Ok, alloc_new. simpl length. simpl app.
rewrite alloc_new. simpl length. simpl app.
unfold gen_score_h.
rewrite (get_obj_new h _ 4 _) by done. rewrite bind_of_Ok.
unfold snapshot. cbn [o_beads o_cuts o_assignments].
rewrite (get_seq_new h _ 2 KList b) by done. rewrite bind_of_Ok.
rewrite (get_seq_new h _ 3 cuts_kind c) by done. rewrite bind_of_Ok.
rewrite (get_seq_new h _ 1 KNdArray a) by done. rewrite !bind_of_Ok.
intros Hg. apply bind_Ok in Hg as ([r' h'] & Hg & [= <- <-]).
apply bind_Ok in Hg as ([r s'] & _ & [= _ <-]).
exists (score s'). split; [done|]. by rewrite insert_new.
Qed.

Lemma cut_neighbor_h_spec (h : heap) (nbs : list loc) (i pos : Z)
  (nb : loc) (h1 : heap) :
built cuts_kind gen_score h0 o b c a h nbs -> 0 <= i -> pos ∉ c ->
cut_neighbor_h cuts_kind gen_score self i pos h = Ok (nb, h1) ->
built cuts_kind gen_score h0 o b c a h1 (nbs ++ [nb]).
Proof.
intros Hb Hi Hpos. pose proof (built_extends _ _ Hb) as He.
unfold cut_neighbor_h. intros Hc.
apply bind_Ok in Hc as ([nb0 h2] & Hn & Hc).
apply new_neighbor_h_spec in Hn as (q & -> & ->); [|done].
rewrite (get_obj_new h _ 4 _) in Hc by done. rewrite bind_of_Ok in Hc.
cbn [o_cuts] in Hc.
rewrite (get_seq_new h _ 3 cuts_kind c) in Hc by done.
rewrite bind_of_Ok in Hc.
apply bind_Ok in Hc as (c' & Hset & Hc).
apply setitem_Ok in Hset as [Hlt ->]; [|done].
rewrite insert_new in Hc. simpl insert in Hc.
unfold gen_score_h in Hc.
rewrite (get_obj_new h _ 4 _) in Hc by done. rewrite bind_of_Ok in Hc.
apply bind_Ok in Hc as ([r h3] & Hg & [= <- <-]).
apply bind_Ok in Hg as (s' & Hsnap & Hg).
apply bind_Ok in Hg as ([r' s''] & Hsc & [= _ <-]).
rewrite insert_new. simpl insert.
unfold snapshot in Hsnap. cbn [o_beads o_cuts o_assignments] in Hsnap.
rewrite (get_seq_new h _ 2 KList b) in Hsnap by done.
rewrite bind_of_Ok in Hsnap.
rewrite (get_seq_new h _ 3 cuts_kind (<[Z.to_nat i := pos]> c)) in Hsnap
  by done.
rewrite bind_of_Ok in Hsnap.
rewrite (get_seq_new h _ 1 KNdArray a) in Hsnap by done.
rewrite bind_of_Ok in Hsnap. injection Hsnap as <-.
apply (built_snoc cuts_kind gen_score h0 o b c a h nbs
         (<[Z.to_nat i := pos]> c) a (score s'') Hb);
  [|by exists q, r', s''].
left. split; [done|].
destruct (lookup_lt_is_Some_2 c (Z.to_nat i)) as [x Hx];
  [unfold len in Hlt; lia|].
exists (Z.to_nat i), x, pos. split; [done|]. split; [|done].
intros ->. apply Hpos. by eapply list_elem_of_lookup_2.
Qed.

Lemma assignment_neighbor_h_spec (h : heap) (nbs : list loc) (i thief : Z)
  (nb : loc) (h1 : heap) :
built cuts_kind gen_score h0 o b c a h nbs -> 0 <= i ->
thief ∉ slice a i (i + 3) ->
assignment_neighbor_h cuts_kind gen_score self i thief h = Ok (nb, h1) ->
built cuts_kind gen_score h0 o b c a h1 (nbs ++ [nb]).
Proof.
intros Hb Hi Hth. pose proof (built_extends _ _ Hb) as He.
unfold assignment_neighbor_h. intros Hc.
apply bind_Ok in Hc as ([nb0 h2] & Hn & Hc).
apply new_neighbor_h_spec in Hn as (q & -> & ->); [|done].
rewrite (get_obj_new h _ 4 _) in Hc by done. rewrite bind_of_Ok in Hc.
cbn [o_assignments] in Hc.
rewrite (get_seq_new h _ 1 KNdArray a) in Hc by done.
rewrite bind_of_Ok in Hc.
apply bind_Ok in Hc as (a' & Hset & Hc).
apply setitem_Ok in Hset as [Hlt ->]; [|done].
rewrite insert_new in Hc. simpl insert in Hc.
unfold gen_score_h in Hc.
rewrite (get_obj_new h _ 4 _) in Hc by done. rewrite bind_of_Ok in Hc.
apply bind_Ok in Hc as ([r h3] & Hg & [= <- <-]).
apply bind_Ok in Hg as (s' & Hsnap & Hg).
apply bind_Ok in Hg as ([r' s''] & Hsc & [= _ <-]).
rewrite insert_new. simpl insert.
unfold snapshot in Hsnap. cbn [o_beads o_cuts o_assignments] in Hsnap.
rewrite (get_seq_new h _ 2 KList b) in Hsnap by done.
rewrite bind_of_Ok in Hsnap.
rewrite (get_seq_new h _ 3 cuts_kind c) in Hsnap by done.
rewrite bind_of_Ok in Hsnap.
rewrite (get_seq_new h _ 1 KNdArray (<[Z.to_nat i := thief]> a)) in Hsnap
  by done.
rewrite bind_of_Ok in Hsnap. injection Hsnap as <-.
apply (built_snoc cuts_kind gen_score h0 o b c a h nbs c
         (<[Z.to_nat i := thief]> a) (score s'') Hb);
  [|by exists q, r', s''].
right. split; [done|].
destruct (lookup_lt_is_Some_2 a (Z.to_nat i)) as [x Hx];
  [unfold len in Hlt; lia|].
exists (Z.to_nat i), x, thief. split; [done|]. split; [|done].
intros ->. apply Hth. rewrite slice_nonneg by lia.
replace (Z.to_nat (i + 3) - Z.to_nat i)%nat with 3%nat by lia.
rewrite (drop_S _ _ _ Hx). simpl. left.
Qed.

Lemma for_each_built {A} (f : A -> heap -> result (list loc * heap))
  (l : list A) :
(forall x h acc ys h1,
   x ∈ l -> built cuts_kind gen_score h0 o b c a h acc -> f x h = Ok (ys, h1) ->
   built cuts_kind gen_score h0 o b c a h1 (acc ++ ys)) ->
forall h acc out h',
  built cuts_kind gen_score h0 o b c a h acc -> for_each f l h = Ok (out, h') ->
  built cuts_kind gen_score h0 o b c a h' (acc ++ out).
Proof.
induction l as [|x l IH]; intros Hf h acc out h' Hb Hfe; simpl in Hfe.
- injection Hfe as <- <-. by rewrite app_nil_r.
- apply bind_Ok in Hfe as ([ys h1] & Hx & Hfe).
  apply bind_Ok in Hfe as ([zs h2] & Hl & [= <- <-]).
  rewrite app_assoc. eapply IH; [|eapply Hf; [left|exact Hb|exact Hx]|exact Hl].
  intros y h3 acc3 ys3 h4 Hy. apply Hf. by right.
Qed.

Lemma base_obj_at (h : heap) (nbs : list loc) :
built cuts_kind gen_score h0 o b c a h nbs -> get_obj self h = Ok o.
Proof.
intros Hb%built_extends. rewrite <- (app_nil_r h). by apply base_obj.
Qed.

Lemma base_cuts_at (h : heap) (nbs : list loc) :
built cuts_kind gen_score h0 o b c a h nbs -> get_seq (o_cuts o) h = Ok (kc, c).
Proof.
intros Hb%built_extends. rewrite <- (app_nil_r h). by apply base_cuts.
Qed.

Lemma base_assignments_at (h : heap) (nbs : list loc) :
built cuts_kind gen_score h0 o b c a h nbs ->
get_seq (o_assignments o) h = Ok (ka, a).
Proof.
intros Hb%built_extends. rewrite <- (app_nil_r h).
by apply base_assignments.
Qed.

Lemma cut_moves_at_h_built (h : heap) (acc : list loc) (i : Z)
  (out : list loc) (h' : heap) :
0 <= i -> built cuts_kind gen_score h0 o b c a h acc ->
cut_moves_at_h cuts_kind gen_score self i h = Ok (out, h') ->
built cuts_kind gen_score h0 o b c a h' (acc ++ out).
Proof.
intros Hi Hb. unfold cut_moves_at_h.
rewrite (base_obj_at _ _ Hb), bind_of_Ok, (base_cuts_at _ _ Hb), bind_of_Ok.
intros Hc. apply bind_Ok in Hc as (pos & _ & Hc).
eapply for_each_built; [|exact Hb|exact Hc].
intros p h2 acc2 ys h3 _ Hb2. cbv beta.
rewrite (base_obj_at _ _ Hb2), bind_of_Ok, (base_cuts_at _ _ Hb2), bind_of_Ok.
destruct (contains p c) eqn:Hp.
- intros [= <- <-]. by rewrite app_nil_r.
- intros Hn. apply bind_Ok in Hn as ([nb h4] & Hn & [= <- <-]).
  eapply cut_neighbor_h_spec; [exact Hb2|exact Hi| |exact Hn].
  by apply contains_false.
Qed.

Lemma window_contains_spec (k k' : seq_kind) (l : loc) (xs : list Z)
    (lo hi thief : Z) (h : heap) :
  get_seq l h = Ok (k', xs) ->
  window_contains thief
    match k with
    | KNdArray => View l lo hi
    | _ => Copy (slice xs lo hi)
    end h
  = Ok (contains thief (slice xs lo hi)).
Proof.
  intros Hl. destruct k; simpl; try done. by rewrite Hl.
Qed.

Lemma assignment_moves_at_h_built (h : heap) (acc : list loc) (i : Z)
  (out : list loc) (h' : heap) :
0 <= i -> built cuts_kind gen_score h0 o b c a h acc ->
assignment_moves_at_h cuts_kind gen_score self i h = Ok (out, h') ->
built cuts_kind gen_score h0 o b c a h' (acc ++ out).
Proof.
intros Hi Hb. unfold assignment_moves_at_h.
rewrite (base_obj_at _ _ Hb), bind_of_Ok.
rewrite (base_assignments_at _ _ Hb), bind_of_Ok.
assert (Hprev : (if i >? 0 then i else 0) = i).
{ destruct (Z.gtb_spec i 0); lia. }
rewrite Hprev. intros Hc.
eapply for_each_built; [|exact Hb|exact Hc].
intros thief h2 acc2 ys h3 _ Hb2. cbv beta. intros Hstep.
apply bind_Ok in Hstep as (inw & Hw & Hstep).
rewrite (window_contains_spec _ _ _ _ _ _ _ _ (base_assignments_at _ _ Hb2))
  in Hw.
injection Hw as <-. destruct (contains thief (slice a i (i + 3))) eqn:Hth.
- injection Hstep as <- <-. by rewrite app_nil_r.
- apply bind_Ok in Hstep as ([nb h4] & Hn & [= <- <-]).
  eapply assignment_neighbor_h_spec; [exact Hb2|exact Hi| |exact Hn].
  by apply contains_false.
Qed.

Lemma get_neighbors_h_built (nbs : list loc) (h' : heap) :
get_neighbors_h cuts_kind gen_score self h0 = Ok (nbs, h') ->
built cuts_kind gen_score h0 o b c a h' nbs.
Proof.
unfold get_neighbors_h.
pose proof (built_nil cuts_kind gen_score h0 o b c a) as Hb0.
rewrite (base_obj_at _ _ Hb0), bind_of_Ok.
intros Hg. apply bind_Ok in Hg as ([cs h1] & Hcs & Hg).
assert (Hb1 : built cuts_kind gen_score h0 o b c a h1 ([] ++ cs)).
{ eapply for_each_built; [|exact Hb0|exact Hcs].
  intros i h2 acc ys h3 Hi%elem_of_range Hb2.
  apply cut_moves_at_h_built; [lia|done]. }
simpl in Hb1.
rewrite (base_obj_at _ _ Hb1), bind_of_Ok in Hg.
rewrite (base_assignments_at _ _ Hb1), bind_of_Ok in Hg.
apply bind_Ok in Hg as ([asg h2] & Hasg & [= <- <-]).
eapply for_each_built; [|exact Hb1|exact Hasg].
intros i h3 acc ys h4 Hi%elem_of_range Hb3.
apply assignment_moves_at_h_built; [lia|done].
Qed.

(** How the store is laid out once [nbs] neighbours are built: the old
  cells first, then one block of five cells per neighbour. *)
Lemma built_layout (h : heap) (nbs : list loc) :
built cuts_kind gen_score h0 o b c a h nbs ->
length h = (length h0 + 5 * length nbs)%nat /\
(forall l, (l < length h0)%nat -> h !! l = h0 !! l) /\
forall (i : nat) (nb : loc), nbs !! i = Some nb ->
  nb = (length h0 + 5 * i + 4)%nat /\
  exists c' a' q,
    ((a' = a /\ one_changed c c') \/ (c' = c /\ one_changed a a')) /\
    (exists q0 r s',
       gen_score (neighbor_state o b c' a' q0) = Ok (r, s') /\
       q = score s') /\
    forall (k : nat) (x : cell),
      neighbor_block cuts_kind (length h0 + 5 * i) o b c c' a' q !! k
      = Some x ->
      h !! (length h0 + 5 * i + k)%nat = Some x.
Proof.
induction 1 as [|h nbs c' a' q Hb (Hlen & Hold & IH) Hch Hsc].
- split; [simpl; lia|]. split; [done|]. intros i nb Hi. done.
- split; [rewrite !length_app; simpl; lia|]. split.
  { intros l Hl. rewrite lookup_app_l by lia. by apply Hold. }
  intros i nb Hi.
  apply lookup_app_Some in Hi as [Hi|[Hge Hi]].
  + destruct (IH i nb Hi) as (-> & c1 & a1 & q1 & Hch1 & Hsc1 & Hcells).
    split; [done|]. exists c1, a1, q1. split; [done|]. split; [done|].
    intros k x Hk. pose proof (Hcells k x Hk) as Hh.
    rewrite lookup_app_l; [done|]. by eapply lookup_lt_Some.
  + apply list_lookup_singleton_Some in Hi as [Hi <-].
    assert (i = length nbs) by lia. subst i.
    split; [lia|]. exists c', a', q. split; [done|]. split; [done|].
    intros k x Hk. rewrite <- Hlen in Hk |- *.
    rewrite lookup_app_r by lia.
    replace (length h + k - length h)%nat with k by lia. done.
Qed.

(** C9.  [get_neighbors], run on an object [self] of a store [h0], leaves
  every cell of [h0] as it was: the base state's beads, cuts,
  assignments and score are unchanged.  Every neighbour returned is a
  new object whose cuts and assignments are new arrays, shared neither
  with the base nor with another neighbour; and its cuts and assignments
  are those of the base but for exactly one cut or exactly one
  assignment, which has a different value, its score being the one
  [gen_score] computes from its own attributes. *)
Theorem get_neighbors_h_copies_and_frames (nbs : list loc) (h' : heap) :
get_neighbors_h cuts_kind gen_score self h0 = Ok (nbs, h') ->
(forall l, (l < length h0)%nat -> h' !! l = h0 !! l) /\
(h' !! self = Some (Obj o) /\
 h' !! o_beads o = Some (Seq kb b) /\
 h' !! o_cuts o = Some (Seq kc c) /\
 h' !! o_assignments o = Some (Seq ka a)) /\
(forall (i : nat) (nb : loc), nbs !! i = Some nb ->
   exists onb b' c' a',
     h' !! nb = Some (Obj onb) /\
     h' !! o_beads onb = Some (Seq KList b') /\
     h' !! o_cuts onb = Some (Seq cuts_kind c') /\
     h' !! o_assignments onb = Some (Seq KNdArray a') /\
     (length h0 <= nb)%nat /\
     (length h0 <= o_cuts onb)%nat /\
     (length h0 <= o_assignments onb)%nat /\
     o_cuts onb <> o_assignments onb /\
     b' = b /\
     ((a' = a /\ one_changed c c') \/ (c' = c /\ one_changed a a')) /\
     (exists q0 r s',
        gen_score (neighbor_state o b c' a' q0) = Ok (r, s') /\
        o_score onb = score s')) /\
(forall (i j : nat) (ni nj : loc) (oi oj : object),
   i <> j -> nbs !! i = Some ni -> nbs !! j = Some nj ->
   h' !! ni = Some (Obj oi) -> h' !! nj = Some (Obj oj) ->
   ni <> nj /\
   o_cuts oi <> o_cuts oj /\
   o_assignments oi <> o_assignments oj /\
   o_cuts oi <> o_assignments oj).
Proof.
intros Hg. apply get_neighbors_h_built in Hg.
destruct (built_layout _ _ Hg) as (Hlen & Hold & Hnb).
split; [exact Hold|]. split.
{ rewrite !Hold by (by eapply lookup_lt_Some). done. }
split.
- intros i nb Hi.
  destruct (Hnb i nb Hi) as (-> & c' & a' & q & Hch & Hsc & Hcells).
  eexists _, b, c', a'.
  split; [exact (Hcells 4%nat _ eq_refl)|]. cbn [o_beads o_cuts o_assignments].
  split; [exact (Hcells 2%nat _ eq_refl)|].
  split; [exact (Hcells 3%nat _ eq_refl)|].
  split; [exact (Hcells 1%nat _ eq_refl)|].
  repeat split; try lia; [exact Hch|exact Hsc].
- intros i j ni nj oi oj Hij Hi Hj Hoi Hoj.
  destruct (Hnb i ni Hi) as (-> & ci & ai & qi & _ & _ & Hci).
  destruct (Hnb j nj Hj) as (-> & cj & aj & qj & _ & _ & Hcj).
  pose proof (Hci 4%nat _ eq_refl) as Hi4. rewrite Hoi in Hi4.
  pose proof (Hcj 4%nat _ eq_refl) as Hj4. rewrite Hoj in Hj4.
  injection Hi4 as ->. injection Hj4 as ->.
  cbn [o_cuts o_assignments]. repeat split; lia.
Qed.
End HeapFacts.

(** On [store_0101] the store-level [get_neighbors] builds the five
    neighbours the value-level one computes. *)
Example store_neighbors_agree :
  exists nbs h',
    HeapNecklace.get_neighbors_h KList ListNecklace.gen_score 3 store_0101
    = Ok (nbs, h') /\
    nbs = [8; 13; 18; 23; 28]%nat /\
    snapshots nbs h' = ListNecklace.get_neighbors necklace_0101.
Proof.
  eexists. eexists. split; [vm_compute; reflexivity|].
  split; [reflexivity|]. vm_compute. reflexivity.
Qed.

Lemma get_neighbors_h_witness :
  exists nbs h',
    store_0101 !! 3%nat
    = Some (HeapNecklace.Obj (HeapNecklace.mkObject 0 4 2 2 4 2 1 2 (24 # 8)))
    /\
    HeapNecklace.get_neighbors_h KList ListNecklace.gen_score 3 store_0101
    = Ok (nbs, h') /\
    (forall l, (l < length store_0101)%nat -> h' !! l = store_0101 !! l).
Proof.
  destruct (HeapNecklace.get_neighbors_h KList ListNecklace.gen_score 3
              store_0101) as [[nbs h']|e] eqn:E;
    [|vm_compute in E; discriminate E].
  exists nbs, h'. split; [reflexivity|]. split; [reflexivity|].
  exact (proj1 (get_neighbors_h_copies_and_frames KList ListNecklace.gen_score
                  store_0101 3 (HeapNecklace.mkObject 0 4 2 2 4 2 1 2 (24 # 8))
                  KList KList KNdArray [0; 1; 0; 1] [1; 2] [0; 1; 0]
                  eq_refl eq_refl eq_refl eq_refl nbs h' E)).
Defined.

(** ** [get_thief_beads] of [necklace.py] on well-formed states *)

Lemma mapM_Ok_map {A B} (f : A -> result B) (g : A -> B) (l : list A) :
  (forall x, x ∈ l -> f x = Ok (g x)) -> mapM f l = Ok (map g l).
Proof.
  induction l as [|x l IH]; intros Hf; simpl; [done|].
  rewrite (Hf x) by left. rewrite bind_of_Ok, IH; [done|].
  intros y Hy. apply Hf. by right.
Qed.

Lemma intervals_lookup (s : Necklace) (j : nat) (lo hi : Z) :
  bounds s !! j = Some (lo, hi) ->
  ListNecklace.intervals s !! j = Some lo /\
  ListNecklace.intervals s !! S j = Some hi.
Proof.
  unfold bounds, ListNecklace.intervals. intros Hj.
  apply lookup_zip_with_Some in Hj as (x & y & [= <- <-] & Hx & Hy).
  split; [|exact Hy].
  change ([0] ++ cuts s ++ [num_beads s])
    with ((0 :: cuts s) ++ [num_beads s]).
  by apply lookup_app_l_Some.
Qed.

Lemma bounds_length (s : Necklace) : length (bounds s) = S (length (cuts s)).
Proof.
  unfold bounds. rewrite length_zip_with, length_app, !length_cons.
  cbn [length]. lia.
Qed.

(** The loop from partition [j] on adds the owned partitions, in order. *)
Lemma thief_beads_loop_owned (s : Necklace) (thief : Z) (k : nat) :
  forall (j : nat) (acc : list Z),
    length (elems (assignments s)) = length (bounds s) ->
    (j + k = length (bounds s))%nat ->
    ListNecklace.thief_beads_loop s
      (EqArray (map (Z.eqb thief) (elems (assignments s))))
      (ListNecklace.intervals s)
      (range (Z.of_nat j) (Z.of_nat (j + k))) acc
    = Ok (acc ++ concat (map (owned (beads s) thief)
                           (drop j (zip (elems (assignments s)) (bounds s))))).
Proof.
  induction k as [|k IH]; intros j acc Hlen Hjk.
  - rewrite Nat.add_0_r, range_empty by lia.
    rewrite drop_ge by (rewrite length_zip_with; lia).
    simpl. by rewrite app_nil_r.
  - rewrite range_cons by lia.
    destruct (lookup_lt_is_Some_2 (elems (assignments s)) j) as [t Ht]; [lia|].
    destruct (lookup_lt_is_Some_2 (bounds s) j) as [[lo hi] Hb]; [lia|].
    destruct (intervals_lookup s j lo hi Hb) as [Hlo Hhi].
    assert (Hz : zip (elems (assignments s)) (bounds s) !! j
                 = Some (t, (lo, hi))).
    { apply lookup_zip_with_Some. by exists t, (lo, hi). }
    rewrite (drop_S _ _ _ Hz).
    cbn [ListNecklace.thief_beads_loop].
    assert (Hm : getitem (map (Z.eqb thief) (elems (assignments s)))
                   (Z.of_nat j) = Ok (thief =? t)).
    { apply getitem_Ok; [lia|].
      by rewrite Nat2Z.id, list_lookup_fmap, Ht. }
    rewrite Hm, bind_of_Ok.
    replace (Z.of_nat j + 1) with (Z.of_nat (S j)) by lia.
    replace (Z.of_nat (j + S k)) with (Z.of_nat (S j + k)) by lia.
    cbn [map concat]. unfold owned at 1. cbn [fst snd].
    destruct (thief =? t).
    + assert (Hl : getitem (ListNecklace.intervals s) (Z.of_nat j) = Ok lo)
        by (apply getitem_Ok; [lia|]; by rewrite Nat2Z.id).
      assert (Hh : getitem (ListNecklace.intervals s) (Z.of_nat (S j)) = Ok hi)
        by (apply getitem_Ok; [lia|]; by rewrite Nat2Z.id).
      rewrite Hl, bind_of_Ok, Hh, bind_of_Ok.
      rewrite IH by (done || lia). by rewrite app_assoc.
    + rewrite IH by (done || lia). done.
Qed.

Lemma list_get_thief_beads_owned (s : Necklace) (thief : Z) :
  kind (assignments s) = KNdArray ->
  len (elems (assignments s)) = len (cuts s) + 1 ->
  ListNecklace.get_thief_beads s thief
  = Ok (concat (map (owned (beads s) thief)
                  (zip (elems (assignments s)) (bounds s)))).
Proof.
  intros Hk Hlen. unfold ListNecklace.get_thief_beads, assignments_eq.
  rewrite Hk.
  assert (Hl : length (elems (assignments s)) = length (bounds s)).
  { rewrite bounds_length. unfold len in Hlen. lia. }
  assert (Hr : range 0 (len (ListNecklace.intervals s) - 1)
               = range (Z.of_nat 0) (Z.of_nat (0 + length (bounds s)))).
  { f_equal. unfold len, ListNecklace.intervals. rewrite bounds_length.
    rewrite !length_app. simpl. lia. }
  rewrite Hr, thief_beads_loop_owned by (done || lia).
  by rewrite drop_0.
Qed.

(** Consecutive slices between ascending bounds tile the list. *)
Lemma slices_tile {A} (l : list A) (cs : list Z) (lo : Z) :
  0 <= lo -> StronglySorted Z.le (lo :: cs) ->
  Forall (fun c => c <= len l) (lo :: cs) ->
  concat (map (fun p => slice l p.1 p.2) (zip (lo :: cs) (cs ++ [len l])))
  = drop (Z.to_nat lo) l.
Proof.
  revert lo. induction cs as [|c cs IH]; intros lo Hlo Hs Hb.
  - simpl. rewrite app_nil_r. rewrite slice_nonneg by (unfold len; lia).
    apply take_ge. rewrite length_drop. unfold len. lia.
  - apply StronglySorted_inv in Hs as [Hs Hle].
    apply Forall_cons in Hle as [Hlc _].
    apply Forall_cons in Hb as [_ Hb].
    change (zip (lo :: c :: cs) ((c :: cs) ++ [len l]))
      with ((lo, c) :: zip (c :: cs) (cs ++ [len l])).
    cbn [map concat fst snd]. rewrite IH by (done || lia).
    rewrite slice_nonneg by lia.
    rewrite <- (take_drop (Z.to_nat c - Z.to_nat lo) (drop (Z.to_nat lo) l))
      at 2.
    f_equal. rewrite drop_drop. f_equal. lia.
Qed.

Lemma concat_map_app_perm {A B} (f g : A -> list B) (l : list A) :
  concat (map (fun x => f x ++ g x) l)
  ≡ₚ concat (map f l) ++ concat (map g l).
Proof.
  induction l as [|x l IH]; simpl; [done|].
  rewrite IH. rewrite <- !app_assoc. apply Permutation_app_head.
  rewrite !app_assoc. apply Permutation_app_tail. apply Permutation_app_comm.
Qed.

Lemma concat_map_select {B} (a : Z) (v : list B) (l : list Z) :
  NoDup l -> a ∈ l ->
  concat (map (fun t => if t =? a then v else []) l) = v.
Proof.
  induction 1 as [|x l Hx Hnd IH]; intros Ha; [by apply elem_of_nil in Ha|].
  simpl. destruct (Z.eqb_spec x a) as [->|Hne].
  - assert (Hnil : concat (map (fun t => if t =? a then v else []) l) = []).
    { clear IH Ha Hnd. induction l as [|y l IH]; simpl; [done|].
      apply not_elem_of_cons in Hx as [Hay Hx].
      destruct (Z.eqb_spec y a); [congruence|]. by apply IH. }
    by rewrite Hnil, app_nil_r.
  - simpl. apply IH. apply elem_of_cons in Ha as [->|Ha]; done.
Qed.

(** Summed over the thieves, the owned partitions are all the
    partitions. *)
Lemma owned_by_all {B} (part : Z * Z -> list B) (n : Z)
    (ps : list (Z * (Z * Z))) :
  Forall (fun p => 0 <= p.1 < n) ps ->
  concat (map (fun t => concat (map (fun p => if t =? p.1 then part p.2
                                             else []) ps))
            (range 0 n))
  ≡ₚ concat (map (fun p => part p.2) ps).
Proof.
  induction 1 as [|p ps Hp _ IH]; simpl.
  - induction (range 0 n) as [|t l IHl]; simpl; done.
  - rewrite (concat_map_app_perm
               (fun t => if t =? p.1 then part p.2 else [])
               (fun t => concat (map (fun p0 => if t =? p0.1 then part p0.2
                                               else []) ps))).
    rewrite IH. apply Permutation_app_tail.
    rewrite concat_map_select; [done|apply NoDup_range|].
    by apply elem_of_range.
Qed.

Lemma slice_map {A B} (f : A -> B) (l : list A) (lo hi : Z) :
  slice (map f l) lo hi = map f (slice l lo hi).
Proof.
  unfold slice, len. rewrite length_map.
  by rewrite fmap_take, fmap_drop.
Qed.

Lemma beads_of_labels (s : Necklace) :
  num_beads s = len (beads s) ->
  map (bead_at s) (range 0 (num_beads s)) = beads s.
Proof.
  intros Hn. apply list_eq. intros i. rewrite list_lookup_fmap.
  destruct (decide (i < length (beads s))%nat) as [Hi|Hi].
  - rewrite range_lookup by (rewrite Hn; unfold len; lia).
    simpl. unfold bead_at.
    replace (Z.to_nat (0 + Z.of_nat i)) with i by lia.
    destruct (lookup_lt_is_Some_2 _ _ Hi) as [x ->]. done.
  - rewrite (lookup_ge_None_2 (beads s)) by lia.
    rewrite lookup_ge_None_2; [done|].
    rewrite length_range, Hn. unfold len. lia.
Qed.

Lemma owned_map (f : Z -> Z) (l : list Z) (t : Z) (ps : list (Z * (Z * Z))) :
  concat (map (owned (map f l) t) ps) = map f (concat (map (owned l t) ps)).
Proof.
  induction ps as [|p ps IH]; simpl; [done|].
  rewrite map_app, IH. f_equal. unfold owned.
  destruct (t =? p.1); [|done]. apply slice_map.
Qed.

Lemma owned_none (l : list Z) (t : Z) (ps : list (Z * (Z * Z))) :
  Forall (fun p => p.1 ≠ t) ps -> concat (map (owned l t) ps) = [].
Proof.
  induction 1 as [|p ps Hp _ IH]; simpl; [done|].
  rewrite IH, app_nil_r. unfold owned.
  destruct (Z.eqb_spec t p.1); [congruence|done].
Qed.

(** X8.  On a well-formed state [get_thief_beads] is defined for every thief,
    also for one who owns nothing; every bead index is handed to exactly
    one thief, and the lists therefore hold [num_beads] beads in all. *)
Lemma list_partitions_cover_exactly (s : Necklace) :
  valid_state s ->
  exists indices : list (list Z),
    mapM (ListNecklace.get_thief_beads (label_beads s))
      (range 0 (num_thieves s)) = Ok indices /\
    concat indices ≡ₚ range 0 (num_beads s) /\
    mapM (ListNecklace.get_thief_beads s) (range 0 (num_thieves s))
    = Ok (map (map (bead_at s)) indices) /\
    len (concat (map (map (bead_at s)) indices)) = num_beads s /\
    forall thief, thief ∉ elems (assignments s) ->
                  ListNecklace.get_thief_beads s thief = Ok [].
Proof.
  intros (Hn & Hsorted & Hrange & Hk & Hlen & Hthieves).
  set (ps := zip (elems (assignments s)) (bounds s)).
  set (labels := range 0 (num_beads s)).
  exists (map (fun t => concat (map (owned labels t) ps))
            (range 0 (num_thieves s))).
  assert (Hperm :
    concat (map (fun t => concat (map (owned labels t) ps))
              (range 0 (num_thieves s))) ≡ₚ labels).
  { unfold owned.
    rewrite (owned_by_all (fun p => slice labels p.1 p.2) (num_thieves s) ps).
    - assert (Hsnd : map (fun p : Z * (Z * Z) => slice labels p.2.1 p.2.2) ps
                     = map (fun p => slice labels p.1 p.2) (bounds s)).
      { unfold ps. rewrite <- (map_map snd (fun p => slice labels p.1 p.2)).
        f_equal. apply snd_zip. rewrite bounds_length.
        unfold len in Hlen. lia. }
      rewrite Hsnd. unfold bounds.
      assert (Hnl : num_beads s = len labels).
      { unfold labels. rewrite len_range; [done|]. rewrite Hn.
        apply len_nonneg. }
      rewrite Hnl at 1. rewrite slices_tile; [by rewrite drop_0|lia| |].
      + constructor.
        * eapply StronglySorted_weaken; [|exact Hsorted]. intros; lia.
        * eapply Forall_impl; [exact Hrange|]. simpl. lia.
      + constructor; [apply len_nonneg|].
        eapply Forall_impl; [exact Hrange|]. simpl. lia.
    - unfold ps. apply Forall_forall. intros [t bd] Hin. simpl.
      apply elem_of_zip_l in Hin. rewrite Forall_forall in Hthieves.
      by apply Hthieves. }
  split; [|split; [exact Hperm|split; [|split]]].
  - apply mapM_Ok_map. intros t _.
    by rewrite (list_get_thief_beads_owned (label_beads s) t Hk Hlen).
  - rewrite map_map. apply mapM_Ok_map. intros t _.
    rewrite (list_get_thief_beads_owned s t Hk Hlen). f_equal.
    fold ps. rewrite <- (beads_of_labels s Hn) at 1. fold labels.
    apply owned_map.
  - rewrite <- concat_map. unfold len.
    rewrite length_map, (Permutation_length Hperm).
    unfold labels. rewrite length_range, Hn. unfold len. lia.
  - intros thief Hnot.
    rewrite (list_get_thief_beads_owned s thief Hk Hlen). f_equal.
    fold ps. apply owned_none.
    apply Forall_forall. intros [t bd] Hin. simpl.
    apply elem_of_zip_l in Hin. congruence.
Qed.

(** ** What the two move families produce *)

Section NeighborFacts.
Variable construct : beads_arg -> Z -> Z -> list Z -> pyseq -> result Necklace.
Variable gen_score : Necklace -> result (Q * Necklace).

(** Both files' [gen_score] only set the score, and both constructors
    store the arguments they are given. *)
Hypothesis gen_score_fields :
  forall s r s', gen_score s = Ok (r, s') -> exists q, s' = set_score s q.
Hypothesis construct_fields :
  forall b n mm c a s,
    construct (IntBeads b) n mm c a = Ok s ->
    beads s = b /\ cuts s = c /\ assignments s = a.

Lemma cut_neighbor_fields (s nb : Necklace) (i pos : Z) :
  0 <= i -> cut_neighbor construct gen_score s i pos = Ok nb ->
  i < len (cuts s) /\
  cuts nb = <[Z.to_nat i := pos]> (cuts s) /\
  elems (assignments nb) = elems (assignments s) /\
  beads nb = beads s.
Proof.
  intros Hi Hc. unfold cut_neighbor, copy_of in Hc.
  apply bind_Ok in Hc as (nb0 & Hcon & Hc).
  apply construct_fields in Hcon as (Hb & Hcu & Ha).
  apply bind_Ok in Hc as (c' & Hset & Hc).
  apply setitem_Ok in Hset as [Hlt ->]; [|done].
  apply bind_Ok in Hc as ([r s'] & Hg & [= <-]).
  apply gen_score_fields in Hg as [q ->]. simpl.
  rewrite Hcu in *. rewrite Ha, Hb. done.
Qed.

Lemma assignment_neighbor_fields (s nb : Necklace) (i thief : Z) :
  0 <= i -> assignment_neighbor construct gen_score s i thief = Ok nb ->
  i < len (elems (assignments s)) /\
  elems (assignments nb) = <[Z.to_nat i := thief]> (elems (assignments s)) /\
  cuts nb = cuts s /\
  beads nb = beads s.
Proof.
  intros Hi Hc. unfold assignment_neighbor, copy_of in Hc.
  apply bind_Ok in Hc as (nb0 & Hcon & Hc).
  apply construct_fields in Hcon as (Hb & Hcu & Ha).
  apply bind_Ok in Hc as (a' & Hset & Hc).
  apply setitem_Ok in Hset as [Hlt ->]; [|done].
  apply bind_Ok in Hc as ([r s'] & Hg & [= <-]).
  apply gen_score_fields in Hg as [q ->]. simpl.
  rewrite Ha in *. simpl in *. done.
Qed.

(** The cut-move family at cut [i]: one neighbour for each free
    position within [max_move] of the old one, in ascending order. *)
Lemma cut_moves_at_spec (s : Necklace) (i : Z) (nbs : list Necklace) :
  0 <= i -> cut_moves_at construct gen_score s i = Ok nbs ->
  exists old,
    cuts s !! Z.to_nat i = Some old /\
    map cuts nbs
    = map (fun pos => <[Z.to_nat i := pos]> (cuts s)) (cut_candidates s old) /\
    Forall (fun nb => elems (assignments nb) = elems (assignments s) /\
                      beads nb = beads s) nbs.
Proof.
  intros Hi Hc. unfold cut_moves_at in Hc.
  apply bind_Ok in Hc as (old & Hold & Hc).
  apply getitem_Ok in Hold; [|done]. exists old. split; [done|].
  apply mapM_Ok_Forall2 in Hc.
  induction Hc as [|pos nb ps nbs Hnb _ IH]; simpl; [done|].
  apply cut_neighbor_fields in Hnb as (_ & -> & Ha & Hb); [|done].
  destruct IH as [-> IH]. split; [done|]. by constructor.
Qed.

(** The assignment-change family at partition [i]: one neighbour for
    each thief outside the window, in ascending order. *)
Lemma assignment_moves_at_spec (s : Necklace) (i : Z) (nbs : list Necklace) :
  0 <= i -> assignment_moves_at construct gen_score s i = Ok nbs ->
  map (fun nb => elems (assignments nb)) nbs
  = map (fun thief => <[Z.to_nat i := thief]> (elems (assignments s)))
      (assignment_candidates s i) /\
  Forall (fun nb => cuts nb = cuts s /\ beads nb = beads s) nbs.
Proof.
  intros Hi Hc. unfold assignment_moves_at in Hc.
  apply mapM_Ok_Forall2 in Hc.
  induction Hc as [|t nb ts nbs Hnb _ IH]; simpl; [done|].
  apply assignment_neighbor_fields in Hnb as (_ & -> & Hcu & Hb); [|done].
  destruct IH as [-> IH]. split; [done|]. by constructor.
Qed.
End NeighborFacts.

Lemma elem_of_cut_candidates (s : Necklace) (old pos : Z) :
  pos ∈ cut_candidates s old <->
  (pos ∉ cuts s) /\
  Z.max 0 (old - max_move s) <= pos < Z.min (num_beads s) (old + max_move s).
Proof.
  unfold cut_candidates. rewrite list_elem_of_filter, elem_of_range.
  rewrite contains_false.
  destruct (Z.gtb_spec (old - max_move s) 0),
    (Z.ltb_spec (old + max_move s) (num_beads s)); split; intros [? ?];
    split; (done || lia).
Qed.

(** The thieves offered for partition [i] are those in range that do not
    own partition [i], [i + 1] or [i + 2]. *)
Lemma elem_of_assignment_candidates (s : Necklace) (i thief : Z) :
  0 <= i ->
  thief ∈ assignment_candidates s i <->
  0 <= thief < num_thieves s /\
  thief ∉ slice (elems (assignments s)) i (i + 3).
Proof.
  intros Hi. unfold assignment_candidates.
  rewrite list_elem_of_filter, elem_of_range, contains_false.
  rewrite cannot_assign_window by done. tauto.
Qed.

Lemma elem_of_slice3 (l : list Z) (i x : Z) :
  0 <= i ->
  x ∈ slice l i (i + 3) <->
  l !! Z.to_nat i = Some x \/ l !! Z.to_nat (i + 1) = Some x \/
  l !! Z.to_nat (i + 2) = Some x.
Proof.
  intros Hi. rewrite slice_nonneg by lia.
  replace (Z.to_nat (i + 3) - Z.to_nat i)%nat with 3%nat by lia.
  replace (Z.to_nat (i + 1)) with (S (Z.to_nat i)) by lia.
  replace (Z.to_nat (i + 2)) with (S (S (Z.to_nat i))) by lia.
  rewrite list_elem_of_lookup. split.
  - intros [k Hk]. apply lookup_take_Some in Hk as [Hk Hlt].
    rewrite lookup_drop in Hk.
    destruct k as [|[|[|k]]]; [| | |lia].
    + left. by rewrite Nat.add_0_r in Hk.
    + right. left. by rewrite Nat.add_1_r in Hk.
    + right. right. by replace (Z.to_nat i + 2)%nat
        with (S (S (Z.to_nat i))) in Hk by lia.
  - intros [H|[H|H]].
    + exists 0%nat. rewrite lookup_take_lt by lia.
      by rewrite lookup_drop, Nat.add_0_r.
    + exists 1%nat. rewrite lookup_take_lt by lia.
      by rewrite lookup_drop, Nat.add_1_r.
    + exists 2%nat. rewrite lookup_take_lt by lia.
      rewrite lookup_drop.
      by replace (Z.to_nat i + 2)%nat with (S (S (Z.to_nat i))) by lia.
Qed.

Lemma list_gen_score_fields (s : Necklace) (r : Q) (s' : Necklace) :
  ListNecklace.gen_score s = Ok (r, s') -> exists q, s' = set_score s q.
Proof.
  unfold ListNecklace.gen_score. destruct (np_unique_counts _).
  intros Hg. apply bind_Ok in Hg as (q & _ & [= _ <-]). by exists q.
Qed.

Lemma np_gen_score_fields (s : Necklace) (r : Q) (s' : Necklace) :
  NpNecklace.gen_score s = Ok (r, s') -> exists q, s' = set_score s q.
Proof.
  unfold NpNecklace.gen_score. destruct (np_unique_counts _).
  intros Hg. apply bind_Ok in Hg as (tb & _ & Hg).
  apply bind_Ok in Hg as (q & _ & [= _ <-]). by exists q.
Qed.

Lemma list_construct_fields (b : list Z) (n mm : Z) (c : list Z) (a : pyseq)
    (s : Necklace) :
  ListNecklace.construct (IntBeads b) n mm c a = Ok s ->
  beads s = b /\ cuts s = c /\ assignments s = a.
Proof.
  unfold ListNecklace.construct. intros Hc.
  apply bind_Ok in Hc as ([r s'] & Hg & [= <-]).
  by apply list_gen_score_fields in Hg as [q ->].
Qed.

Lemma np_construct_fields (b : list Z) (n mm : Z) (c : list Z) (a : pyseq)
    (s : Necklace) :
  NpNecklace.construct (IntBeads b) n mm c a = Ok s ->
  beads s = b /\ cuts s = c /\ assignments s = a.
Proof.
  unfold NpNecklace.construct. intros Hc.
  apply bind_Ok in Hc as ([r s'] & Hg & [= <-]).
  by apply np_gen_score_fields in Hg as [q ->].
Qed.

Lemma elem_of_insert_inv {A} (l : list A) (i : nat) (x y : A) :
  y ∈ <[i := x]> l -> y = x \/ y ∈ l.
Proof.
  revert i. induction l as [|a l IH]; intros i; [simpl; auto|].
  destruct i as [|i]; simpl.
  - intros [->|Hy]%elem_of_cons; [by left|right; by right].
  - intros [->|Hy]%elem_of_cons; [right; left|].
    destruct (IH i Hy); [by left|right; by right].
Qed.

Lemma NoDup_insert_fresh {A} (l : list A) (i : nat) (x : A) :
  NoDup l -> x ∉ l -> NoDup (<[i := x]> l).
Proof.
  revert i. induction l as [|a l IH]; intros i Hnd Hx; [done|].
  apply NoDup_cons in Hnd as [Ha Hnd].
  apply not_elem_of_cons in Hx as [Hxa Hx].
  destruct i as [|i]; simpl; apply NoDup_cons.
  - done.
  - split; [|by apply IH].
    intros [->|Hin]%elem_of_insert_inv; done.
Qed.


(** X21.  The assignment-change family offers, for partition [i], exactly the
    thieves in range who own none of the partitions [i], [i + 1],
    [i + 2], one neighbour each; the owner of partition [i - 1] is not
    excluded. *)
Lemma list_assignment_moves_window (s : Necklace) (i : Z)
    (nbs : list Necklace) :
  0 <= i ->
  assignment_moves_at ListNecklace.construct ListNecklace.gen_score s i
  = Ok nbs ->
  map (fun nb => elems (assignments nb)) nbs
  = map (fun thief => <[Z.to_nat i := thief]> (elems (assignments s)))
      (assignment_candidates s i) /\
  NoDup (assignment_candidates s i) /\
  forall thief,
    thief ∈ assignment_candidates s i <->
    0 <= thief < num_thieves s /\
    elems (assignments s) !! Z.to_nat i ≠ Some thief /\
    elems (assignments s) !! Z.to_nat (i + 1) ≠ Some thief /\
    elems (assignments s) !! Z.to_nat (i + 2) ≠ Some thief.
Proof.
  intros Hi Hc.
  destruct (assignment_moves_at_spec _ _ list_gen_score_fields
              list_construct_fields s i nbs Hi Hc) as [Hmap _].
  split; [exact Hmap|]. split.
  - unfold assignment_candidates. apply NoDup_filter, NoDup_range.
  - intros thief. rewrite elem_of_assignment_candidates by done.
    rewrite elem_of_slice3 by done. tauto.
Qed.

(** ** The random cuts of [necklace.py] *)

Lemma not_elem_of_insert_over {A} (l : list A) (j : nat) (x y : A) :
  NoDup l -> l !! j = Some x -> x ≠ y -> x ∉ <[j := y]> l.
Proof.
  intros Hnd Hj Hxy Hin. apply list_elem_of_lookup in Hin as [k Hk].
  destruct (decide (k = j)) as [->|Hkj].
  - rewrite list_lookup_insert_eq in Hk by (by eapply lookup_lt_Some).
    congruence.
  - rewrite list_lookup_insert_ne in Hk by done.
    apply Hkj. by eapply NoDup_lookup.
Qed.

(** One pick: the element taken leaves the pool, the others stay. *)
Lemma pool_after_pick (pool : list Z) (j : nat) (x : Z) :
  NoDup pool -> pool !! j = Some x ->
  let pool' := removelast (<[j := List.last pool 0]> pool) in
  NoDup pool' /\ (x ∉ pool') /\ (forall y, y ∈ pool' -> y ∈ pool) /\
  S (length pool') = length pool.
Proof.
  intros Hnd Hj.
  destruct (exists_last (l := pool)) as (init & lst & ->).
  { intros ->. done. }
  rewrite last_last.
  apply NoDup_app in Hnd as (Hinit & Hdisj & _).
  assert (Hlst : lst ∉ init).
  { intros Hin. apply (Hdisj lst Hin). left. }
  destruct (decide (j < length init)%nat) as [Hlt|Hge].
  - rewrite insert_app_l by done. rewrite removelast_last.
    rewrite lookup_app_l in Hj by done.
    assert (Hx : x ≠ lst).
    { intros ->. apply Hlst. by eapply list_elem_of_lookup_2. }
    repeat split.
    + by apply NoDup_insert_fresh.
    + by apply not_elem_of_insert_over.
    + intros y [->|Hy]%elem_of_insert_inv; apply elem_of_app;
        [right; left|by left].
    + rewrite length_insert, length_app. simpl. lia.
  - assert (j = length init).
    { apply lookup_lt_Some in Hj. rewrite length_app in Hj. simpl in Hj. lia. }
    subst j. rewrite lookup_app_r in Hj by lia.
    rewrite Nat.sub_diag in Hj. injection Hj as <-.
    rewrite insert_app_r_alt by lia. rewrite Nat.sub_diag. simpl.
    rewrite removelast_last. repeat split; try done.
    + intros y Hy. apply elem_of_app. by left.
    + rewrite length_app. simpl. lia.
Qed.

Lemma sample_pool_distinct (k : nat) :
  forall (pool : list Z) (g : RNG),
    NoDup pool -> (k <= length pool)%nat ->
    NoDup (sample_pool k pool g).1 /\
    forall x, x ∈ (sample_pool k pool g).1 -> x ∈ pool.
Proof.
  induction k as [|k IH]; intros pool g Hnd Hk.
  - simpl. split; [constructor|]. by intros x ?%elem_of_nil.
  - cbn [sample_pool].
    pose proof (randbelow_lt (length pool) g ltac:(lia)) as Hj.
    destruct (randbelow (length pool) g) as [j g1]. simpl in Hj.
    destruct (lookup_lt_is_Some_2 pool j Hj) as [x Hx]. rewrite Hx.
    destruct (pool_after_pick pool j x Hnd Hx) as (Hnd' & Hfresh & Hsub & Hlen).
    destruct (IH (removelast (<[j := List.last pool 0]> pool)) g1 Hnd'
                ltac:(lia)) as [Hr Hin].
    destruct (sample_pool k _ g1) as [r g2]. simpl in *. split.
    + apply NoDup_cons. split; [|done]. intros Hxr. apply Hfresh. auto.
    + intros y [->|Hy]%elem_of_cons.
      * by eapply list_elem_of_lookup_2.
      * auto.
Qed.

Lemma sorted_le_NoDup_lt (l : list Z) :
  StronglySorted Z.le l -> NoDup l -> StronglySorted Z.lt l.
Proof.
  induction 1 as [|x l Hs IH Hx]; intros Hnd; [constructor|].
  apply NoDup_cons in Hnd as [Hxl Hnd]. constructor; [auto|].
  apply Forall_forall. intros y Hy. rewrite Forall_forall in Hx.
  specialize (Hx y Hy). assert (x ≠ y) by congruence. lia.
Qed.

(** The cuts [necklace.py] draws are [num_cuts] distinct positions in
    [[0, num_beads)], in strictly ascending order. *)
Lemma list_gen_cuts_sorted_distinct (num_beads num_cuts : Z) (g g' : RNG)
    (c : list Z) :
  ListNecklace.gen_cuts num_beads num_cuts g = Ok (c, g') ->
  len c = num_cuts /\
  StronglySorted Z.lt c /\
  Forall (fun x => 0 <= x < num_beads) c.
Proof.
  unfold ListNecklace.gen_cuts, random_sample. intros Hc.
  destruct ((0 <=? num_cuts) && (num_cuts <=? len (range 0 num_beads)))
    eqn:Hk; [|done].
  apply andb_prop in Hk as [H0 Hle].
  apply Z.leb_le in H0, Hle. unfold len in Hle.
  pose proof (sample_pool_length (Z.to_nat num_cuts) (range 0 num_beads) g)
    as Hlen.
  destruct (sample_pool_distinct (Z.to_nat num_cuts) (range 0 num_beads) g
              (NoDup_range _ _) ltac:(lia)) as [Hnd Hin].
  destruct (sample_pool _ _ g) as [r g1]. simpl in *.
  injection Hc as <- <-.
  split; [|split].
  - unfold len, sorted. rewrite sorted_by_length. lia.
  - apply sorted_le_NoDup_lt; [apply sorted_Z_sorted|].
    by rewrite (sorted_Z_perm r).
  - apply Forall_forall. intros x Hx.
    rewrite (sorted_Z_perm r) in Hx. apply Hin in Hx.
    by apply elem_of_range in Hx.
Qed.

(** ** The random assignments, and the random cuts of [npnecklace.py] *)

Lemma random_choice_inv (l : list Z) (g g' : RNG) (x : Z) :
  random_choice l g = Ok (x, g') -> x ∈ l.
Proof.
  unfold random_choice. destruct l as [|y l]; [done|].
  destruct (randbelow (length (y :: l)) g) as [j g1].
  destruct ((y :: l) !! j) as [z|] eqn:Hz; [|done].
  intros [= <- <-]. by eapply list_elem_of_lookup_2.
Qed.

Lemma random_choice_Raise (l : list Z) (g : RNG) (e : exn) :
  random_choice l g = Raise e -> l = [] /\ e = IndexError.
Proof.
  intros Hr. destruct l as [|y l]; [by injection Hr as <-|].
  destruct (random_choice_Ok (y :: l) g) as (x & g' & Hx & _); [done|].
  congruence.
Qed.

Lemma adjacent_differ_cons (a : Z) (r : list Z) :
  (forall y, head r = Some y -> a <> y) -> adjacent_differ r ->
  adjacent_differ (a :: r).
Proof.
  intros Hh Hr [|i] x y Hx Hy; simpl in *.
  - injection Hx as <-. apply Hh. by destruct r.
  - by apply (Hr i).
Qed.

(** The loop of [gen_assignments]: every pick is a thief, and no pick
    repeats the one before it. *)
Lemma gen_assignments_loop_spec (k : nat) (all : list Z) :
  forall (possible : list Z) (g g' : RNG) (r : list Z),
    gen_assignments_loop k all possible g = Ok (r, g') ->
    (forall x, x ∈ possible -> x ∈ all) ->
    length r = k /\
    Forall (fun x => x ∈ all) r /\
    (forall x, head r = Some x -> x ∈ possible) /\
    adjacent_differ r.
Proof.
  induction k as [|k IH]; intros possible g g' r Hl Hsub; simpl in Hl.
  - injection Hl as <- <-. repeat split; [constructor|done|].
    intros i x y Hx. done.
  - apply bind_Ok in Hl as ([a g1] & Ha & Hl).
    apply bind_Ok in Hl as ([r' g2] & Hr & [= <- <-]).
    apply random_choice_inv in Ha.
    destruct (IH _ _ _ _ Hr) as (Hlen & Hall & Hhead & Hadj).
    { by intros x [_ Hx]%list_elem_of_filter. }
    split; [simpl; lia|]. split; [constructor; auto|]. split.
    + by intros x [= <-].
    + apply adjacent_differ_cons; [|done].
      intros y Hy. apply Hhead in Hy.
      by apply list_elem_of_filter in Hy as [Hne _].
Qed.

(** The two ways [gen_assignments] can fail, and what it returns. *)
Lemma gen_assignments_cases (num_thieves num_cuts : Z) (g : RNG) :
  match gen_assignments num_thieves num_cuts g with
  | Ok (a, _) =>
      -1 <= num_cuts /\ (1 <= num_cuts -> 2 <= num_thieves) /\
      kind a = KNdArray /\
      len (elems a) = num_cuts + 1 /\
      (0 <= num_cuts -> elems a !! 0%nat = Some 0) /\
      (1 <= num_thieves ->
       Forall (fun t => 0 <= t < num_thieves) (elems a)) /\
      adjacent_differ (elems a)
  | Raise e =>
      (num_cuts < -1 /\ e = ValueError) \/
      (1 <= num_cuts /\ num_thieves <= 1 /\ e = IndexError)
  end.
Proof.
  unfold gen_assignments.
  destruct (Z.ltb_spec (num_cuts + 1) 0) as [Hneg|Hnn].
  { left. split; [lia|done]. }
  destruct (Z.eqb_spec (num_cuts + 1) 0) as [Hz|Hnz].
  { simpl. repeat split; try lia; try done.
    all: try (intros _; constructor).
    all: try (intros i x y Hx; done). }
  destruct (gen_assignments_loop (Z.to_nat num_cuts) (range 0 num_thieves)
              (range 1 num_thieves) g) as [[r g']|e] eqn:Hl.
  - rewrite bind_of_Ok.
    destruct (gen_assignments_loop_spec _ _ _ _ _ _ Hl)
      as (Hlen & Hall & Hhead & Hadj).
    { intros x Hx%elem_of_range. apply elem_of_range. lia. }
    simpl. split; [lia|]. split.
    { intros Hk. destruct (Z.to_nat num_cuts) as [|k] eqn:Ek; [lia|].
      simpl in Hl. apply bind_Ok in Hl as ([a g1] & Ha & _).
      apply random_choice_inv, elem_of_range in Ha. lia. }
    split; [done|]. split; [unfold len; simpl; lia|].
    split; [done|]. split.
    + intros Hn. constructor; [lia|].
      eapply Forall_impl; [exact Hall|]. intros x Hx%elem_of_range. lia.
    + apply adjacent_differ_cons; [|done].
      intros y Hy. apply Hhead, elem_of_range in Hy. lia.
  - rewrite bind_of_Raise. right.
    destruct (Z.le_gt_cases num_thieves 1) as [Hn|Hn].
    + destruct (Z.to_nat num_cuts) as [|k] eqn:Ek; [done|].
      rewrite (range_empty 1 num_thieves) in Hl by lia. simpl in Hl.
      injection Hl as <-. split; [lia|done].
    + exfalso.
      destruct (gen_assignments_Ok num_thieves num_cuts g)
        as (a' & g' & Hok & _); [lia|lia|].
      unfold gen_assignments in Hok.
      destruct (Z.ltb_spec (num_cuts + 1) 0); [lia|].
      destruct (Z.eqb_spec (num_cuts + 1) 0); [lia|].
      rewrite Hl, bind_of_Raise in Hok. done.
Qed.

(** X4.  [gen_assignments] (both files).  It fails in two cases only: a
    negative length for the array of zeros, and a first pick among no
    thieves.  What it returns is an array holding one entry per
    partition; the first partition goes to thief [0], every entry is a
    thief, and no two neighbouring partitions go to the same thief. *)
Theorem gen_assignments_alternate (num_thieves num_cuts : Z) (g : RNG) :
  match gen_assignments num_thieves num_cuts g with
  | Ok (a, _) =>
      -1 <= num_cuts /\ (1 <= num_cuts -> 2 <= num_thieves) /\
      kind a = KNdArray /\
      len (elems a) = num_cuts + 1 /\
      (0 <= num_cuts -> elems a !! 0%nat = Some 0) /\
      (1 <= num_thieves ->
       Forall (fun t => 0 <= t < num_thieves) (elems a)) /\
      adjacent_differ (elems a)
  | Raise e =>
      (num_cuts < -1 /\ e = ValueError) \/
      (1 <= num_cuts /\ num_thieves <= 1 /\ e = IndexError)
  end.
Proof. apply gen_assignments_cases. Qed.

(** ** [gen_cuts] of [npnecklace.py] *)

Lemma randint_list_spec (k n : nat) (g : RNG) :
  (0 < n)%nat ->
  length (randint_list k n g).1 = k /\
  Forall (fun x => 0 <= x < Z.of_nat n) (randint_list k n g).1.
Proof.
  intros Hn. revert g. induction k as [|k IH]; intros g; cbn [randint_list].
  - split; [done|constructor].
  - pose proof (randbelow_lt n g Hn) as Hj.
    destruct (randbelow n g) as [j g1]. simpl in Hj.
    destruct (IH g1) as [Hlen Hall].
    destruct (randint_list k n g1) as [r g2]. simpl in *.
    split; [lia|]. constructor; [lia|done].
Qed.

(** X3.  [np.sort(np.random.choice(num_beads, num_cuts))]: the call fails
    exactly when a negative number of cuts is asked for, or a positive one
    of a necklace without beads; otherwise there are [num_cuts] positions,
    each in [range(num_beads)], in ascending order (repetitions are
    possible: the picks are independent). *)
Theorem np_gen_cuts_sorted_in_range (num_beads num_cuts : Z) (np_g : RNG) :
  match NpNecklace.gen_cuts num_beads num_cuts np_g with
  | Ok (c, _) =>
      0 <= num_cuts /\ (num_cuts = 0 \/ 1 <= num_beads) /\
      len c = num_cuts /\
      StronglySorted Z.le c /\
      Forall (fun x => 0 <= x < num_beads) c
  | Raise e =>
      e = ValueError /\
      (num_cuts < 0 \/ (num_beads <= 0 /\ num_cuts <> 0))
  end.
Proof.
  unfold NpNecklace.gen_cuts, np_random_choice_int.
  destruct (Z.ltb_spec num_cuts 0) as [Hneg|Hnn].
  { rewrite bind_of_Raise. split; [done|]. by left. }
  destruct (Z.leb_spec num_beads 0) as [Hb|Hb];
    destruct (Z.eqb_spec num_cuts 0) as [Hk|Hk]; simpl.
  - subst num_cuts. simpl. repeat split; try done; try lia; constructor.
  - split; [done|]. right. lia.
  - subst num_cuts. simpl. repeat split; try done; try lia; constructor.
  - pose proof (randint_list_spec (Z.to_nat num_cuts) (Z.to_nat num_beads)
                  np_g ltac:(lia)) as [Hlen Hall].
    destruct (randint_list _ _ np_g) as [c g']. simpl in *.
    split; [lia|]. split; [right; lia|]. split.
    { unfold len, sorted. rewrite sorted_by_length. lia. }
    split; [apply sorted_Z_sorted|].
    apply Forall_forall. intros x Hx.
    rewrite (sorted_Z_perm c) in Hx.
    rewrite Forall_forall in Hall. apply Hall in Hx. lia.
Qed.

(** ** [get_thief_beads]: the two files compared *)

Lemma np_intervals_bounds (s : Necklace) : NpNecklace.intervals s = bounds s.
Proof.
  unfold NpNecklace.intervals, bounds.
  change ([0] ++ cuts s ++ [num_beads s])
    with (0 :: (cuts s ++ [num_beads s])).
  rewrite app_comm_cons, removelast_last. reflexivity.
Qed.

(** The rows a mask selects, and what their slices add up to. *)
Lemma selected_rows (l : list Z) (thief : Z) :
  forall (a : list Z) (bs : list (Z * Z)),
    length a = length bs ->
    let rows := omap (fun br : bool * (Z * Z) =>
                        let '(b, r) := br in if b then Some r else None)
                  (zip (map (Z.eqb thief) a) bs) in
    concat (map (fun r : Z * Z => let '(start, end_) := r in
                                  slice l start end_) rows)
    = concat (map (owned l thief) (zip a bs)) /\
    (rows = [] <-> thief ∉ a).
Proof.
  induction a as [|t a IH]; intros bs Hlen; destruct bs as [|[lo hi] bs];
    try discriminate Hlen.
  - simpl. split; [done|]. split; [intros _; apply not_elem_of_nil|done].
  - simpl in Hlen. injection Hlen as Hlen.
    destruct (IH bs Hlen) as [Hc Hnil]. unfold omap in *. simpl.
    unfold owned at 1. simpl.
    destruct (Z.eqb_spec thief t) as [->|Hne]; simpl.
    + split; [by rewrite Hc|]. split; [done|].
      intros Hnot. exfalso. apply Hnot. left.
    + split; [exact Hc|]. rewrite Hnil. rewrite not_elem_of_cons. tauto.
Qed.

Lemma np_get_thief_beads_owned (s : Necklace) (thief : Z) :
  kind (assignments s) = KNdArray ->
  len (elems (assignments s)) = len (cuts s) + 1 ->
  NpNecklace.get_thief_beads s thief
  = if bool_decide (thief ∈ elems (assignments s))
    then Ok (concat (map (owned (beads s) thief)
                       (zip (elems (assignments s)) (bounds s))))
    else Raise ValueError.
Proof.
  intros Hk Hlen. unfold NpNecklace.get_thief_beads, assignments_eq.
  rewrite Hk, np_intervals_bounds. unfold NpNecklace.mask_select.
  assert (Hl : length (elems (assignments s)) = length (bounds s)).
  { rewrite bounds_length. unfold len in Hlen. lia. }
  unfold len. rewrite length_map, Hl, Z.eqb_refl, bind_of_Ok.
  destruct (selected_rows (beads s) thief _ _ Hl) as [Hc Hnil].
  unfold NpNecklace.np_concatenate.
  destruct (omap _ _) as [|r rows] eqn:Hrows.
  - rewrite bool_decide_eq_false_2; [done|]. by apply Hnil.
  - rewrite bool_decide_eq_true_2.
    + by rewrite <- Hc.
    + destruct (decide (thief ∈ elems (assignments s))) as [Hin|Hnot];
        [done|]. apply Hnil in Hnot. done.
Qed.


(** ** What the constructors accept when cuts and assignments are given *)

Lemma array_or_not (a : pyseq) : kind a = KNdArray \/ kind a <> KNdArray.
Proof. destruct (kind a); auto. Qed.









(** *** [npnecklace.py] *)

Lemma np_get_thief_beads_no_array (s : Necklace) (thief : Z) :
  kind (assignments s) <> KNdArray ->
  NpNecklace.get_thief_beads s thief = Raise ValueError.
Proof.
  intros Hk. unfold NpNecklace.get_thief_beads, assignments_eq.
  by destruct (kind (assignments s)).
Qed.

Lemma np_get_thief_beads_IndexError (s : Necklace) (thief : Z) :
  kind (assignments s) = KNdArray ->
  len (elems (assignments s)) <> len (cuts s) + 1 ->
  NpNecklace.get_thief_beads s thief = Raise IndexError.
Proof.
  intros Hk Hlen. unfold NpNecklace.get_thief_beads, assignments_eq.
  rewrite Hk, np_intervals_bounds. unfold NpNecklace.mask_select.
  unfold len in *. rewrite length_map, bounds_length.
  destruct (Z.eqb_spec (Z.of_nat (length (elems (assignments s))))
              (Z.of_nat (S (length (cuts s))))); [lia|].
  reflexivity.
Qed.






(** ** A score of zero *)

Lemma Qabs_zero (x : Q) : (Qabs x == 0 <-> x == 0)%Q.
Proof.
  destruct x as [n d]. unfold Qabs, Qeq. simpl. lia.
Qed.

Lemma Qminus_zero (x y : Q) : (x - y == 0 <-> x == y)%Q.
Proof.
  split; intros H.
  - rewrite <- (Qplus_0_r y), <- H. ring.
  - rewrite H. ring.
Qed.

Lemma Qdiv_inject (a n o : Z) :
  n <> 0 -> (inject_Z a / inject_Z n == inject_Z o)%Q <-> n * o = a.
Proof.
  intros Hn.
  assert (Hq : ~ (inject_Z n == 0)%Q).
  { intros H. apply Hn. by apply (proj1 (inject_Z_injective n 0)). }
  split.
  - intros H. apply inject_Z_injective. rewrite inject_Z_mult, <- H.
    field. exact Hq.
  - intros <-. rewrite inject_Z_mult. field. exact Hq.
Qed.

Lemma Qsum_zero (p : list Q) :
  Forall (fun x => 0 <= x)%Q p ->
  (Qsum p == 0)%Q <-> Forall (fun x => x == 0)%Q p.
Proof.
  induction 1 as [|x p Hx Hp IH]; simpl.
  - split; [constructor|reflexivity].
  - pose proof (Qsum_nonneg p Hp) as Hs. split.
    + intros H0.
      assert (Hx0 : (x == 0)%Q).
      { apply Qle_antisym; [|done].
        rewrite <- H0. rewrite <- (Qplus_0_r x) at 1.
        by apply Qplus_le_r. }
      constructor; [done|]. apply IH.
      rewrite Hx0, Qplus_0_l in H0. exact H0.
    + intros [Hx0 Hp0]%Forall_cons. apply IH in Hp0.
      rewrite Hx0, Hp0. reflexivity.
Qed.

(** A sum over thieves and types of terms that are never negative is
    not negative, and it is zero only when every term is. *)
Lemma total_over_zero (term : list Z -> Z -> Q) (types : list Z)
    (per_thief : list (list Z)) :
  (forall tb t, 0 <= term tb t)%Q ->
  (0 <= total_over term types per_thief)%Q /\
  ((total_over term types per_thief == 0)%Q <->
   forall tb, tb ∈ per_thief -> forall t, t ∈ types -> (term tb t == 0)%Q).
Proof.
  intros Hnn. unfold total_over.
  assert (Hin : forall tb, Forall (fun x => 0 <= x)%Q (map (term tb) types)).
  { intros tb. apply Forall_forall. intros x (t & -> & _)%list_elem_of_fmap.
    apply Hnn. }
  assert (Hout : Forall (fun x => 0 <= x)%Q
                   (map (fun tb => Qsum (map (term tb) types)) per_thief)).
  { apply Forall_forall. intros x (tb & -> & _)%list_elem_of_fmap.
    by apply Qsum_nonneg. }
  split; [by apply Qsum_nonneg|].
  rewrite (Qsum_zero _ Hout). rewrite Forall_forall. split.
  - intros H tb Htb t Ht.
    assert (H0 : (Qsum (map (term tb) types) == 0)%Q).
    { apply H. apply list_elem_of_fmap. by exists tb. }
    apply (Qsum_zero _ (Hin tb)) in H0. rewrite Forall_forall in H0.
    apply H0. apply list_elem_of_fmap. by exists t.
  - intros H x (tb & -> & Htb)%list_elem_of_fmap.
    apply (Qsum_zero _ (Hin tb)). apply Forall_forall.
    intros y (t & -> & Ht)%list_elem_of_fmap. by apply H.
Qed.

Lemma deviation_nonneg (s : Necklace) (tb : list Z) (t : Z) :
  (0 <= deviation s tb t)%Q.
Proof. apply Qabs_nonneg. Qed.

Lemma penalised_deviation_nonneg (s : Necklace) (tb : list Z) (t : Z) :
  (0 <= penalised_deviation s tb t)%Q.
Proof.
  unfold penalised_deviation. destruct (_ =? 0); [done|apply Qabs_nonneg].
Qed.

Lemma deviation_zero (s : Necklace) (tb : list Z) (t : Z) :
  num_thieves s <> 0 ->
  (deviation s tb t == 0)%Q <->
  num_thieves s * occurrences t tb = occurrences t (beads s).
Proof.
  intros Hn. unfold deviation, ideal.
  rewrite Qabs_zero, Qminus_zero. by apply Qdiv_inject.
Qed.

Lemma canonical_occurs (l : list Z) (t : Z) :
  canonical l -> 0 <= t < len (np_unique l) -> 0 < occurrences t l.
Proof.
  intros Hc Ht. apply occurrences_pos, elem_of_np_unique.
  eapply list_elem_of_lookup_2. by apply canonical_lookup.
Qed.

Lemma penalised_deviation_zero (s : Necklace) (tb : list Z) (t : Z) :
  1 <= num_thieves s -> canonical (beads s) ->
  0 <= t < len (np_unique (beads s)) ->
  (penalised_deviation s tb t == 0)%Q <->
  num_thieves s * occurrences t tb = occurrences t (beads s).
Proof.
  intros Hn Hc Ht. unfold penalised_deviation.
  pose proof (canonical_occurs _ _ Hc Ht) as Hpos.
  destruct (Z.eqb_spec (occurrences t tb) 0) as [H0|H0].
  - rewrite H0. split; [intros H; discriminate H|lia].
  - apply deviation_zero. lia.
Qed.

(** What the thieves hold, thief by thief. *)
Lemma per_thief_lookup (f : Z -> result (list Z)) (n : Z)
    (per_thief : list (list Z)) :
  mapM f (range 0 n) = Ok per_thief ->
  (forall tb, tb ∈ per_thief -> exists thief, 0 <= thief < n /\ f thief = Ok tb)
  /\
  (forall thief, 0 <= thief < n -> exists tb, tb ∈ per_thief /\ f thief = Ok tb).
Proof.
  intros Hm. apply mapM_Ok_Forall2 in Hm. split.
  - intros tb Htb. apply list_elem_of_lookup in Htb as [i Hi].
    destruct (Forall2_lookup_r _ _ _ _ _ Hm Hi) as (thief & Ht & Hf).
    exists thief. split; [|done].
    apply list_elem_of_lookup_2, elem_of_range in Ht. lia.
  - intros thief Ht.
    assert (Hin : thief ∈ range 0 n) by (apply elem_of_range; lia).
    apply list_elem_of_lookup in Hin as [i Hi].
    destruct (Forall2_lookup_l _ _ _ _ _ Hm Hi) as (tb & Htb & Hf).
    exists tb. split; [|done]. by eapply list_elem_of_lookup_2.
Qed.

Lemma list_construct_score (b : beads_arg) (n mm : Z) (c : list Z)
    (a : pyseq) (s : Necklace) :
  ListNecklace.construct b n mm c a = Ok s -> canonical (beads s) ->
  num_thieves s = n /\
  bead_types s = len (np_unique (beads s)) /\
  exists per_thief,
    mapM (ListNecklace.get_thief_beads s) (range 0 n) = Ok per_thief /\
    (score s == total_over (penalised_deviation s) (range 0 (bead_types s))
                  per_thief)%Q.
Proof.
  unfold ListNecklace.construct.
  set (s0 := mkNecklace _ _ _ _ _ _ _ _ _). intros Hc Hcan.
  apply bind_Ok in Hc as ([r s'] & Hg & [= ->]).
  destruct (list_gen_score_fields _ _ _ Hg) as [q ->].
  apply list_gen_score_spec in Hg as (Hq & per_thief & Hpt & Heq);
    [|exact Hcan].
  split; [done|]. split; [apply bead_types_consistent|].
  exists per_thief. split.
  - rewrite <- Hpt. apply mapM_ext. intros x.
    apply list_get_thief_beads_set_score.
  - rewrite Hq. change (bead_types (set_score s0 r))
      with (len (np_unique (tokens b))).
    rewrite (bead_types_consistent b). exact Heq.
Qed.

Lemma np_construct_score (b : beads_arg) (n mm : Z) (c : list Z)
    (a : pyseq) (s : Necklace) :
  NpNecklace.construct b n mm c a = Ok s -> canonical (beads s) ->
  num_thieves s = n /\
  bead_types s = len (np_unique (beads s)) /\
  exists per_thief,
    mapM (NpNecklace.get_thief_beads s) (range 0 n) = Ok per_thief /\
    (score s == total_over (deviation s) (range 0 (bead_types s))
                  per_thief)%Q.
Proof.
  unfold NpNecklace.construct.
  set (s0 := mkNecklace _ _ _ _ _ _ _ _ _). intros Hc Hcan.
  apply bind_Ok in Hc as ([r s'] & Hg & [= ->]).
  destruct (np_gen_score_fields _ _ _ Hg) as [q Hq].
  assert (Hcan0 : canonical (beads s0)) by (by rewrite Hq in Hcan).
  apply np_gen_score_spec in Hg as (per_thief & Hpt & _ & Heq);
    [|exact Hcan0|apply bead_types_consistent].
  rewrite Hq in *. split; [done|]. split; [apply bead_types_consistent|].
  exists per_thief. split; [exact Hpt|exact Heq].
Qed.

(** X10.  The score [necklace.py] stores is never negative, and it is zero
    exactly for a fair division: every thief holds, of every bead type,
    one [num_thieves]-th of the necklace's beads of that type. *)
Theorem list_score_zero_iff_fair
    (b : beads_arg) (n mm : Z) (c : list Z) (a : pyseq) (s : Necklace) :
  ListNecklace.construct b n mm c a = Ok s ->
  canonical (beads s) ->
  (0 <= score s)%Q /\
  ((score s == 0)%Q <->
   forall thief, 0 <= thief < n ->
     exists thief_beads,
       ListNecklace.get_thief_beads s thief = Ok thief_beads /\
       fair_share s thief_beads).
Proof.
  intros Hc Hcan.
  destruct (list_construct_score _ _ _ _ _ _ Hc Hcan)
    as (Hn & Hbt & per_thief & Hpt & Heq).
  destruct (total_over_zero (penalised_deviation s) (range 0 (bead_types s))
              per_thief (penalised_deviation_nonneg s)) as [Hnn Hz].
  destruct (per_thief_lookup _ _ _ Hpt) as [Hof Hto].
  split; [by rewrite Heq|]. rewrite Heq, Hz. split.
  - intros H thief Ht. destruct (Hto thief Ht) as (tb & Htb & Hf).
    exists tb. split; [done|]. intros t Hty.
    apply penalised_deviation_zero; [lia|done|lia|].
    apply H; [done|]. by apply elem_of_range.
  - intros H tb Htb t Hty%elem_of_range.
    destruct (Hof tb Htb) as (thief & Ht & Hf).
    destruct (H thief Ht) as (tb' & Hf' & Hfair).
    assert (tb' = tb) by congruence. subst tb'.
    apply penalised_deviation_zero; [lia|done|lia|]. by apply Hfair.
Qed.

Lemma list_score_zero_iff_fair_witness :
  exists s,
    ListNecklace.construct (StrBeads "0101") 2 4 [1; 3] (np_array [0; 1; 0])
    = Ok s /\
    (score s == 0)%Q /\
    forall thief, 0 <= thief < 2 ->
      exists thief_beads,
        ListNecklace.get_thief_beads s thief = Ok thief_beads /\
        fair_share s thief_beads.
Proof.
  eexists. split; [vm_compute; reflexivity|].
  split; [vm_compute; reflexivity|].
  apply (proj2 (list_score_zero_iff_fair (StrBeads "0101") 2 4 [1; 3]
                  (np_array [0; 1; 0]) _ ltac:(vm_compute; reflexivity)
                  ltac:(vm_compute; reflexivity))).
  vm_compute. reflexivity.
Defined.

(** X11.  The same for the score [npnecklace.py] stores. *)
Theorem np_score_zero_iff_fair
    (b : beads_arg) (n mm : Z) (c : list Z) (a : pyseq) (s : Necklace) :
  NpNecklace.construct b n mm c a = Ok s ->
  canonical (beads s) ->
  (0 <= score s)%Q /\
  ((score s == 0)%Q <->
   forall thief, 0 <= thief < n ->
     exists thief_beads,
       NpNecklace.get_thief_beads s thief = Ok thief_beads /\
       fair_share s thief_beads).
Proof.
  intros Hc Hcan.
  destruct (np_construct_score _ _ _ _ _ _ Hc Hcan)
    as (Hn & Hbt & per_thief & Hpt & Heq).
  destruct (total_over_zero (deviation s) (range 0 (bead_types s))
              per_thief (deviation_nonneg s)) as [Hnn Hz].
  destruct (per_thief_lookup _ _ _ Hpt) as [Hof Hto].
  split; [by rewrite Heq|]. rewrite Heq, Hz. split.
  - intros H thief Ht. destruct (Hto thief Ht) as (tb & Htb & Hf).
    exists tb. split; [done|]. intros t Hty.
    apply deviation_zero; [lia|].
    apply H; [done|]. by apply elem_of_range.
  - intros H tb Htb t Hty%elem_of_range.
    destruct (Hof tb Htb) as (thief & Ht & Hf).
    destruct (H thief Ht) as (tb' & Hf' & Hfair).
    assert (tb' = tb) by congruence. subst tb'.
    apply deviation_zero; [lia|]. by apply Hfair.
Qed.

Lemma np_score_zero_iff_fair_witness :
  exists s,
    NpNecklace.construct (StrBeads "0101") 2 4 [1; 3] (np_array [0; 1; 0])
    = Ok s /\
    (score s == 0)%Q /\
    forall thief, 0 <= thief < 2 ->
      exists thief_beads,
        NpNecklace.get_thief_beads s thief = Ok thief_beads /\
        fair_share s thief_beads.
Proof.
  eexists. split; [vm_compute; reflexivity|].
  split; [vm_compute; reflexivity|].
  apply (proj2 (np_score_zero_iff_fair (StrBeads "0101") 2 4 [1; 3]
                  (np_array [0; 1; 0]) _ ltac:(vm_compute; reflexivity)
                  ltac:(vm_compute; reflexivity))).
  vm_compute. reflexivity.
Defined.

(** ** [__eq__] and [__ne__] *)

Lemma class_eqb_refl (cls : necklace_class) : class_eqb cls cls = true.
Proof. by destruct cls. Qed.


Lemma forallb_zip_eq (l k : list Z) :
  length l = length k ->
  forallb (fun xy => fst xy =? snd xy) (zip l k) = true <-> l = k.
Proof.
  revert k. induction l as [|x l IH]; intros [|y k] Hlen;
    try discriminate Hlen; simpl; [done|].
  injection Hlen as Hlen. rewrite andb_true_iff, Z.eqb_eq, (IH k Hlen).
  split; [intros [-> ->]; done|intros [= -> ->]; done].
Qed.

Lemma array_equal_seq (s t : pyseq) :
  array_equal (VSeq s) (VSeq t) = true <-> elems s = elems t.
Proof.
  unfold array_equal. rewrite andb_true_iff, Nat.eqb_eq. split.
  - intros [Hlen Hall]. by apply forallb_zip_eq.
  - intros Heq. split; [by rewrite Heq|].
    apply forallb_zip_eq; [by rewrite Heq|done].
Qed.

Lemma array_equal_int (x y : Z) : array_equal (VInt x) (VInt y) = true <-> x = y.
Proof. apply Z.eqb_eq. Qed.

Lemma array_equal_float (p q : Q) :
  array_equal (VFloat p) (VFloat q) = true <-> (p == q)%Q.
Proof. apply Qeq_bool_iff. Qed.

(** The loop over the attributes answers with the conjunction of the
    nine comparisons; every key of one instance is a key of the other. *)
Lemma eq_loop_dict_items (k k' : seq_kind) (s o : Necklace) :
  eq_loop (dict_items k s) (dict_items k' o)
  = Ok (array_equal (VSeq (mkSeq KList (beads s)))
          (VSeq (mkSeq KList (beads o)))
        && array_equal (VInt (num_beads s)) (VInt (num_beads o))
        && array_equal (VInt (bead_types s)) (VInt (bead_types o))
        && array_equal (VInt (num_thieves s)) (VInt (num_thieves o))
        && array_equal (VInt (max_move s)) (VInt (max_move o))
        && array_equal (VInt (num_cuts s)) (VInt (num_cuts o))
        && array_equal (VSeq (mkSeq k (cuts s))) (VSeq (mkSeq k' (cuts o)))
        && array_equal (VSeq (assignments s)) (VSeq (assignments o))
        && array_equal (VFloat (score s)) (VFloat (score o))).
Proof.
  unfold dict_items. cbn -[array_equal].
  repeat (destruct (array_equal _ _); cbn -[array_equal]; [|reflexivity]).
  reflexivity.
Qed.

Lemma eq_loop_same_attributes (k k' : seq_kind) (s o : Necklace) :
  exists b, eq_loop (dict_items k s) (dict_items k' o) = Ok b /\
            (b = true <-> same_attributes s o).
Proof.
  rewrite eq_loop_dict_items. eexists. split; [reflexivity|].
  rewrite !andb_true_iff, !array_equal_seq, !array_equal_int,
    array_equal_float.
  unfold same_attributes. simpl. tauto.
Qed.

Lemma necklace_eq_Instance (cls : necklace_class) (s o : Necklace) :
  exists b, necklace_eq cls s (Instance cls o) = Ok (PyBool b) /\
            (b = true <-> same_attributes s o).
Proof.
  unfold necklace_eq. rewrite class_eqb_refl.
  destruct (eq_loop_same_attributes (cuts_kind_of cls) (cuts_kind_of cls) s o)
    as (b & -> & Hb).
  exists b. by rewrite bind_of_Ok.
Qed.







(** ** [get_neighbors] as a whole *)

Lemma in_concat_mapM {A B} (f : A -> result (list B)) (l : list A)
    (rs : list (list B)) (y : B) :
  mapM f l = Ok rs -> y ∈ concat rs ->
  exists x r, x ∈ l /\ f x = Ok r /\ y ∈ r.
Proof.
  intros Hm%mapM_Ok_Forall2.
  induction Hm as [|x r l rs Hx _ IH]; simpl; intros Hy.
  - by apply elem_of_nil in Hy.
  - apply elem_of_app in Hy as [Hy|Hy].
    + exists x, r. split; [left|done].
    + destruct (IH Hy) as (x' & r' & Hin & Hf & Hy').
      exists x', r'. split; [by right|done].
Qed.




Section WholeNeighborhood.
Variable construct : beads_arg -> Z -> Z -> list Z -> pyseq -> result Necklace.
Variable gen_score : Necklace -> result (Q * Necklace).

Hypothesis gen_score_fields :
  forall s r s', gen_score s = Ok (r, s') -> exists q, s' = set_score s q.
Hypothesis construct_fields :
  forall b n mm c a s,
    construct (IntBeads b) n mm c a = Ok s ->
    beads s = b /\ cuts s = c /\ assignments s = a.

(** Every neighbour comes from one of the two loops. *)
Lemma get_neighbors_with_elem (s : Necklace) (nbs : list Necklace)
    (nb : Necklace) :
  get_neighbors_with construct gen_score s = Ok nbs -> nb ∈ nbs ->
  (exists i nbs_i,
     0 <= i < num_cuts s /\
     cut_moves_at construct gen_score s i = Ok nbs_i /\ nb ∈ nbs_i) \/
  (exists i nbs_i,
     0 <= i < len (elems (assignments s)) /\
     assignment_moves_at construct gen_score s i = Ok nbs_i /\ nb ∈ nbs_i).
Proof.
  unfold get_neighbors_with, cut_moves, assignment_moves. intros Hg Hin.
  apply bind_Ok in Hg as (cs & Hcs & Hg).
  apply bind_Ok in Hg as (asg & Hasg & [= <-]).
  apply fmap_Ok in Hcs as (css & Hcss & ->).
  apply fmap_Ok in Hasg as (ass & Hass & ->).
  apply elem_of_app in Hin as [Hin|Hin].
  - left. destruct (in_concat_mapM _ _ _ _ Hcss Hin) as (i & r & Hi & Hf & Hr).
    exists i, r. by apply elem_of_range in Hi.
  - right. destruct (in_concat_mapM _ _ _ _ Hass Hin) as (i & r & Hi & Hf & Hr).
    exists i, r. by apply elem_of_range in Hi.
Qed.

(** A neighbour has another cut list or other assignments than the
    state it was made from. *)
Lemma neighbor_changes (s : Necklace) (nbs : list Necklace) (nb : Necklace) :
  get_neighbors_with construct gen_score s = Ok nbs -> nb ∈ nbs ->
  cuts nb <> cuts s \/ elems (assignments nb) <> elems (assignments s).
Proof.
  intros Hg Hin.
  destruct (get_neighbors_with_elem s nbs nb Hg Hin)
    as [(i & nbs_i & Hi & Hm & Hnb)|(i & nbs_i & Hi & Hm & Hnb)].
  - left.
    destruct (cut_moves_at_spec _ _ gen_score_fields construct_fields
                s i nbs_i ltac:(lia) Hm) as (old & Hold & Hmap & _).
    assert (Hc : cuts nb ∈ map cuts nbs_i)
      by (apply list_elem_of_fmap; by exists nb).
    rewrite Hmap in Hc. apply list_elem_of_fmap in Hc as (pos & -> & Hpos).
    apply elem_of_cut_candidates in Hpos as [Hfree _].
    intros Heq. apply Hfree.
    apply (f_equal (fun l => l !! Z.to_nat i)) in Heq.
    rewrite list_lookup_insert_eq in Heq by (by eapply lookup_lt_Some).
    rewrite Hold in Heq. injection Heq as ->.
    by eapply list_elem_of_lookup_2.
  - right.
    destruct (assignment_moves_at_spec _ _ gen_score_fields construct_fields
                s i nbs_i ltac:(lia) Hm) as (Hmap & _).
    assert (Hc : elems (assignments nb)
                 ∈ map (fun nb => elems (assignments nb)) nbs_i)
      by (apply list_elem_of_fmap; by exists nb).
    rewrite Hmap in Hc. apply list_elem_of_fmap in Hc as (thief & -> & Ht).
    apply elem_of_assignment_candidates in Ht as [_ Hfree]; [|lia].
    intros Heq. apply Hfree. apply elem_of_slice3; [lia|]. left.
    rewrite <- Heq. apply list_lookup_insert_eq. unfold len in Hi. lia.
Qed.
End WholeNeighborhood.

Lemma necklace_eq_false (cls : necklace_class) (s o : Necklace) :
  ~ same_attributes s o ->
  necklace_eq cls s (Instance cls o) = Ok (PyBool false).
Proof.
  intros Hne. destruct (necklace_eq_Instance cls s o) as (b & -> & Hb).
  destruct b; [|done]. exfalso. by apply Hne, Hb.
Qed.

(** X16.  In both files, no neighbour [get_neighbors] returns compares equal
    under [__eq__] to the state it was called on, in either order: one
    of its cuts or one of its assignments is another. *)
Theorem neighbors_differ_from_origin
    (s : Necklace) (nbs : list Necklace) (nb : Necklace) :
  (ListNecklace.get_neighbors s = Ok nbs -> nb ∈ nbs ->
   necklace_eq NecklacePy nb (Instance NecklacePy s) = Ok (PyBool false) /\
   necklace_eq NecklacePy s (Instance NecklacePy nb) = Ok (PyBool false)) /\
  (NpNecklace.get_neighbors s = Ok nbs -> nb ∈ nbs ->
   necklace_eq NpNecklacePy nb (Instance NpNecklacePy s) = Ok (PyBool false) /\
   necklace_eq NpNecklacePy s (Instance NpNecklacePy nb)
   = Ok (PyBool false)).
Proof.
  split; intros Hg Hin.
  - pose proof (neighbor_changes _ _ list_gen_score_fields
                  list_construct_fields s nbs nb Hg Hin) as Hch.
    split; apply necklace_eq_false; unfold same_attributes;
      intros (_ & _ & _ & _ & _ & _ & Hc & Ha & _);
      destruct Hch as [Hch|Hch]; congruence.
  - pose proof (neighbor_changes _ _ np_gen_score_fields
                  np_construct_fields s nbs nb Hg Hin) as Hch.
    split; apply necklace_eq_false; unfold same_attributes;
      intros (_ & _ & _ & _ & _ & _ & Hc & Ha & _);
      destruct Hch as [Hch|Hch]; congruence.
Qed.

Lemma neighbors_differ_from_origin_witness :
  exists nbs nb,
    ListNecklace.get_neighbors necklace_0101 = Ok nbs /\
    nbs !! 0%nat = Some nb /\
    necklace_eq NecklacePy nb (Instance NecklacePy necklace_0101)
    = Ok (PyBool false).
Proof.
  destruct (ListNecklace.get_neighbors necklace_0101) as [nbs|e] eqn:Hg;
    [|vm_compute in Hg; discriminate Hg].
  destruct nbs as [|nb nbs]; [vm_compute in Hg; discriminate Hg|].
  exists (nb :: nbs), nb. split; [reflexivity|]. split; [reflexivity|].
  apply (proj1 (neighbors_differ_from_origin necklace_0101 (nb :: nbs) nb)
           Hg).
  left.
Defined.



(** ** [get_neighbors] of [necklace.py]: when it returns, when it raises *)









(** *** On shaped states *)







(** The states [__init__] of [necklace.py] builds with random cuts and
    assignments are of that shape. *)
Lemma length_int_beads (b : beads_arg) (u : list Z) :
  length (int_beads b u) = length (tokens b).
Proof. destruct b; simpl; [done|]. by rewrite length_map. Qed.

Lemma list_gen_cuts_len (num_beads num_cuts : Z) (g g' : RNG) (c : list Z) :
  ListNecklace.gen_cuts num_beads num_cuts g = Ok (c, g') -> len c = num_cuts.
Proof.
  unfold ListNecklace.gen_cuts, random_sample. intros Hc.
  apply bind_Ok in Hc as ([c0 g0] & Hs & [= <- <-]).
  destruct (Z.leb_spec 0 num_cuts); [|done].
  destruct (_ <=? _); [|done]. injection Hs as Hs.
  pose proof (sample_pool_length (Z.to_nat num_cuts) (range 0 num_beads) g)
    as Hl.
  rewrite Hs in Hl. simpl in Hl.
  unfold len, sorted. rewrite sorted_by_length. lia.
Qed.

Lemma gen_assignments_kind_len (num_thieves num_cuts : Z) (g g' : RNG)
    (a : pyseq) :
  gen_assignments num_thieves num_cuts g = Ok (a, g') ->
  kind a = KNdArray /\ len (elems a) = num_cuts + 1.
Proof.
  unfold gen_assignments. intros Ha.
  destruct (Z.ltb_spec (num_cuts + 1) 0); [done|].
  destruct (Z.eqb_spec (num_cuts + 1) 0).
  - injection Ha as <- _. split; [done|]. unfold len. simpl. lia.
  - apply bind_Ok in Ha as ([r g1] & Hl & [= <- _]).
    destruct (gen_assignments_loop_spec _ _ _ _ _ _ Hl) as (Hlen & _).
    { intros x Hx%elem_of_range. apply elem_of_range. lia. }
    split; [done|]. unfold len. simpl. lia.
Qed.

Lemma list_init_shaped (g g' : RNG) (b : beads_arg) (n mm : Z)
    (s : Necklace) :
  ListNecklace.init g b n mm None None = Ok (s, g') ->
  shaped s /\ num_thieves s = n /\ max_move s = mm /\
  exists c a g1,
    ListNecklace.gen_cuts (len (tokens b))
      ((n - 1) * len (np_unique (tokens b))) g = Ok (c, g1) /\
    gen_assignments n ((n - 1) * len (np_unique (tokens b))) g1 = Ok (a, g') /\
    cuts s = c /\ assignments s = a.
Proof.
  unfold ListNecklace.init. intros Hi.
  apply bind_Ok in Hi as ([c g1] & Hc & Hi).
  apply bind_Ok in Hi as ([a g2] & Ha & Hi).
  apply bind_Ok in Hi as (s' & Hs & [= <- <-]).
  unfold ListNecklace.construct in Hs.
  apply bind_Ok in Hs as ([r s''] & Hg & [= <-]).
  apply list_gen_score_fields in Hg as [q ->].
  pose proof (list_gen_cuts_len _ _ _ _ _ Hc) as Hlc.
  destruct (gen_assignments_kind_len _ _ _ _ _ Ha) as [Hk Hla].
  split; [|split; [done|split; [done|]]].
  - unfold shaped. simpl. repeat split; try done.
    + unfold len. by rewrite length_int_beads.
    + apply bead_types_consistent.
  - exists c, a, g1. done.
Qed.

(** ** What the moves keep of the cuts *)





(** ** The partitions, the window and the two files on concrete necklaces *)

Lemma list_partitions_cover_exactly_witness :
  exists indices : list (list Z),
    mapM (ListNecklace.get_thief_beads (label_beads necklace_0101))
      (range 0 2) = Ok indices /\
    concat indices ≡ₚ range 0 4.
Proof.
  destruct (list_partitions_cover_exactly necklace_0101)
    as (indices & Hi & Hp & _).
  - unfold valid_state. simpl. repeat split.
    + repeat constructor; lia.
    + repeat constructor; lia.
    + repeat constructor; lia.
  - exists indices. split; [exact Hi|exact Hp].
Defined.

Lemma list_assignment_moves_window_witness :
  exists nbs,
    assignment_moves_at ListNecklace.construct ListNecklace.gen_score
      necklace_000 1 = Ok nbs /\
    map (fun nb => elems (assignments nb)) nbs
    = map (fun thief => <[1%nat := thief]> [1; 0; 2])
        (assignment_candidates necklace_000 1).
Proof.
  destruct (assignment_moves_at ListNecklace.construct ListNecklace.gen_score
              necklace_000 1) as [nbs|e] eqn:Hm;
    [|vm_compute in Hm; discriminate Hm].
  exists nbs. split; [reflexivity|].
  exact (proj1 (list_assignment_moves_window necklace_000 1 nbs
                  ltac:(lia) Hm)).
Defined.


(** ** The path of a search *)

Lemma np_random_choice_elem {A} (a : list A) (p : list Q) (np_g np_g' : RNG)
    (x : A) :
  np_random_choice a p np_g = Ok (x, np_g') -> x ∈ a.
Proof.
  unfold np_random_choice. destruct a as [|y a]; [done|].
  destruct (negb _); [done|]. destruct (existsb _ _); [done|].
  destruct (negb _); [done|].
  destruct (random_sample_float np_g) as [u g1].
  destruct (_ !! _) as [z|] eqn:Hz; [|done].
  intros [= <- _]. by eapply list_elem_of_lookup_2.
Qed.

Lemma last_default {A} (l : list A) (x d d' : A) :
  List.last (x :: l) d = List.last (x :: l) d'.
Proof.
  revert x. induction l as [|y l IH]; intros x; [done|].
  change (List.last (x :: y :: l) d) with (List.last (y :: l) d).
  change (List.last (x :: y :: l) d') with (List.last (y :: l) d').
  apply IH.
Qed.


Section PathFacts.
Import LocalSearch.
Context {State : Type} `{LocalSearcheable State}.
Variable clock : nat -> Q.

(** The state an iteration moves to is one of the neighbours. *)
Lemma iteration_elem (obj obj' : State) (np_g np_g' : RNG) :
  iteration obj np_g = Ok (obj', np_g') ->
  exists ns, get_neighbors obj = Ok ns /\ obj' ∈ ns.
Proof.
  unfold iteration, ranked_neighbors. intros Hit.
  apply bind_Ok in Hit as (ranked & Hr & Hc).
  apply bind_Ok in Hr as (ns & Hns & [= <-]).
  exists ns. split; [done|].
  apply np_random_choice_elem in Hc.
  by rewrite (sorted_by_perm score_of Qle_bool ns) in Hc.
Qed.

(** A property of the loop's variables that every turn keeps holds when
    the loop ends, and held where it raised. *)
Lemma search_loop_invariant
    (Inv : State -> State -> Q -> list State -> Prop) (t_end : Q) :
  (forall obj best bs visited obj' np_g np_g',
     Inv obj best bs visited ->
     iteration obj np_g = Ok (obj', np_g') ->
     Inv obj'
       (if Qlt_bool (score_of obj') bs then obj' else best)
       (if Qlt_bool (score_of obj') bs then score_of obj' else bs)
       (visited ++ [obj'])) ->
  forall fuel tick np_g obj best bs visited,
    Inv obj best bs visited ->
    match search_loop clock fuel t_end tick np_g obj best bs visited with
    | Returned (b, v) => exists obj' bs', Inv obj' b bs' v
    | Raised e =>
        exists obj' b bs' v np_g',
          Inv obj' b bs' v /\ iteration obj' np_g' = Raise e
    | OutOfFuel => True
    end.
Proof.
  intros Hstep. induction fuel as [|fuel IH];
    intros tick np_g obj best bs visited Hinv.
  - simpl. destruct (Qlt_bool (clock tick) t_end); [done|]. eauto.
  - destruct (Qlt_bool (clock tick) t_end) eqn:Ht.
    + destruct (iteration obj np_g) as [[obj' np_g']|e] eqn:Hit.
      * rewrite (search_loop_step _ _ _ _ _ _ _ _ _ _ _ Ht Hit).
        apply IH. by eapply Hstep.
      * simpl. rewrite Ht, Hit. by exists obj, best, bs, visited, np_g.
    + rewrite search_loop_deadline by done. eauto.
Qed.

Lemma trajectory_snoc (x : State) (l : list State) (y z : State) :
  trajectory x l -> List.last (x :: l) x = y ->
  (exists ns, get_neighbors y = Ok ns /\ z ∈ ns) ->
  trajectory x (l ++ [z]).
Proof.
  revert x. induction l as [|w l IH]; intros x Ht Hl Hz.
  - simpl in Hl. subst y. simpl. done.
  - destruct Ht as [Hw Ht]. split; [done|].
    apply IH; [done| |done].
    change (List.last (x :: w :: l) x) with (List.last (w :: l) x) in Hl.
    rewrite <- Hl. apply last_default.
Qed.

Lemma last_snoc_cons (x : State) (l : list State) (z : State) :
  List.last (x :: l ++ [z]) x = z.
Proof. rewrite app_comm_cons. apply last_last. Qed.

Lemma trajectory_Forall (P : State -> Prop) (x : State) (l : list State) :
  (forall x ns y, P x -> get_neighbors x = Ok ns -> y ∈ ns -> P y) ->
  P x -> trajectory x l -> Forall P l.
Proof.
  intros Hstep. revert x. induction l as [|y l IH]; intros x Px Ht;
    [constructor|].
  destruct Ht as [(ns & Hns & Hy) Ht].
  assert (Py : P y) by (by eapply Hstep).
  constructor; [done|]. by eapply IH.
Qed.

(** What a run keeps: the states visited form a path of single moves
    from the initial state, the current state being its end, and the best
    state is on it. *)
Lemma search_run_path (fuel : nat) (np_g : RNG) (obj : State) (stop : Q) :
  match search_run clock fuel np_g obj stop with
  | Returned (best, visited) =>
      trajectory obj visited /\ best ∈ obj :: visited
  | Raised e =>
      exists cur visited np_g',
        trajectory obj visited /\ List.last (obj :: visited) obj = cur /\
        iteration cur np_g' = Raise e
  | OutOfFuel => True
  end.
Proof.
  unfold search_run.
  set (Inv := fun (cur best : State) (_ : Q) (visited : list State) =>
                trajectory obj visited /\
                List.last (obj :: visited) obj = cur /\
                best ∈ obj :: visited).
  assert (Hstep : forall cur best bs visited obj' g g',
            Inv cur best bs visited ->
            iteration cur g = Ok (obj', g') ->
            Inv obj'
              (if Qlt_bool (score_of obj') bs then obj' else best)
              (if Qlt_bool (score_of obj') bs then score_of obj' else bs)
              (visited ++ [obj'])).
  { intros cur best bs visited obj' g g' (Ht & Hl & Hb) Hit.
    split; [|split].
    - eapply trajectory_snoc; eauto using iteration_elem.
    - apply last_snoc_cons.
    - rewrite app_comm_cons. apply elem_of_app.
      destruct (Qlt_bool _ _); [right; left|by left]. }
  assert (H0 : Inv obj obj (score_of obj) []).
  { split; [done|]. split; [done|left]. }
  pose proof (search_loop_invariant Inv (clock 0 + stop)%Q Hstep fuel 1%nat
                np_g obj obj (score_of obj) [] H0) as Hinv.
  destruct (search_loop clock fuel _ 1 np_g obj obj _ []) as [[b v]|e|];
    [| |done].
  - destruct Hinv as (cur & bs' & Ht & _ & Hb). done.
  - destruct Hinv as (cur & b & bs' & v & g' & (Ht & Hl & _) & Hit).
    by exists cur, v, g'.
Qed.

(** X23.  The search walks along neighbour moves: what it visits is a path
    that starts at the initial state, each state being one of the
    neighbours of the state before it.  So whatever the initial state has
    and every move keeps, every visited state has, and so has the state
    returned. *)
Theorem search_walks_along_neighbors
    (fuel : nat) (np_g : RNG) (obj : State) (stop : Q)
    (best : State) (visited : list State) :
  search_run clock fuel np_g obj stop = Returned (best, visited) ->
  trajectory obj visited /\
  forall P : State -> Prop,
    P obj ->
    (forall x ns y, P x -> get_neighbors x = Ok ns -> y ∈ ns -> P y) ->
    Forall P visited /\ P best.
Proof.
  intros Hrun. pose proof (search_run_path fuel np_g obj stop) as Hp.
  rewrite Hrun in Hp. destruct Hp as [Ht Hb]. split; [done|].
  intros P Pobj Hstep.
  assert (Hall : Forall P visited) by (by eapply trajectory_Forall).
  split; [done|]. apply elem_of_cons in Hb as [->|Hb]; [done|].
  rewrite Forall_forall in Hall. by apply Hall.
Qed.

End PathFacts.

(** ** From the random initial state to the end of the search *)

(** X2.  [sorted(random.sample(list(range(0, num_beads)), num_cuts))]: the
    call fails, with [ValueError], exactly when the sample is larger than
    the population or negative; otherwise it returns [num_cuts] positions
    of the necklace in strictly ascending order. *)
Theorem list_gen_cuts_sorted_or_ValueError
    (num_beads num_cuts : Z) (g : RNG) :
  match ListNecklace.gen_cuts num_beads num_cuts g with
  | Ok (c, _) =>
      0 <= num_cuts <= Z.max 0 num_beads /\
      len c = num_cuts /\
      StronglySorted Z.lt c /\
      Forall (fun x => 0 <= x < num_beads) c
  | Raise e => e = ValueError /\ ~ (0 <= num_cuts <= Z.max 0 num_beads)
  end.
Proof.
  destruct (ListNecklace.gen_cuts num_beads num_cuts g) as [[c g']|e] eqn:Hc.
  - split; [|by eapply list_gen_cuts_sorted_distinct].
    unfold ListNecklace.gen_cuts, random_sample in Hc.
    unfold len in Hc. rewrite length_range in Hc.
    destruct (Z.leb_spec 0 num_cuts); [|done].
    destruct (Z.leb_spec num_cuts (Z.of_nat (Z.to_nat (num_beads - 0))));
      [|done]. lia.
  - unfold ListNecklace.gen_cuts, random_sample in Hc.
    unfold len in Hc. rewrite length_range in Hc.
    destruct (Z.leb_spec 0 num_cuts);
      destruct (Z.leb_spec num_cuts (Z.of_nat (Z.to_nat (num_beads - 0))));
      simpl in Hc.
    + destruct (sample_pool _ _ g). done.
    + injection Hc as <-. split; [done|lia].
    + injection Hc as <-. split; [done|lia].
    + injection Hc as <-. split; [done|lia].
Qed.


(** X5.  A necklace that [__init__] of [necklace.py] builds with random cuts
    and assignments, for at least one thief, meets the data model: the
    cuts are strictly ascending positions of the necklace, there is one
    assignment per partition, every assignment is a thief, and no two
    neighbouring partitions go to the same thief. *)
Theorem init_state_is_valid
    (g g' : RNG) (b : beads_arg) (n mm : Z) (s : Necklace) :
  1 <= n ->
  ListNecklace.init g b n mm None None = Ok (s, g') ->
  valid_state s /\ shaped s /\ adjacent_differ (elems (assignments s)).
Proof.
  intros Hn Hi.
  destruct (list_init_shaped _ _ _ _ _ _ Hi)
    as (Hs & Hnt & _ & c & a & g1 & Hc & Ha & Hcs & Has).
  pose proof Hs as (Hk & Hlc & Hla & Hnb & Hbt & Hnc).
  apply list_gen_cuts_sorted_distinct in Hc as (_ & Hsorted & Hrange).
  pose proof (gen_assignments_cases n
                ((n - 1) * len (np_unique (tokens b))) g1) as Hga.
  rewrite Ha in Hga. destruct Hga as (_ & _ & _ & _ & _ & Hthieves & Hadj).
  assert (Hbeads : num_beads s = len (tokens b)).
  { unfold ListNecklace.init in Hi.
    apply bind_Ok in Hi as ([c0 g0] & _ & Hi).
    apply bind_Ok in Hi as ([a0 g2] & _ & Hi).
    apply bind_Ok in Hi as (s' & Hcon & [= <- _]).
    unfold ListNecklace.construct in Hcon.
    apply bind_Ok in Hcon as ([r s''] & Hg & [= <-]).
    by apply list_gen_score_fields in Hg as [q ->]. }
  split; [|split; [done|by rewrite Has]].
  unfold valid_state. rewrite Hcs, Has, Hnt, Hbeads.
  split; [by rewrite <- Hbeads|]. split; [done|]. split; [done|].
  split; [by rewrite <- Has|]. split; [rewrite <- Has, <- Hcs; lia|].
  by apply Hthieves.
Qed.

Lemma init_state_is_valid_witness :
  exists s g',
    ListNecklace.init rng0 (StrBeads "0101") 2 4 None None = Ok (s, g') /\
    valid_state s /\ shaped s /\ adjacent_differ (elems (assignments s)).
Proof.
  destruct (ListNecklace.init rng0 (StrBeads "0101") 2 4 None None)
    as [[s g']|e] eqn:Hi; [|vm_compute in Hi; discriminate Hi].
  exists s, g'. split; [reflexivity|].
  exact (init_state_is_valid rng0 g' (StrBeads "0101") 2 4 s ltac:(lia) Hi).
Defined.

(** *** The search on necklaces *)







(** *** One thief *)




(** *** The path of a concrete search *)

Lemma search_walks_along_neighbors_witness :
  exists best visited,
    LocalSearch.search_run clock0 10 rng0 necklace_0101 3
    = LocalSearch.Returned (best, visited) /\
    trajectory necklace_0101 visited.
Proof.
  destruct (LocalSearch.search_run clock0 10 rng0 necklace_0101 3)
    as [[best visited]|e|] eqn:Hrun;
    [|vm_compute in Hrun; discriminate Hrun..].
  exists best, visited. split; [reflexivity|].
  exact (proj1 (search_walks_along_neighbors clock0 10 rng0 necklace_0101 3
                  best visited Hrun)).
Defined.


(** ** How strongly the first rank is favoured *)

Lemma raw_weights_succ (n : Z) :
  1 <= n ->
  LocalSearch.raw_weights (n + 1)
  = LocalSearch.raw_weights n ++ [((1 / inject_Z (n + 1)) ^ 2)%Q].
Proof.
  intros Hn. unfold LocalSearch.raw_weights.
  rewrite (range_snoc 1 (n + 1)) by lia. by rewrite map_app.
Qed.

(** [1/(n+1)^2 <= 1/n - 1/(n+1)] *)
Lemma inverse_square_telescopes (n : Z) :
  1 <= n ->
  ((1 / inject_Z (n + 1)) ^ 2 <= 1 / inject_Z n - 1 / inject_Z (n + 1))%Q.
Proof.
  intros Hn. destruct n as [|p|p]; try lia.
  replace (Z.pos p + 1) with (Z.pos (p + 1)) by lia.
  unfold Qle, Qminus, Qplus, Qopp, Qdiv, Qmult, Qinv, Qpower, inject_Z.
  simpl. nia.
Qed.

Lemma inverse_square_decreases (i : Z) :
  1 <= i -> ((1 / inject_Z (i + 1)) ^ 2 < (1 / inject_Z i) ^ 2)%Q.
Proof.
  intros Hi. destruct i as [|p|p]; try lia.
  replace (Z.pos p + 1) with (Z.pos (p + 1)) by lia.
  unfold Qlt, Qdiv, Qmult, Qinv, Qpower, inject_Z.
  simpl. nia.
Qed.

(** The sum of the inverse squares up to [n] stays below [2]. *)
Lemma raw_weights_sum_bound (m : nat) :
  (Qsum (LocalSearch.raw_weights (Z.of_nat m + 1))
   <= 2 - 1 / inject_Z (Z.of_nat m + 1))%Q.
Proof.
  induction m as [|m IH].
  - vm_compute. discriminate.
  - replace (Z.of_nat (S m) + 1) with ((Z.of_nat m + 1) + 1) by lia.
    rewrite raw_weights_succ by lia. rewrite Qsum_app. simpl Qsum.
    rewrite Qplus_0_r.
    pose proof (inverse_square_telescopes (Z.of_nat m + 1) ltac:(lia)) as Hk.
    set (a := (1 / inject_Z (Z.of_nat m + 1))%Q) in *.
    set (b := (1 / inject_Z (Z.of_nat m + 1 + 1))%Q) in *.
    set (S0 := Qsum (LocalSearch.raw_weights (Z.of_nat m + 1))) in *.
    apply Qle_trans with ((2 - a) + (a - b))%Q.
    + by apply Qplus_le_compat.
    + assert (Heq : (2 - a + (a - b) == 2 - b)%Q) by ring.
      rewrite Heq. apply Qle_refl.
Qed.

Lemma raw_weights_sum_lt_2 (n : Z) :
  1 <= n -> (Qsum (LocalSearch.raw_weights n) < 2)%Q.
Proof.
  intros Hn.
  pose proof (raw_weights_sum_bound (Z.to_nat (n - 1))) as Hb.
  replace (Z.of_nat (Z.to_nat (n - 1)) + 1) with n in Hb by lia.
  eapply Qle_lt_trans; [exact Hb|].
  assert (H0 : (0 < 1 / inject_Z n)%Q).
  { apply Qlt_shift_div_l.
    - replace 0%Q with (inject_Z 0) by reflexivity. rewrite <- Zlt_Qlt. lia.
    - rewrite Qmult_0_l. reflexivity. }
  apply Qlt_minus_iff.
  assert (Heq : (2 + - (2 - 1 / inject_Z n) == 1 / inject_Z n)%Q) by ring.
  by rewrite Heq.
Qed.

(** X25.  The weights [np.random.choice] is given decrease strictly with the
    rank, and the first of them is more than one half: the neighbour
    ranked first (the one of least score) is taken whenever the uniform
    sample does not exceed [1/2], so more often than all the others
    together. *)
Theorem first_rank_is_favoured (n : Z) :
  1 <= n ->
  let p := LocalSearch.choice_weights n in
  (exists w, p !! 0%nat = Some w /\ (1 # 2 < w)%Q) /\
  (forall (r : nat) (w w' : Q),
     p !! r = Some w -> p !! S r = Some w' -> (w' < w)%Q) /\
  (forall u : Q, (0 <= u <= 1 # 2)%Q -> choice_index p u = 0%nat).
Proof.
  intros Hn p.
  pose proof (raw_weights_sum_pos n Hn) as Hpos.
  pose proof (raw_weights_sum_lt_2 n Hn) as Hlt2.
  assert (Hw0 : p !! 0%nat
                = Some ((1 / inject_Z (Z.of_nat 0 + 1)) ^ 2
                        / Qsum (LocalSearch.raw_weights n))%Q)
    by (apply choice_weights_lookup; lia).
  assert (Hhalf : (1 # 2 < (1 / inject_Z (Z.of_nat 0 + 1)) ^ 2
                          / Qsum (LocalSearch.raw_weights n))%Q).
  { apply Qlt_shift_div_l; [done|].
    change ((1 / inject_Z (Z.of_nat 0 + 1)) ^ 2)%Q with 1%Q.
    apply Qlt_le_trans with ((1 # 2) * 2)%Q; [|vm_compute; discriminate].
    apply Qmult_lt_l; [reflexivity|done]. }
  split; [|split].
  - eexists. split; [exact Hw0|exact Hhalf].
  - intros r w w' Hr Hr'.
    assert (Hlen : (S r < Z.to_nat n)%nat).
    { apply lookup_lt_Some in Hr'. unfold p in Hr'.
      by rewrite choice_weights_length in Hr'. }
    unfold p in Hr, Hr'.
    rewrite choice_weights_lookup in Hr by lia.
    rewrite choice_weights_lookup in Hr' by lia.
    injection Hr as <-. injection Hr' as <-.
    apply Qmult_lt_compat_r.
    + by apply Qinv_lt_0_compat.
    + replace (Z.of_nat (S r) + 1) with ((Z.of_nat r + 1) + 1) by lia.
      apply inverse_square_decreases. lia.
  - intros u [Hu0 Hu].
    apply choice_index_unique.
    + by apply choice_weights_sum.
    + split; [done|]. eapply Qle_lt_trans; [exact Hu|]. reflexivity.
    + eapply Forall_impl; [by apply choice_weights_pos|].
      intros y. apply Qlt_le_weak.
    + rewrite (Qsum_take_S p 0 _ Hw0). simpl Qsum. rewrite Qplus_0_l.
      split; [done|]. by eapply Qle_lt_trans.
Qed.

Lemma first_rank_is_favoured_witness :
  choice_index (LocalSearch.choice_weights 5) (1 # 3) = 0%nat.
Proof.
  apply (proj2 (proj2 (first_rank_is_favoured 5 ltac:(lia)))).
  split; vm_compute; discriminate.
Defined.

(** ** [int_beads]: tokens and their numbers *)





(** ** The two scores on the same state *)


Lemma np_get_thief_beads_Ok_inv (s : Necklace) (thief : Z) (tb : list Z) :
  NpNecklace.get_thief_beads s thief = Ok tb ->
  kind (assignments s) = KNdArray /\
  len (elems (assignments s)) = len (cuts s) + 1 /\
  thief ∈ elems (assignments s).
Proof.
  intros Hg. destruct (array_or_not (assignments s)) as [Hk|Hk].
  - destruct (decide (len (elems (assignments s)) = len (cuts s) + 1))
      as [Hlen|Hlen].
    + split; [done|]. split; [done|].
      rewrite (np_get_thief_beads_owned s thief Hk Hlen) in Hg.
      destruct (decide (thief ∈ elems (assignments s))); [done|].
      by rewrite bool_decide_eq_false_2 in Hg.
    + by rewrite np_get_thief_beads_IndexError in Hg.
  - by rewrite np_get_thief_beads_no_array in Hg.
Qed.



(** ** Integer beads that are not numbered from zero *)

Lemma elem_of_slice {A} (l : list A) (a b : Z) (x : A) :
  x ∈ slice l a b -> x ∈ l.
Proof.
  unfold slice. intros Hx. apply list_elem_of_lookup in Hx as [i Hi].
  apply lookup_take_Some in Hi as [Hi _]. rewrite lookup_drop in Hi.
  by eapply list_elem_of_lookup_2.
Qed.

Lemma thief_beads_loop_subset (s : Necklace) (mask : eq_result)
    (iv idxs : list Z) :
  forall acc r,
    ListNecklace.thief_beads_loop s mask iv idxs acc = Ok r ->
    (forall x, x ∈ acc -> x ∈ beads s) ->
    forall x, x ∈ r -> x ∈ beads s.
Proof.
  induction idxs as [|i idxs IH]; intros acc r Hl Hacc; simpl in Hl.
  - by injection Hl as <-.
  - apply bind_Ok in Hl as (b & _ & Hl). destruct b.
    + apply bind_Ok in Hl as (lo & _ & Hl).
      apply bind_Ok in Hl as (hi & _ & Hl).
      apply (IH _ _ Hl). intros x [Hx|Hx]%elem_of_app; [by apply Hacc|].
      by eapply elem_of_slice.
    + by apply (IH _ _ Hl).
Qed.

Lemma list_get_thief_beads_subset (s : Necklace) (thief : Z) (tb : list Z) :
  ListNecklace.get_thief_beads s thief = Ok tb ->
  forall x, x ∈ tb -> x ∈ beads s.
Proof.
  unfold ListNecklace.get_thief_beads. intros Hg.
  apply (thief_beads_loop_subset _ _ _ _ _ _ Hg).
  by intros x ?%elem_of_nil.
Qed.

(** A loop all of whose summands are [c] adds [c] once per turn. *)
Lemma sum_loop_const {A} (f : A -> result Q) (c : Q) (l : list A) :
  (forall x t, x ∈ l -> f x = Ok t -> (t == c)%Q) ->
  forall acc q,
    sum_loop f l acc = Ok q -> (q == acc + c * inject_Z (len l))%Q.
Proof.
  induction l as [|x l IH]; intros Hf acc q Hs; simpl in Hs.
  - injection Hs as <-. unfold len. simpl. ring.
  - apply bind_Ok in Hs as (t & Ht & Hs).
    rewrite (IH (fun y t' Hy => Hf y t' (list_elem_of_further _ _ _ Hy))
               _ _ Hs).
    rewrite (Hf x t ltac:(left) Ht).
    unfold len. simpl length. rewrite Nat2Z.inj_succ, <- Z.add_1_r.
    rewrite inject_Z_plus. simpl (inject_Z 1). ring.
Qed.

Lemma list_gen_score_foreign (s s' : Necklace) (r : Q) :
  ListNecklace.gen_score s = Ok (r, s') ->
  0 <= num_thieves s ->
  (forall x, x ∈ beads s -> ~ 0 <= x < len (np_unique (beads s))) ->
  (r == inject_Z (2 * len (np_unique (beads s)) * num_thieves s))%Q.
Proof.
  intros Hg Hn Hforeign. unfold ListNecklace.gen_score in Hg.
  destruct (np_unique_counts (beads s)) as [unique counts] eqn:Hu.
  assert (Hun : unique = np_unique (beads s))
    by (unfold np_unique_counts in Hu; by injection Hu as <- _).
  subst unique.
  apply bind_Ok in Hg as (sc & Hsum & [= <- _]).
  apply (sum_loop_const _ (inject_Z (2 * len (np_unique (beads s)))))
    in Hsum.
  - rewrite Hsum, len_range by done.
    rewrite Qplus_0_l, <- inject_Z_mult. reflexivity.
  - intros thief t _ Ht. unfold ListNecklace.thief_score in Ht.
    apply bind_Ok in Ht as (tb & Htb & Ht).
    destruct (np_unique_counts tb) as [tu tc] eqn:Htu.
    assert (Htu' : tu = np_unique tb)
      by (unfold np_unique_counts in Htu; by injection Htu as <- _).
    subst tu.
    apply (sum_loop_const _ 2%Q) in Ht.
    + rewrite Ht, len_range by apply len_nonneg.
      rewrite Qplus_0_l, inject_Z_mult. reflexivity.
    + intros i q Hi%elem_of_range Hq.
      unfold ListNecklace.score_term in Hq.
      assert (Hout : contains i (np_unique tb) = false).
      { apply contains_false. intros Hin.
        apply (proj1 (elem_of_np_unique tb i)) in Hin.
        apply (Hforeign i); [|done].
        by eapply list_get_thief_beads_subset. }
      rewrite Hout in Hq. simpl in Hq. injection Hq as <-. reflexivity.
Qed.

(** X13.  Integer beads are stored as they are, and [gen_score] of
    [necklace.py] looks for the bead types under the numbers
    [0 .. bead_types - 1].  So when no bead bears one of these numbers
    (beads [5] and [7], say), every thief is charged the penalty for
    every type, and the score is [2 * bead_types * num_thieves] whatever
    the cuts and the assignments are. *)
Theorem score_is_blind_to_foreign_integers
    (l : list Z) (n mm : Z) (c : list Z) (a : pyseq) (s : Necklace) :
  0 <= n ->
  (forall x, x ∈ l -> ~ 0 <= x < len (np_unique l)) ->
  ListNecklace.construct (IntBeads l) n mm c a = Ok s ->
  beads s = l /\
  (score s == inject_Z (2 * len (np_unique l) * n))%Q.
Proof.
  intros Hn Hforeign Hc. unfold ListNecklace.construct in Hc.
  apply bind_Ok in Hc as ([r s'] & Hg & [= <-]).
  pose proof Hg as Hg'. apply list_gen_score_fields in Hg' as [q ->].
  split; [done|].
  assert (Hq : q = r).
  { unfold ListNecklace.gen_score in Hg.
    destruct (np_unique_counts _) in Hg.
    apply bind_Ok in Hg as (sc & _ & [= <- Hs]). congruence. }
  subst q. simpl.
  by apply (list_gen_score_foreign _ _ _ Hg).
Qed.

Lemma score_is_blind_to_foreign_integers_witness :
  exists s,
    ListNecklace.construct (IntBeads [5; 7; 5; 7]) 2 4 [1; 3]
      (np_array [0; 1; 0]) = Ok s /\
    (score s == 8)%Q.
Proof.
  eexists. split; [vm_compute; reflexivity|].
  apply (score_is_blind_to_foreign_integers [5; 7; 5; 7] 2 4 [1; 3]
           (np_array [0; 1; 0]) _ ltac:(lia)).
  - intros x Hx. change (len (np_unique [5; 7; 5; 7])) with 2.
    rewrite !elem_of_cons, elem_of_nil in Hx. lia.
  - vm_compute. reflexivity.
Defined.

(** ** The command line from end to end *)



Section StrFacts.
Variable str_cuts : list Z -> string.
Variable str_assignments : pyseq -> string.
Variable str_score : Q -> string.


End StrFacts.

(** ** The neighbours [npnecklace.py] can list *)

Lemma elem_of_mapM {A B} (f : A -> result B) (l : list A) (r : list B)
    (y : B) :
  mapM f l = Ok r -> y ∈ r -> exists x, x ∈ l /\ f x = Ok y.
Proof.
  intros Hm%mapM_Ok_Forall2 Hy. apply list_elem_of_lookup in Hy as [i Hi].
  destruct (Forall2_lookup_r _ _ _ _ _ Hm Hi) as (x & Hx & Hf).
  exists x. split; [by eapply list_elem_of_lookup_2|done].
Qed.

(** A state [gen_score] of [npnecklace.py] accepts has every thief in
    its assignments. *)
Lemma np_gen_score_every_thief (s s' : Necklace) (r : Q) (thief : Z) :
  NpNecklace.gen_score s = Ok (r, s') ->
  0 <= thief < num_thieves s ->
  thief ∈ elems (assignments s') /\ num_thieves s' = num_thieves s.
Proof.
  intros Hg Ht. pose proof Hg as Hg'.
  apply np_gen_score_fields in Hg' as [q ->]. simpl.
  unfold NpNecklace.gen_score in Hg.
  destruct (np_unique_counts (beads s)) as [unique counts].
  apply bind_Ok in Hg as (per_thief & Hpt & _).
  destruct (per_thief_lookup _ _ _ Hpt) as [_ Hto].
  destruct (Hto thief Ht) as (tb & _ & Htb).
  by apply np_get_thief_beads_Ok_inv in Htb as (_ & _ & Hin).
Qed.

Lemma np_construct_thieves (b : beads_arg) (n mm : Z) (c : list Z)
    (a : pyseq) (s : Necklace) :
  NpNecklace.construct b n mm c a = Ok s -> num_thieves s = n.
Proof.
  unfold NpNecklace.construct. intros Hc.
  apply bind_Ok in Hc as ([r s'] & Hg & [= <-]).
  by apply np_gen_score_fields in Hg as [q ->].
Qed.

(** X22.  Every neighbour [get_neighbors] of [npnecklace.py] returns gives
    each thief of [range(num_thieves)] at least one partition: the
    score of a neighbour in which a thief owns nothing cannot be
    computed, so no such neighbour is ever returned. *)
Theorem np_neighbors_keep_every_thief
    (s : Necklace) (nbs : list Necklace) (nb : Necklace) (thief : Z) :
  NpNecklace.get_neighbors s = Ok nbs -> nb ∈ nbs ->
  0 <= thief < num_thieves s ->
  thief ∈ elems (assignments nb).
Proof.
  intros Hg Hin Ht.
  destruct (get_neighbors_with_elem _ _ s nbs nb Hg Hin)
    as [(i & nbs_i & Hi & Hm & Hnb)|(i & nbs_i & Hi & Hm & Hnb)].
  - unfold cut_moves_at in Hm. apply bind_Ok in Hm as (pos & _ & Hm).
    destruct (elem_of_mapM _ _ _ _ Hm Hnb) as (p & _ & Hp).
    unfold cut_neighbor, copy_of in Hp.
    apply bind_Ok in Hp as (nb0 & Hcon & Hp).
    apply np_construct_thieves in Hcon.
    apply bind_Ok in Hp as (c' & _ & Hp).
    apply bind_Ok in Hp as ([r nb'] & Hgs & [= <-]).
    apply (np_gen_score_every_thief _ _ _ thief) in Hgs as [Hthief _];
      [done|]. simpl. by rewrite Hcon.
  - unfold assignment_moves_at in Hm.
    destruct (elem_of_mapM _ _ _ _ Hm Hnb) as (t & _ & Hp).
    unfold assignment_neighbor, copy_of in Hp.
    apply bind_Ok in Hp as (nb0 & Hcon & Hp).
    apply np_construct_thieves in Hcon.
    apply bind_Ok in Hp as (a' & _ & Hp).
    apply bind_Ok in Hp as ([r nb'] & Hgs & [= <-]).
    apply (np_gen_score_every_thief _ _ _ thief) in Hgs as [Hthief _];
      [done|]. simpl. by rewrite Hcon.
Qed.

Lemma np_neighbors_keep_every_thief_witness :
  exists nbs nb,
    NpNecklace.get_neighbors necklace_fair = Ok nbs /\
    nbs !! 0%nat = Some nb /\
    1 ∈ elems (assignments nb).
Proof.
  destruct (NpNecklace.get_neighbors necklace_fair) as [nbs|e] eqn:Hg;
    [|vm_compute in Hg; discriminate Hg].
  destruct nbs as [|nb nbs]; [vm_compute in Hg; discriminate Hg|].
  exists (nb :: nbs), nb. split; [reflexivity|]. split; [reflexivity|].
  apply (np_neighbors_keep_every_thief necklace_fair (nb :: nbs) nb 1 Hg).
  - left.
  - simpl. lia.
Defined.

(** ** The search ends *)

Section Termination.
Import LocalSearch.
Context {State : Type} `{LocalSearcheable State}.
Variable clock : nat -> Q.

(** A clock that gains at least [delta] between two readings. *)
Lemma clock_advances (delta : Q) (k : nat) :
  (forall j, clock j + delta <= clock (S j))%Q ->
  (clock 0 + inject_Z (Z.of_nat k) * delta <= clock k)%Q.
Proof.
  intros Hstep. induction k as [|k IH].
  - simpl. rewrite Qmult_0_l, Qplus_0_r. apply Qle_refl.
  - eapply Qle_trans; [|apply Hstep].
    rewrite Nat2Z.inj_succ, <- Z.add_1_r, inject_Z_plus.
    assert (Heq : (clock 0 + (inject_Z (Z.of_nat k) + inject_Z 1) * delta
                   == clock 0 + inject_Z (Z.of_nat k) * delta + delta)%Q)
      by (simpl (inject_Z 1); ring).
    rewrite Heq. by apply Qplus_le_l.
Qed.

(** X29.  The loop of [search] is bounded by the clock alone: if every
    reading of [time.time()] is at least [delta] later than the one
    before, then [fuel] turns are enough for the search to end, by
    returning or by raising, as soon as [(fuel + 1) * delta >= stop]. *)
Theorem search_ends_when_the_clock_advances
    (fuel : nat) (np_g : RNG) (obj : State) (stop delta : Q) :
  (forall j, clock j + delta <= clock (S j))%Q ->
  (stop <= inject_Z (Z.of_nat (S fuel)) * delta)%Q ->
  search_run clock fuel np_g obj stop <> OutOfFuel /\
  search clock fuel np_g obj stop <> OutOfFuel.
Proof.
  intros Hstep Hfuel.
  assert (Hrun : search_run clock fuel np_g obj stop <> OutOfFuel).
  { intros Hout.
    pose proof (search_loop_spec clock obj (clock 0 + stop)%Q fuel 1 np_g
                  obj obj (score_of obj) []) as Hspec.
    unfold search_run in Hout. rewrite Hout in Hspec.
    assert (Hlate : (clock (1 + fuel)%nat < clock 0 + stop)%Q).
    { apply Hspec; [|lia]. split; [done|]. split; [by left|].
      intros s Hs. apply list_elem_of_singleton in Hs as ->. apply Qle_refl. }
    pose proof (clock_advances delta (S fuel) Hstep) as Hadv.
    apply (Qlt_irrefl (clock (S fuel))).
    eapply Qlt_le_trans; [exact Hlate|].
    eapply Qle_trans; [|exact Hadv]. by apply Qplus_le_r. }
  split; [exact Hrun|]. unfold search.
  destruct (search_run clock fuel np_g obj stop) as [[b v]|e|]; done.
Qed.
End Termination.

Lemma search_ends_when_the_clock_advances_witness :
  LocalSearch.search clock0 3 rng0 necklace_0101 3 <> LocalSearch.OutOfFuel.
Proof.
  apply (search_ends_when_the_clock_advances clock0 3 rng0 necklace_0101 3 1).
  - intros j. unfold clock0.
    rewrite Nat2Z.inj_succ, <- Z.add_1_r, inject_Z_plus. apply Qle_refl.
  - vm_compute. discriminate.
Defined.
